(** * A shallow embedding of the canvas game engine ([engine.js])

    JavaScript numbers are IEEE 754 binary64 values, so coordinates and
    sizes are modelled by Rocq's primitive [float]s: every arithmetic
    operator and comparison of the source is the corresponding primitive
    operation, with its rounding, infinities, signed zeros and NaN. *)

From Stdlib Require Import Floats ZArith Bool.
From stdpp Require Import gmap strings list.

Local Open Scope float_scope.

(** ** JavaScript numbers *)

Module JS.

(** [a > b] and [a >= b] are [b < a] and [b <= a]. *)
Definition gtb (a b : float) : bool := b <? a.
Definition geb (a b : float) : bool := b <=? a.

(** A property read that may yield [undefined]. *)
Definition value := option float.

(** ToNumber: [undefined] becomes NaN. *)
Definition ToNumber (v : value) : float :=
  match v with
  | Some n => n
  | None => nan
  end.

(** ToBoolean on a number or [undefined]: [undefined], [+0], [-0] and NaN
    are falsy. *)
Definition truthy (v : value) : bool :=
  match v with
  | Some n => negb (is_zero n || is_nan n)
  | None => false
  end.

(** [v || d] where [d] is a number. *)
Definition or_default (v : value) (d : float) : float :=
  if truthy v then ToNumber v else d.

(** [Math.min(a, b)]: NaN if either is NaN, and [-0] is below [+0]. *)
Definition Math_min (a b : float) : float :=
  if is_nan a || is_nan b then nan
  else if a <? b then a
  else if b <? a then b
  else if get_sign a then a else b.

(** [Math.max(a, b)]: NaN if either is NaN, and [+0] is above [-0]. *)
Definition Math_max (a b : float) : float :=
  if is_nan a || is_nan b then nan
  else if a <? b then b
  else if b <? a then a
  else if get_sign a then b else a.

Definition Math_sqrt (a : float) : float := sqrt a.

End JS.

(** ** Drawable objects *)

(** The classes of the source; [extends] gives the superclass. *)
Inductive Class : Set :=
  | GameObject | Rectangle | Circle | Sprite | Text | Button.

#[global] Instance Class_eq_dec : EqDecision Class.
Proof. solve_decision. Defined.

Definition extends (c : Class) : option Class :=
  match c with
  | GameObject => None
  | Rectangle => Some GameObject
  | Circle => Some GameObject
  | Sprite => Some GameObject
  | Text => Some GameObject
  | Button => Some Rectangle
  end.

(** The prototype chain of a class, the class itself first.  The hierarchy
    is three levels deep. *)
Definition prototype_chain (c : Class) : list Class :=
  c :: match extends c with
       | None => []
       | Some p => p :: match extends p with
                        | None => []
                        | Some q => q :: match extends q with
                                         | None => []
                                         | Some r => [r]
                                         end
                        end
       end.

(** The fields an instance carries.  [width], [height] and [radius] are
    absent ([None], read as [undefined]) unless a constructor sets them,
    and so are the strings.  The image of a Sprite is present through its
    dimensions only; the callback of a Button is kept with the other
    functions attached to objects ([Hooks] below). *)
Record Obj : Type := mkObj {
  class_of : Class;
  x : float;
  y : float;
  vx : float;
  vy : float;
  width : JS.value;
  height : JS.value;
  radius : JS.value;
  color : option string;
  text : option string;
  font : option string;
  label : option string;
}.

#[global] Instance Obj_inhabited : Inhabited Obj :=
  populate (mkObj GameObject 0 0 0 0 None None None None None None None).

(** [o instanceof C] *)
Definition instanceof (o : Obj) (C : Class) : bool :=
  bool_decide (C ∈ prototype_chain (class_of o)).

(** Constructors; the callers below pass the [color] and [font] that the
    source takes as defaults. *)
Definition new_GameObject (x y : float) : Obj :=
  mkObj GameObject x y 0 0 None None None None None None None.

Definition new_Rectangle (x y w h : float) (color : string) : Obj :=
  mkObj Rectangle x y 0 0 (Some w) (Some h) None (Some color) None None None.

Definition new_Circle (x y r : float) (color : string) : Obj :=
  mkObj Circle x y 0 0 None None (Some r) (Some color) None None None.

(** [image_width] and [image_height] are [image.width] and [image.height]. *)
Definition new_Sprite (x y image_width image_height : float) : Obj :=
  mkObj Sprite x y 0 0 (Some image_width) (Some image_height) None None None
    None None.

Definition new_Text (x y : float) (t : string) (color : string) : Obj :=
  mkObj Text x y 0 0 None None None (Some color) (Some t)
    (Some "20px sans-serif"%string) None.

Definition new_Button (x y w h : float) (label : string) : Obj :=
  mkObj Button x y 0 0 (Some w) (Some h) None (Some "#555"%string) None None
    (Some label).

(** ** Collision predicates *)

Definition rectRectCollision (a b : Obj) : bool :=
  (x a <? x b + JS.ToNumber (width b)) &&
  JS.gtb (x a + JS.ToNumber (width a)) (x b) &&
  (y a <? y b + JS.ToNumber (height b)) &&
  JS.gtb (y a + JS.ToNumber (height a)) (y b).

Definition circleCircleCollision (a b : Obj) : bool :=
  let dx := x a - x b in
  let dy := y a - y b in
  let dist := JS.Math_sqrt (dx * dx + dy * dy) in
  dist <? JS.ToNumber (radius a) + JS.ToNumber (radius b).

Definition rectCircleCollision (rect circ : Obj) : bool :=
  let cx := JS.Math_max (x rect) (JS.Math_min (x circ) (x rect + JS.ToNumber (width rect))) in
  let cy := JS.Math_max (y rect) (JS.Math_min (y circ) (y rect + JS.ToNumber (height rect))) in
  let dx := x circ - cx in
  let dy := y circ - cy in
  dx * dx + dy * dy <? JS.ToNumber (radius circ) * JS.ToNumber (radius circ).

Definition checkCollision (a b : Obj) : bool :=
  if instanceof a Rectangle && instanceof b Rectangle then rectRectCollision a b
  else if instanceof a Circle && instanceof b Circle then circleCircleCollision a b
  else if instanceof a Rectangle && instanceof b Circle then rectCircleCollision a b
  else if instanceof a Circle && instanceof b Rectangle then rectCircleCollision b a
  else false.

Close Scope float_scope.

(** ** Input *)

Module Input.

(** [this.mouse] *)
Record mouse_state : Type := mkMouse {
  mouse_x : float;
  mouse_y : float;
  mouse_down : bool;
  mouse_clicked : bool;
}.

(** [this.keys] and [this.mouse] *)
Record state : Type := mkInput {
  keys : gset string;
  mouse : mouse_state;
}.

(** The state the constructor builds. *)
Definition new : state :=
  mkInput ∅ (mkMouse 0 0 false false).

(** The window events the constructor listens to.  A [mousemove] carries
    [e.clientX], [e.clientY] and the [left] and [top] of the target's
    bounding rectangle ([rect_left], [rect_top]). *)
Inductive event : Type :=
  | keydown (key : string)
  | keyup (key : string)
  | mousemove (clientX clientY rect_left rect_top : float)
  | mousedown
  | mouseup.

(** The listener of each event. *)
Definition handle (e : event) (s : state) : state :=
  match e with
  | keydown key => mkInput ({[key]} ∪ keys s) (mouse s)
  | keyup key => mkInput (keys s ∖ {[key]}) (mouse s)
  | mousemove clientX clientY rect_left rect_top =>
      mkInput (keys s)
        (mkMouse (clientX - rect_left)%float (clientY - rect_top)%float
           (mouse_down (mouse s)) (mouse_clicked (mouse s)))
  | mousedown =>
      mkInput (keys s)
        (mkMouse (mouse_x (mouse s)) (mouse_y (mouse s)) true true)
  | mouseup =>
      mkInput (keys s)
        (mkMouse (mouse_x (mouse s)) (mouse_y (mouse s)) false
           (mouse_clicked (mouse s)))
  end.

Definition isKeyDown (s : state) (key : string) : bool :=
  bool_decide (key ∈ keys s).

Definition isMouseDown (s : state) : bool := mouse_down (mouse s).

Definition wasMouseClicked (s : state) : bool := mouse_clicked (mouse s).

Definition consumeClick (s : state) : state :=
  mkInput (keys s)
    (mkMouse (mouse_x (mouse s)) (mouse_y (mouse s)) (mouse_down (mouse s)) false).

Definition isMouseInside (s : state) (obj : Obj) : bool :=
  JS.geb (mouse_x (mouse s)) (x obj) &&
  (mouse_x (mouse s) <=? x obj + JS.or_default (width obj) 0)%float &&
  JS.geb (mouse_y (mouse s)) (y obj) &&
  (mouse_y (mouse s) <=? y obj + JS.or_default (height obj) 0)%float.

(** What a client may do with the tracker between two frames: the browser
    delivers an event, or the program calls one of the methods. *)
Inductive op : Type :=
  | Deliver (e : event)
  | AskKeyDown (key : string)
  | AskMouseDown
  | AskClicked
  | AskInside (obj : Obj)
  | Consume.

Definition asks_clicked (o : op) : bool :=
  match o with
  | AskClicked => true
  | _ => false
  end.

(** One operation: the next state and the answer of a query. *)
Definition step (o : op) (s : state) : state * option bool :=
  match o with
  | Deliver e => (handle e s, None)
  | AskKeyDown key => (s, Some (isKeyDown s key))
  | AskMouseDown => (s, Some (isMouseDown s))
  | AskClicked => (s, Some (wasMouseClicked s))
  | AskInside obj => (s, Some (isMouseInside s obj))
  | Consume => (consumeClick s, None)
  end.

(** A sequence of operations: the final state and, for every
    [wasMouseClicked()] query in it, the answer it got. *)
Fixpoint run (ops : list op) (s : state) : state * list bool :=
  match ops with
  | [] => (s, [])
  | o :: ops' =>
      let '(s1, _) := step o s in
      let '(s2, answers) := run ops' s1 in
      (s2, match o with
           | AskClicked => wasMouseClicked s :: answers
           | _ => answers
           end)
  end.

End Input.

(** ** The engine and its objects *)

(** Objects are references: the engine's list holds addresses into a heap
    of instances, and [===] on objects is equality of addresses.  Reading
    an address the heap does not hold ([!!!]) gives a bare GameObject. *)
Record World : Type := mkWorld {
  heap : gmap nat Obj;
  objects : list nat;
  input : Input.state;
}.

(** What a function attached to an object may do when it is called. *)
Definition Effect : Type := World -> World.

(** An [update] property found on the instance itself. *)
Inductive Slot (A : Type) : Type :=
  | Unset
  | Falsy
  | Fn (f : A).
Arguments Unset {A}.
Arguments Falsy {A}.
Arguments Fn {A} f.

(** The functions attached to instances: an [update] of the instance's
    own ([rect.update = function (dt, input) ...]), the [callback] of a
    Button and an [onCollision].  Each lookup may depend on the current
    state, since properties can be assigned at any time; [None] is an
    absent or falsy property. *)
Record Hooks : Type := mkHooks {
  own_update : nat -> World -> Slot (float -> Effect);
  callback : nat -> World -> option Effect;
  onCollision : nat -> World -> option (nat -> Effect);
}.

(** The calls a frame makes, in order. *)
Inductive Event : Type :=
  | EvCallback (button : nat)
  | EvConsume
  | EvCheck (i j : nat) (a b : nat) (result : bool)
  | EvOnCollision (self other : nat)
  | EvClear
  | EvDraw (obj : nat).

(** Computations of a frame: they read and write the world, record the
    calls they make, and fail ([None]) only when a loop runs out of fuel. *)
Definition M (A : Type) : Type := World -> option (A * World * list Event).

#[global] Instance M_ret : MRet M := fun A a w => Some (a, w, []).

#[global] Instance M_bind : MBind M := fun A B f m w =>
  match m w with
  | None => None
  | Some (a, w1, t1) =>
      match f a w1 with
      | None => None
      | Some (b, w2, t2) => Some (b, w2, t1 ++ t2)
      end
  end.

Definition get : M World := fun w => Some (w, w, []).
Definition modify (f : Effect) : M unit := fun w => Some (tt, f w, []).
Definition emit (e : Event) : M unit := fun w => Some (tt, w, [e]).
Definition out_of_fuel {A} : M A := fun _ => None.

(** [this.input.consumeClick()] *)
Definition consume_click : Effect :=
  fun w => mkWorld (heap w) (objects w) (Input.consumeClick (input w)).

Section Engine.

Variable H : Hooks.

(** [Button.prototype.update] *)
Definition Button_update (this : nat) (dt : float) : M unit :=
  w ← get;
  if Input.wasMouseClicked (input w) && Input.isMouseInside (input w) (heap w !!! this)
  then
    match callback H this w with
    | Some f => emit (EvCallback this);; modify f
    | None => mret tt
    end;;
    emit EvConsume;;
    modify consume_click
  else mret tt.

(** [GameObject.prototype.update] *)
Definition GameObject_update (this : nat) (dt : float) : M unit := mret tt.

(** [obj.update]: the instance's own property if it has one, else the
    method of its class. *)
Definition update_of (obj : nat) (w : World) : option (float -> M unit) :=
  match own_update H obj w with
  | Fn f => Some (fun dt => modify (f dt))
  | Falsy => None
  | Unset =>
      if instanceof (heap w !!! obj) Button then Some (Button_update obj)
      else Some (GameObject_update obj)
  end.

(** [checkCollision(a, b)] as the frame calls it, at loop indices [i], [j]. *)
Definition call_checkCollision (i j a b : nat) : M bool :=
  w ← get;
  let r := checkCollision (heap w !!! a) (heap w !!! b) in
  emit (EvCheck i j a b r);;
  mret r.

(** [if (self.onCollision) self.onCollision(other)] *)
Definition call_onCollision (self other : nat) : M unit :=
  w ← get;
  match onCollision H self w with
  | Some f => emit (EvOnCollision self other);; modify (f other)
  | None => mret tt
  end.

(** The body of the inner collision loop.  The loop conditions keep both
    indices below the length, so the reads always succeed. *)
Definition collide_pair (i j : nat) : M unit :=
  w ← get;
  match objects w !! i, objects w !! j return M unit with
  | Some a, Some b =>
      c1 ← call_checkCollision i j a b;
      (if c1 : bool then call_onCollision a b else mret tt);;
      c2 ← call_checkCollision i j a b;
      if c2 : bool then call_onCollision b a else mret tt
  | _, _ => mret tt
  end.

(** [for (const obj of this.objects)]: the array iterator reads the length
    again at every step. *)
Fixpoint update_loop (fuel : nat) (dt : float) (i : nat) : M unit :=
  match fuel with
  | O => out_of_fuel
  | S fuel' =>
      w ← get;
      match objects w !! i with
      | None => mret tt
      | Some obj =>
          match update_of obj w with
          | Some f => f dt
          | None => mret tt
          end;;
          update_loop fuel' dt (S i)
      end
  end.

(** [for (let j = ...; j < this.objects.length; j++)] *)
Fixpoint inner_loop (fuel : nat) (i j : nat) : M unit :=
  match fuel with
  | O => out_of_fuel
  | S fuel' =>
      w ← get;
      if j <? length (objects w) then
        collide_pair i j;; inner_loop fuel' i (S j)
      else mret tt
  end.

(** [for (let i = 0; i < this.objects.length; i++)] *)
Fixpoint outer_loop (fuel : nat) (i : nat) : M unit :=
  match fuel with
  | O => out_of_fuel
  | S fuel' =>
      w ← get;
      if i <? length (objects w) then
        inner_loop fuel' i (S i);; outer_loop fuel' (S i)
      else mret tt
  end.

(** [Engine.prototype.update] *)
Definition Engine_update (fuel : nat) (dt : float) : M unit :=
  update_loop fuel dt 0;;
  outer_loop fuel 0.

End Engine.

(** [Engine.prototype.add] *)
Definition Engine_add (obj : nat) : Effect :=
  fun w => mkWorld (heap w) (objects w ++ [obj]) (input w).

(** [Array.prototype.indexOf]: the first index holding [obj], or [-1]. *)
Fixpoint indexOf_from (obj : nat) (l : list nat) (k : Z) : Z :=
  match l with
  | [] => (-1)%Z
  | o :: l' => if decide (o = obj) then k else indexOf_from obj l' (k + 1)%Z
  end.

Definition indexOf (obj : nat) (l : list nat) : Z := indexOf_from obj l 0.

(** [l.splice(start, 1)]: a negative [start] counts from the end, and
    nothing is removed at or past the end. *)
Definition splice1 (start : Z) (l : list nat) : list nat :=
  let len := Z.of_nat (length l) in
  let k := if (start <? 0)%Z then Z.max (len + start) 0 else Z.min start len in
  delete (Z.to_nat k) l.

(** [Engine.prototype.remove] *)
Definition Engine_remove (obj : nat) : Effect :=
  fun w =>
    let idx := indexOf obj (objects w) in
    if negb (idx =? -1)%Z
    then mkWorld (heap w) (splice1 idx (objects w)) (input w)
    else w.

(** [Engine.prototype.draw]: the canvas is cleared and the objects are
    drawn in list order; the calls are what reaches the canvas. *)
Definition Engine_draw (w : World) : list Event :=
  EvClear :: map EvDraw (objects w).

(** ** The example of the source *)

Module Demo.

(** The objects of the example, by address, in the order they are added. *)
Definition rect : nat := 0.
Definition circle : nat := 1.
Definition infoText : nat := 2.
Definition button : nat := 3.

(** Assignments to the fields of an instance in the heap. *)
Definition assign (o : nat) (f : Obj -> Obj) : Effect :=
  fun w => mkWorld (alter f o (heap w)) (objects w) (input w).

Definition set_x (v : float) (o : Obj) : Obj :=
  mkObj (class_of o) v (y o) (vx o) (vy o) (width o) (height o) (radius o)
    (color o) (text o) (font o) (label o).

Definition set_y (v : float) (o : Obj) : Obj :=
  mkObj (class_of o) (x o) v (vx o) (vy o) (width o) (height o) (radius o)
    (color o) (text o) (font o) (label o).

Definition set_color (c : string) (o : Obj) : Obj :=
  mkObj (class_of o) (x o) (y o) (vx o) (vy o) (width o) (height o) (radius o)
    (Some c) (text o) (font o) (label o).

(** [rect.update = function (dt, input) ...]: the arrow keys move the
    rectangle. *)
Definition rect_update (dt : float) : Effect :=
  fun w =>
    let w1 := if Input.isKeyDown (input w) "ArrowRight"
              then assign rect (fun o => set_x (x o + 200 * dt)%float o) w else w in
    let w2 := if Input.isKeyDown (input w1) "ArrowLeft"
              then assign rect (fun o => set_x (x o - 200 * dt)%float o) w1 else w1 in
    let w3 := if Input.isKeyDown (input w2) "ArrowDown"
              then assign rect (fun o => set_y (y o + 200 * dt)%float o) w2 else w2 in
    if Input.isKeyDown (input w3) "ArrowUp"
    then assign rect (fun o => set_y (y o - 200 * dt)%float o) w3 else w3.

(** The callback of the Reset button. *)
Definition reset : Effect :=
  fun w =>
    assign rect (set_color "red")
      (assign rect (set_y 100) (assign rect (set_x 100) w)).

(** [rect.onCollision = function (other) ...] *)
Definition rect_onCollision (other : nat) : Effect :=
  fun w => if decide (other = circle) then assign rect (set_color "blue") w else w.

Definition hooks : Hooks :=
  mkHooks
    (fun o _ => if decide (o = rect) then Fn rect_update else Unset)
    (fun o _ => if decide (o = button) then Some reset else None)
    (fun o _ => if decide (o = rect) then Some rect_onCollision else None).

(** The world after the four [engine.add] calls, with the rectangle at
    [(px, py)]. *)
Definition world (px py : float) (i : Input.state) : World :=
  mkWorld
    (<[rect := new_Rectangle px py 50 50 "red"]>
     (<[circle := new_Circle 200 150 25 "green"]>
      (<[infoText := new_Text 10 20 "Use arrow keys. Touch circle to turn blue."
                       "white"]>
       (<[button := new_Button 650 550 120 30 "Reset"]> ∅))))
    [rect; circle; infoText; button]
    i.

End Demo.

(** ** The button scenario of the specification *)

Module Scenario.

(** Two buttons at [(0, 0)] of size 10 by 10, one over the other, and a
    click at [(5, 5)]. *)
Definition clicked_at_5_5 : Input.state :=
  Input.handle Input.mousedown (Input.handle (Input.mousemove 5 5 0 0) Input.new).

Definition world : World :=
  mkWorld
    (<[0 := new_Button 0 0 10 10 "first"]> (<[1 := new_Button 0 0 10 10 "second"]> ∅))
    [0; 1]
    clicked_at_5_5.

(** The callback of either button recolours that button. *)
Definition hooks : Hooks :=
  mkHooks
    (fun _ _ => Unset)
    (fun o _ => Some (Demo.assign o (Demo.set_color "pressed")))
    (fun _ _ => None).

(** The collision scenario of the specification: a rectangle and a circle
    whose centre lies inside it. *)
Definition overlap : World :=
  mkWorld
    (<[0 := new_Rectangle 10 10 20 20 "white"]> (<[1 := new_Circle 15 15 5 "white"]> ∅))
    [0; 1]
    Input.new.

(** Handlers for [overlap]: on a collision the rectangle jumps away to
    [x = 1000], and the circle changes colour. *)
Definition evasive : Hooks :=
  mkHooks
    (fun _ _ => Unset)
    (fun _ _ => None)
    (fun o _ => if decide (o = 0)
                then Some (fun _ => Demo.assign 0 (Demo.set_x 1000))
                else Some (fun _ => Demo.assign o (Demo.set_color "hit"))).

End Scenario.

(** ** Enumerations used to state what a frame does *)

(** The index pairs [(i, j)] with [i < j < n], in the order of the loops. *)
Definition pairs_from (n i : nat) : list (nat * nat) :=
  pair i <$> seq (S i) (n - S i).

Definition pairs (n : nat) : list (nat * nat) :=
  seq 0 n ≫= pairs_from n.

(** The [checkCollision] calls of a trace: loop indices and arguments. *)
Definition check_call (e : Event) : option (nat * nat * (nat * nat)) :=
  match e with
  | EvCheck i j a b _ => Some (i, j, (a, b))
  | _ => None
  end.

Definition check_calls (tr : list Event) : list (nat * nat * (nat * nat)) :=
  omap check_call tr.

(** How many times a trace calls [checkCollision] at loop indices [i], [j]. *)
Definition count_checks (i j : nat) (tr : list Event) : nat :=
  length (filter (λ c, c.1 = (i, j)) (check_calls tr)).

(** The two calls made for the pair of indices [p] of the list [l]. *)
Definition checks_twice (l : list nat) (p : nat * nat)
    : list (nat * nat * (nat * nat)) :=
  [(p, (l !!! p.1, l !!! p.2)); (p, (l !!! p.1, l !!! p.2))].

(** What the collision loops call on the list [l]: for each pair of
    indices in loop order, [checkCollision(l[i], l[j])] two times. *)
Definition expected_checks (l : list nat) : list (nat * nat * (nat * nat)) :=
  pairs (length l) ≫= checks_twice l.

(** The buttons whose callback a trace fires. *)
Definition fired_callback (e : Event) : option nat :=
  match e with
  | EvCallback b => Some b
  | _ => None
  end.

Definition fired (tr : list Event) : list nat := omap fired_callback tr.

(** A computation that leaves the list [l] in place and calls no
    [checkCollision]. *)
Definition quiet (l : list nat) : unit -> World -> list Event -> Prop :=
  fun _ w' tr => objects w' = l /\ check_calls tr = [].

(** A computation returns from [w] with a result satisfying [Q]. *)
Definition runs {A} (m : M A) (w : World)
    (Q : A -> World -> list Event -> Prop) : Prop :=
  exists a w' tr, m w = Some (a, w', tr) /\ Q a w' tr.

(** No function attached to any object. *)
Definition no_hooks : Hooks :=
  mkHooks (fun _ _ => Unset) (fun _ _ => None) (fun _ _ => None).

(** Every attached function leaves the engine's list as it is. *)
Definition keeps_list (f : Effect) : Prop :=
  forall w, objects (f w) = objects w.

Record hooks_keep_list (H : Hooks) : Prop := {
  update_keeps : forall o w f dt, own_update H o w = Fn f -> keeps_list (f dt);
  callback_keeps : forall o w f, callback H o w = Some f -> keeps_list f;
  onCollision_keeps :
    forall o w f other, onCollision H o w = Some f -> keeps_list (f other);
}.

(** ** Geometry named by the specification *)

(** The distance between the centres of two objects, as the source
    computes it. *)
Definition centre_distance (a b : Obj) : float :=
  JS.Math_sqrt ((x a - x b) * (x a - x b) + (y a - y b) * (y a - y b))%float.

(** [v] clamped to the interval from [lo] to [hi]. *)
Definition clamp (v lo hi : float) : float :=
  JS.Math_max lo (JS.Math_min v hi).

(** The point of a rectangle nearest to a circle's centre. *)
Definition nearest_point (rect circ : Obj) : float * float :=
  (clamp (x circ) (x rect) (x rect + JS.ToNumber (width rect))%float,
   clamp (y circ) (y rect) (y rect + JS.ToNumber (height rect))%float).

(** The squared distance from the centre of [circ] to the point [p]. *)
Definition sq_distance_to (circ : Obj) (p : float * float) : float :=
  ((x circ - fst p) * (x circ - fst p) + (y circ - snd p) * (y circ - snd p))%float.

(** An object that is neither a Rectangle (or a subclass of it) nor a
    Circle. *)
Definition shapeless (o : Obj) : bool :=
  negb (instanceof o Rectangle) && negb (instanceof o Circle).

(** ** Exact values

    The collision predicates round after every operation.  To compare
    their results with the geometry they stand for, the value of a
    binary64 number is taken exactly: every finite binary64 number is a
    whole multiple of [2^-1074], and every whole number below [2^53] in
    magnitude is a binary64 number. *)

Module Exact.

(** The value of a finite number, counted in units of [2^-1074]; [None]
    for an infinity and for NaN. *)
Definition units (f : float) : option Z :=
  match Prim2SF f with
  | S754_zero _ => Some 0%Z
  | S754_finite s m e => Some (cond_Zopp s (Zpos m * 2 ^ (e + 1074)))%Z
  | _ => None
  end.

(** The value of [f] is exactly the whole number [n]. *)
Definition value_is (f : float) (n : Z) : Prop :=
  units f = Some (n * 2 ^ 1074)%Z.

(** The value of [f] is the whole number [n], of magnitude at most
    [2^24]: differences, squares and sums of two squares of such numbers
    stay below [2^53]. *)
Definition whole (f : float) (n : Z) : Prop :=
  value_is f n /\ (Z.abs n <= 2 ^ 24)%Z.

(** The centres of the circles [a] and [b] are exactly as far apart as
    their radii add up to: [d = r1 + r2], with no rounding. *)
Definition touching (a b : Obj) : Prop :=
  exists xa ya ra xb yb rb : Z,
    units (x a) = Some xa /\ units (y a) = Some ya /\
    units (JS.ToNumber (radius a)) = Some ra /\
    units (x b) = Some xb /\ units (y b) = Some yb /\
    units (JS.ToNumber (radius b)) = Some rb /\
    (0 <= ra + rb /\ (xa - xb) ^ 2 + (ya - yb) ^ 2 = (ra + rb) ^ 2)%Z.

(** The point [p] is exactly as far from the centre of the circle [circ]
    as its radius, with no rounding. *)
Definition at_radius (circ : Obj) (p : float * float) : Prop :=
  exists cx cy r px py : Z,
    units (x circ) = Some cx /\ units (y circ) = Some cy /\
    units (JS.ToNumber (radius circ)) = Some r /\
    units (fst p) = Some px /\ units (snd p) = Some py /\
    (0 <= r /\ (cx - px) ^ 2 + (cy - py) ^ 2 = r ^ 2)%Z.

(** The rest serves the proofs.  [F n] is the whole number [n] rounded to
    binary64 (to nearest, ties to even) in the representation the
    arithmetic is specified on, and [of_Z n] is that number: [of_Z 3] is
    [3]. *)
Definition F (n : Z) : spec_float := binary_normalize prec emax n 0 false.

Definition of_Z (n : Z) : float := SF2Prim (F n).

(** Whole numbers below [2^53] in magnitude: each is a binary64 number. *)
Definition small (n : Z) : Prop := (Z.abs n < 2 ^ 53)%Z.

(** The mantissa, of 53 binary digits, and the exponent of the binary64
    number of a positive whole number below [2^53]. *)
Definition mant (p : positive) : positive :=
  match (53 - Zpos (digits2_pos p))%Z with
  | Zpos k => Pos.iter xO p k
  | _ => p
  end.

Definition expo (p : positive) : Z := (Zpos (digits2_pos p) - 53)%Z.

(** What [value_is] comes to for [n] below [2^53]: [f] is [of_Z n], or
    [n] is 0 and [f] is the negative zero. *)
Definition is_Z (f : float) (n : Z) : Prop :=
  Prim2SF f = F n \/ (n = 0%Z /\ Prim2SF f = S754_zero true).

End Exact.

(** ** Sequences of window events *)

(** The listeners run on a sequence of events, oldest first. *)
Definition deliver (evs : list Input.event) (s : Input.state) : Input.state :=
  fold_left (fun s e => Input.handle e s) evs s.

(** Whether key [k] is held after the events, when [held] tells whether
    it was held before them: the last [keydown] or [keyup] of [k] decides. *)
Fixpoint key_after (k : string) (evs : list Input.event) (held : bool) : bool :=
  match evs with
  | [] => held
  | Input.keydown k' :: evs' => key_after k evs' (if decide (k' = k) then true else held)
  | Input.keyup k' :: evs' => key_after k evs' (if decide (k' = k) then false else held)
  | _ :: evs' => key_after k evs' held
  end.

(** Whether the mouse button is held after the events: the last
    [mousedown] or [mouseup] decides. *)
Fixpoint button_after (evs : list Input.event) (held : bool) : bool :=
  match evs with
  | [] => held
  | Input.mousedown :: evs' => button_after evs' true
  | Input.mouseup :: evs' => button_after evs' false
  | _ :: evs' => button_after evs' held
  end.

Definition is_mousedown (e : Input.event) : bool :=
  match e with
  | Input.mousedown => true
  | _ => false
  end.

(** The mouse position after the events: that of the last [mousemove]. *)
Fixpoint position_after (evs : list Input.event) (p : float * float) : float * float :=
  match evs with
  | [] => p
  | Input.mousemove cx cy l t :: evs' => position_after evs' ((cx - l)%float, (cy - t)%float)
  | _ :: evs' => position_after evs' p
  end.

(** ** Clicks on buttons *)

(** What a click on button [b] does in [w]: the callback, when the button
    has one, runs and the click is consumed. *)
Definition click_outcome (H : Hooks) (b : nat) (w : World) : World * list Event :=
  match callback H b w with
  | Some f => (consume_click (f w), [EvCallback b; EvConsume])
  | None => (consume_click w, [EvConsume])
  end.

(** Button [o] is under the mouse in [w]. *)
Definition button_under_mouse (w : World) (o : nat) : bool :=
  instanceof (heap w !!! o) Button &&
  Input.isMouseInside (input w) (heap w !!! o).

(** A menu of three buttons, the third overlapping the second, with a
    click at [(50, 45)], which is on the second and on the third. *)
Module Menu.

Definition world : World :=
  mkWorld
    (<[0 := new_Button 0 0 100 20 "one"]>
     (<[1 := new_Button 0 30 100 20 "two"]>
      (<[2 := new_Button 0 40 100 20 "three"]> ∅)))
    [0; 1; 2]
    (Input.handle Input.mousedown (Input.handle (Input.mousemove 50 45 0 0) Input.new)).

(** The same menu with the mouse at [(50, 25)], between the first two
    buttons. *)
Definition world_missed : World :=
  mkWorld (heap world) (objects world)
    (Input.handle Input.mousedown (Input.handle (Input.mousemove 50 25 0 0) Input.new)).

End Menu.

(** ** Collision notifications *)

(** The event [prev] is a [checkCollision] call that answered true for the
    pair [self], [other], in either order. *)
Definition justifies (prev : option Event) (self other : nat) : bool :=
  match prev with
  | Some (EvCheck _ _ a b true) =>
      (Nat.eqb a self && Nat.eqb b other) || (Nat.eqb a other && Nat.eqb b self)
  | _ => false
  end.

(** Every [onCollision] call of the trace comes directly after a
    [checkCollision] call that answered true for its pair; [prev] is the
    event before the trace. *)
Fixpoint justified (prev : option Event) (tr : list Event) : bool :=
  match tr with
  | [] => true
  | e :: tr' =>
      match e with
      | EvOnCollision self other => justifies prev self other
      | _ => true
      end && justified (Some e) tr'
  end.

(** The [onCollision] calls of a trace: receiver and argument. *)
Definition notification (e : Event) : option (nat * nat) :=
  match e with
  | EvOnCollision self other => Some (self, other)
  | _ => None
  end.

Definition notifications (tr : list Event) : list (nat * nat) :=
  omap notification tr.

(** A trace whose [onCollision] calls are justified whatever comes
    before it. *)
Definition self_justified (tr : list Event) : Prop :=
  forall prev, justified prev tr = true.

(** ** Malformed shapes *)

(** The object with its radius negated. *)
Definition flip_radius (o : Obj) : Obj :=
  mkObj (class_of o) (x o) (y o) (vx o) (vy o) (width o) (height o)
    (Some (- JS.ToNumber (radius o))%float) (color o) (text o) (font o) (label o).

(** [checkCollision] on the objects at two addresses. *)
Definition collides (w : World) (a b : nat) : bool :=
  checkCollision (heap w !!! a) (heap w !!! b).

(** Whether the object at [o] has an [onCollision] in the world [w]. *)
Definition listens (H : Hooks) (w : World) (o : nat) : bool :=
  match onCollision H o w with
  | Some _ => true
  | None => false
  end.

(** [w] has the list of [w0], the same collisions and an [onCollision] on
    the same objects. *)
Definition same_scene (H : Hooks) (w0 w : World) : Prop :=
  objects w = objects w0 /\
  (forall a b, collides w a b = collides w0 a b) /\
  (forall o, listens H w o = listens H w0 o).

(** Collision handlers that leave the scene as it is: no [onCollision]
    changes the list, whether two objects collide, or which objects have
    an [onCollision].  Nothing is asked of the [update] functions and the
    callbacks. *)
Definition steady (H : Hooks) : Prop :=
  forall o w f other, onCollision H o w = Some f -> same_scene H w (f other w).

(** The notifications due for the pair of indices [p] of the list [l]:
    when the two objects collide in [w], each one that listens is told of
    the other, the one earlier in the list first. *)
Definition notify (listens : nat -> bool) (w : World) (l : list nat)
    (p : nat * nat) : list (nat * nat) :=
  let a := l !!! p.1 in
  let b := l !!! p.2 in
  if collides w a b
  then (if listens a then [(a, b)] else []) ++ (if listens b then [(b, a)] else [])
  else [].

Definition expected_notifications (listens : nat -> bool) (w : World)
    : list (nat * nat) :=
  pairs (length (objects w)) ≫= notify listens w (objects w).

(** ** The frame of the example *)

(** The example replaces [engine.update] by a function that checks each
    pair once, calls both handlers under that one check, and at the end
    turns the rectangle red when it does not touch the circle. *)
Module DemoFrame.

Section Replaced.

Variable H : Hooks.

(** The body of the inner loop of the replacement. *)
Definition collide_pair_once (i j : nat) : M unit :=
  w ← get;
  match objects w !! i, objects w !! j return M unit with
  | Some a, Some b =>
      c ← call_checkCollision i j a b;
      if c : bool
      then call_onCollision H a b;; call_onCollision H b a
      else mret tt
  | _, _ => mret tt
  end.

Fixpoint inner_loop_once (fuel : nat) (i j : nat) : M unit :=
  match fuel with
  | O => out_of_fuel
  | S fuel' =>
      w ← get;
      if j <? length (objects w) then
        collide_pair_once i j;; inner_loop_once fuel' i (S j)
      else mret tt
  end.

Fixpoint outer_loop_once (fuel : nat) (i : nat) : M unit :=
  match fuel with
  | O => out_of_fuel
  | S fuel' =>
      w ← get;
      if i <? length (objects w) then
        inner_loop_once fuel' i (S i);; outer_loop_once fuel' (S i)
      else mret tt
  end.

(** [engine.update = function (dt) ...].  The last [checkCollision] is on
    the example's rectangle and circle; it is made outside the loops and
    is not recorded in the trace. *)
Definition update (fuel : nat) (dt : float) : M unit :=
  update_loop H fuel dt 0;;
  outer_loop_once fuel 0;;
  w ← get;
  if negb (checkCollision (heap w !!! Demo.rect) (heap w !!! Demo.circle))
  then modify (Demo.assign Demo.rect (Demo.set_color "red"))
  else mret tt.

End Replaced.

(** The sprite, added when its image has loaded. *)
Definition sprite : nat := 4.

(** The world of the example with the rectangle at [(px, py)] in colour
    [col].  [loaded] tells whether the image has loaded: the sprite, of
    the size [iw] by [ih] of the image, is then the last of the list. *)
Definition world (px py : float) (col : string) (loaded : bool) (iw ih : float)
    (i : Input.state) : World :=
  mkWorld
    (<[Demo.rect := new_Rectangle px py 50 50 col]>
     (<[Demo.circle := new_Circle 200 150 25 "green"]>
      (<[Demo.infoText := new_Text 10 20 "Use arrow keys. Touch circle to turn blue."
                            "white"]>
       (<[Demo.button := new_Button 650 550 120 30 "Reset"]>
        (if loaded then {[sprite := new_Sprite 300 100 iw ih]} else ∅)))))
    ([Demo.rect; Demo.circle; Demo.infoText; Demo.button] ++
     if loaded then [sprite] else [])
    i.

(** Where the arrow keys held in [i] take the point [p] in one frame. *)
Definition moved (i : Input.state) (dt : float) (p : float * float) : float * float :=
  let x1 := if Input.isKeyDown i "ArrowRight" then (p.1 + 200 * dt)%float else p.1 in
  let x2 := if Input.isKeyDown i "ArrowLeft" then (x1 - 200 * dt)%float else x1 in
  let y1 := if Input.isKeyDown i "ArrowDown" then (p.2 + 200 * dt)%float else p.2 in
  let y2 := if Input.isKeyDown i "ArrowUp" then (y1 - 200 * dt)%float else y1 in
  (x2, y2).

(** A click is pending on the Reset button. *)
Definition reset_pressed (i : Input.state) : bool :=
  Input.wasMouseClicked i &&
  Input.isMouseInside i (new_Button 650 550 120 30 "Reset").

(** The rectangle at [(px, py)] touches the circle. *)
Definition touches (px py : float) : bool :=
  checkCollision (new_Rectangle px py 50 50 "red") (new_Circle 200 150 25 "green").

(** What a pair of the list does to the world under the handlers of the
    example: the rectangle turns blue when the pair is the rectangle and
    the circle and they collide. *)
Definition pair_effect (a b : nat) (w : World) : World :=
  if ((Nat.eqb a Demo.rect && Nat.eqb b Demo.circle) ||
      (Nat.eqb a Demo.circle && Nat.eqb b Demo.rect)) && collides w a b
  then Demo.assign Demo.rect (Demo.set_color "blue") w
  else w.

End DemoFrame.

(** A computation returns from [w] in the world [w']. *)
Definition lands {A} (m : M A) (w w' : World) : Prop :=
  exists a tr, m w = Some (a, w', tr).

(** ** Drawing *)

Module Canvas.

(** The calls made on the 2D context and the assignments to its
    [fillStyle] and [font], as the source makes them.  A [fillText]
    carries the [textAlign] and [textBaseline] in effect when it is made.
    What the host paints for a call is not modelled. *)
Inductive call : Type :=
  | set_fillStyle (v : option string)
  | set_font (v : option string)
  | clearRect (cx cy cw ch : float)
  | fillRect (cx cy : float) (cw ch : JS.value)
  | beginPath
  | arc (cx cy : float) (r : JS.value) (startAngle endAngle : float)
  | fill
  | fillText (t : option string) (cx cy : float) (align baseline : string)
  | drawImage (cx cy : float).

(** The canvas with its context: the size of the canvas, the alignment
    of text and the calls made so far, oldest first. *)
Record state : Type := mk {
  canvas_width : float;
  canvas_height : float;
  textAlign : string;
  textBaseline : string;
  log : list call;
}.

Definition emit (c : call) (cv : state) : state :=
  mk (canvas_width cv) (canvas_height cv) (textAlign cv) (textBaseline cv)
    (log cv ++ [c]).

Definition set_textAlign (v : string) (cv : state) : state :=
  mk (canvas_width cv) (canvas_height cv) v (textBaseline cv) (log cv).

Definition set_textBaseline (v : string) (cv : state) : state :=
  mk (canvas_width cv) (canvas_height cv) (textAlign cv) v (log cv).

(** [ctx.fillText(t, x, y)] *)
Definition do_fillText (t : option string) (cx cy : float) (cv : state) : state :=
  emit (fillText t cx cy (textAlign cv) (textBaseline cv)) cv.

End Canvas.

(** [Math.PI] *)
Definition Math_PI : float := 0x1.921fb54442d18p+1%float.

(** [Rectangle.prototype.draw] *)
Definition Rectangle_draw (this : Obj) (cv : Canvas.state) : Canvas.state :=
  Canvas.emit (Canvas.fillRect (x this) (y this) (width this) (height this))
    (Canvas.emit (Canvas.set_fillStyle (color this)) cv).

(** [Circle.prototype.draw] *)
Definition Circle_draw (this : Obj) (cv : Canvas.state) : Canvas.state :=
  Canvas.emit Canvas.fill
    (Canvas.emit (Canvas.arc (x this) (y this) (radius this) 0 (Math_PI * 2)%float)
       (Canvas.emit Canvas.beginPath
          (Canvas.emit (Canvas.set_fillStyle (color this)) cv))).

(** [Sprite.prototype.draw] *)
Definition Sprite_draw (this : Obj) (cv : Canvas.state) : Canvas.state :=
  Canvas.emit (Canvas.drawImage (x this) (y this)) cv.

(** [Text.prototype.draw] *)
Definition Text_draw (this : Obj) (cv : Canvas.state) : Canvas.state :=
  Canvas.do_fillText (text this) (x this) (y this)
    (Canvas.emit (Canvas.set_font (font this))
       (Canvas.emit (Canvas.set_fillStyle (color this)) cv)).

(** [Button.prototype.draw] *)
Definition Button_draw (this : Obj) (cv : Canvas.state) : Canvas.state :=
  let cv1 := Rectangle_draw this cv in
  let cv2 := Canvas.emit (Canvas.set_fillStyle (Some "white"%string)) cv1 in
  let cv3 := Canvas.emit (Canvas.set_font (Some "16px sans-serif"%string)) cv2 in
  let cv4 := Canvas.set_textAlign "center" cv3 in
  let cv5 := Canvas.set_textBaseline "middle" cv4 in
  let cv6 := Canvas.do_fillText (label this)
               (x this + JS.ToNumber (width this) / 2)%float
               (y this + JS.ToNumber (height this) / 2)%float cv5 in
  let cv7 := Canvas.set_textAlign "start" cv6 in
  Canvas.set_textBaseline "alphabetic" cv7.

(** [GameObject.prototype.draw] *)
Definition GameObject_draw (this : Obj) (cv : Canvas.state) : Canvas.state := cv.

(** The [draw] method of the class of an object. *)
Definition class_draw (this : Obj) : Canvas.state -> Canvas.state :=
  match class_of this with
  | GameObject => GameObject_draw this
  | Rectangle => Rectangle_draw this
  | Circle => Circle_draw this
  | Sprite => Sprite_draw this
  | Text => Text_draw this
  | Button => Button_draw this
  end.

(** [Engine.prototype.clear] *)
Definition Engine_clear (cv : Canvas.state) : Canvas.state :=
  Canvas.emit (Canvas.clearRect 0 0 (Canvas.canvas_width cv) (Canvas.canvas_height cv)) cv.

Section Drawing.

(** A [draw] assigned to an instance, as a function of the context. *)
Variable own_draw : nat -> World -> Slot (Canvas.state -> Canvas.state).

(** [if (obj.draw) obj.draw(this.ctx)] *)
Definition draw_object (w : World) (obj : nat) (cv : Canvas.state) : Canvas.state :=
  match own_draw obj w with
  | Fn f => f cv
  | Falsy => cv
  | Unset => class_draw (heap w !!! obj) cv
  end.

(** [Engine.prototype.draw], on the context. *)
Definition Engine_draw_on (w : World) (cv : Canvas.state) : Canvas.state :=
  fold_left (fun cv obj => draw_object w obj cv) (objects w) (Engine_clear cv).

End Drawing.

(** What is to be seen of one object: the calls that draw it, with the
    text of a Text left-aligned on its baseline and the label of a Button
    centred on the button. *)
Definition rendering (o : Obj) : list Canvas.call :=
  match class_of o with
  | GameObject => []
  | Rectangle =>
      [Canvas.set_fillStyle (color o);
       Canvas.fillRect (x o) (y o) (width o) (height o)]
  | Circle =>
      [Canvas.set_fillStyle (color o); Canvas.beginPath;
       Canvas.arc (x o) (y o) (radius o) 0 (Math_PI * 2)%float; Canvas.fill]
  | Sprite => [Canvas.drawImage (x o) (y o)]
  | Text =>
      [Canvas.set_fillStyle (color o); Canvas.set_font (font o);
       Canvas.fillText (text o) (x o) (y o) "start" "alphabetic"]
  | Button =>
      [Canvas.set_fillStyle (color o);
       Canvas.fillRect (x o) (y o) (width o) (height o);
       Canvas.set_fillStyle (Some "white"%string);
       Canvas.set_font (Some "16px sans-serif"%string);
       Canvas.fillText (label o)
         (x o + JS.ToNumber (width o) / 2)%float
         (y o + JS.ToNumber (height o) / 2)%float "center" "middle"]
  end.

(** No [draw] assigned to any instance. *)
Definition no_own_draw : nat -> World -> Slot (Canvas.state -> Canvas.state) :=
  fun _ _ => Unset.

(** ** The two collision loops compared *)

(** No collision handler changes whether two objects collide. *)
Definition collisions_kept (H : Hooks) : Prop :=
  forall o w f other a b,
    onCollision H o w = Some f -> collides (f other w) a b = collides w a b.

(** Two runs end alike: both run out of fuel, or both return, in the same
    world and after the same [onCollision] calls. *)
Definition agree (r1 r2 : option (unit * World * list Event)) : Prop :=
  match r1, r2 with
  | Some (_, w1, t1), Some (_, w2, t2) => w1 = w2 /\ notifications t1 = notifications t2
  | None, None => True
  | _, _ => False
  end.


(** A binary64 value that is zero, positive or NaN. *)
Definition not_negative (f : spec_float) : Prop :=
  match f with
  | S754_nan | S754_zero _ => True
  | S754_infinity s | S754_finite s _ _ => s = false
  end.

(** * Properties *)

Local Open Scope float_scope.

(** The scenario of the specification: the circle's centre lies inside the
    rectangle. *)
Example dispatch_rect_circle :
  checkCollision (new_Rectangle 10 10 20 20 "white") (new_Circle 15 15 5 "white") = true.
Proof. vm_compute. reflexivity. Qed.

(** ** Facts of binary64 arithmetic used below

    They are derived from the bit-level specification of the primitive
    operations ([SpecFloat]); none of them assumes exact arithmetic. *)

Module IEEE.

Lemma SFcompare_antisym (a b : spec_float) :
  SFcompare b a = option_map CompOpp (SFcompare a b).
Proof.
  destruct a as [[]|[]| |[] m1 e1], b as [[]|[]| |[] m2 e2]; simpl; try reflexivity.
  all: rewrite (Z.compare_antisym e1 e2); destruct (e1 ?= e2)%Z; simpl; try reflexivity.
  all: rewrite (Pos.compare_cont_antisym m1 m2 Eq); simpl;
    destruct (Pos.compare_cont Eq m1 m2); reflexivity.
Qed.

Lemma SFadd_comm (a b : spec_float) : SF64add a b = SF64add b a.
Proof.
  destruct a as [[]|[]| |s1 m1 e1], b as [[]|[]| |s2 m2 e2]; try reflexivity.
  cbv beta iota delta [SF64add SFadd]. rewrite (Z.min_comm e1 e2).
  f_equal. lia.
Qed.

(** Rounding does not look at the sign: the magnitude of a rounded result
    is the same for both signs. *)
Lemma SFabs_binary_round_aux s1 s2 m e l :
  SFabs (binary_round_aux prec emax s1 m e l) =
  SFabs (binary_round_aux prec emax s2 m e l).
Proof.
  unfold binary_round_aux.
  destruct (shr_fexp prec emax m e l) as [mrs' e'].
  destruct (shr_fexp prec emax _ e' loc_Exact) as [mrs'' e''].
  destruct (shr_m mrs''); try reflexivity.
  destruct (e'' <=? emax - prec)%Z; reflexivity.
Qed.

Lemma SFabs_binary_round s1 s2 m e :
  SFabs (binary_round prec emax s1 m e) = SFabs (binary_round prec emax s2 m e).
Proof.
  unfold binary_round. destruct (shl_align _ _ _) as [mz ez].
  apply SFabs_binary_round_aux.
Qed.

Lemma SFabs_binary_normalize_opp m e :
  SFabs (binary_normalize prec emax (- m)%Z e false) =
  SFabs (binary_normalize prec emax m e false).
Proof.
  destruct m; simpl; try reflexivity; apply SFabs_binary_round.
Qed.

Lemma SFabs_sub_swap (a b : spec_float) : SFabs (SF64sub a b) = SFabs (SF64sub b a).
Proof.
  destruct a as [[]|[]| |s1 m1 e1], b as [[]|[]| |s2 m2 e2]; try reflexivity.
  cbv beta iota delta [SF64sub SFsub]. rewrite (Z.min_comm e1 e2).
  rewrite <- SFabs_binary_normalize_opp. do 2 f_equal. lia.
Qed.

Lemma SFmul_abs (a : spec_float) : SF64mul a a = SF64mul (SFabs a) (SFabs a).
Proof. destruct a as [[]|[]| |[] m e]; reflexivity. Qed.

Lemma SFmul_sq_abs (a b : spec_float) :
  SFabs a = SFabs b -> SF64mul a a = SF64mul b b.
Proof. intros E. rewrite (SFmul_abs a), (SFmul_abs b), E. reflexivity. Qed.

Lemma SFcompare_add_zero (c a : spec_float) :
  SFcompare c (SF64add a (S754_zero false)) = SFcompare c a.
Proof.
  destruct a as [[]|[]| |s m e], c as [[]|[]| |s' m' e']; reflexivity.
Qed.

(** Addition commutes. *)
Lemma add_comm (a b : float) : a + b = b + a.
Proof. apply Prim2SF_inj. rewrite !add_spec. apply SFadd_comm. Qed.

(** The square of a difference does not depend on the order of the
    operands. *)
Lemma sub_sq_swap (a b : float) : (a - b) * (a - b) = (b - a) * (b - a).
Proof.
  apply Prim2SF_inj. rewrite !mul_spec, !sub_spec.
  apply SFmul_sq_abs, SFabs_sub_swap.
Qed.

(** Equal numbers are not strictly ordered, either way. *)
Lemma eqb_ltb_false (a b : float) :
  (a =? b) = true -> (a <? b) = false /\ (b <? a) = false.
Proof.
  rewrite FloatAxioms.eqb_spec, !FloatAxioms.ltb_spec. unfold SFeqb, SFltb.
  rewrite (SFcompare_antisym (Prim2SF a) (Prim2SF b)).
  destruct (SFcompare (Prim2SF a) (Prim2SF b)) as [[]|]; simpl;
    intros; try discriminate; auto.
Qed.

(** [b <= a && a <= b] is [a == b]. *)
Lemma leb_antisym_eqb (a b : float) : (b <=? a) && (a <=? b) = (a =? b).
Proof.
  rewrite FloatAxioms.eqb_spec, !FloatAxioms.leb_spec. unfold SFeqb, SFleb.
  rewrite (SFcompare_antisym (Prim2SF a) (Prim2SF b)).
  destruct (SFcompare (Prim2SF a) (Prim2SF b)) as [[]|]; reflexivity.
Qed.

(** Adding [0] does not change how a number compares. *)
Lemma leb_add_zero (c a : float) : (c <=? a + 0) = (c <=? a).
Proof.
  rewrite !FloatAxioms.leb_spec, add_spec. unfold SFleb.
  change (Prim2SF 0) with (S754_zero false).
  rewrite SFcompare_add_zero. reflexivity.
Qed.

Lemma SFcompare_refl (a : spec_float) :
  a <> S754_nan -> SFcompare a a = Some Eq.
Proof.
  destruct a as [[]|[]| |[] m e]; simpl; try congruence; intros _;
    rewrite Z.compare_refl, Pos.compare_cont_refl; reflexivity.
Qed.

Lemma SFcompare_total (a b : spec_float) :
  a <> S754_nan -> b <> S754_nan -> exists c, SFcompare a b = Some c.
Proof.
  destruct a as [[]|[]| |[] m1 e1], b as [[]|[]| |[] m2 e2]; simpl;
    try congruence; eauto.
Qed.

Lemma is_nan_false (a : float) : is_nan a = false <-> Prim2SF a <> S754_nan.
Proof.
  unfold is_nan. rewrite FloatAxioms.eqb_spec. unfold SFeqb. split.
  - intros E N. rewrite N in E. discriminate.
  - intros N. rewrite (SFcompare_refl _ N). reflexivity.
Qed.

(** A comparison that holds has two numbers as operands. *)
Lemma leb_true_not_nan (a b : float) :
  (a <=? b) = true -> is_nan a = false /\ is_nan b = false.
Proof.
  rewrite !is_nan_false, FloatAxioms.leb_spec. unfold SFleb.
  intros E; split; intros N; rewrite N in E;
    [|destruct (Prim2SF a)]; discriminate.
Qed.

(** Among numbers, [a < b] or [b <= a]. *)
Lemma not_ltb_leb (a b : float) :
  is_nan a = false -> is_nan b = false -> (a <? b) = false -> (b <=? a) = true.
Proof.
  rewrite !is_nan_false, FloatAxioms.ltb_spec, FloatAxioms.leb_spec.
  unfold SFltb, SFleb. intros Na Nb.
  rewrite (SFcompare_antisym (Prim2SF a) (Prim2SF b)).
  destruct (SFcompare_total _ _ Na Nb) as [c ->]. destruct c; simpl; congruence.
Qed.

Lemma ltb_leb (a b : float) : (a <? b) = true -> (a <=? b) = true.
Proof.
  rewrite FloatAxioms.ltb_spec, FloatAxioms.leb_spec. unfold SFltb, SFleb.
  destruct (SFcompare _ _) as [[]|]; congruence.
Qed.

Lemma leb_refl (a : float) : is_nan a = false -> (a <=? a) = true.
Proof.
  rewrite is_nan_false, FloatAxioms.leb_spec. unfold SFleb.
  intros N. rewrite (SFcompare_refl _ N). reflexivity.
Qed.

(** [Math.min] of two numbers is the one that is below the other. *)
Lemma Math_min_cases (a b : float) :
  is_nan a = false -> is_nan b = false ->
  (JS.Math_min a b = a /\ (a <=? b) = true) \/
  (JS.Math_min a b = b /\ (b <=? a) = true).
Proof.
  intros Na Nb. unfold JS.Math_min. rewrite Na, Nb. simpl.
  destruct (a <? b) eqn:Lab; [left; auto using ltb_leb|].
  destruct (b <? a) eqn:Lba; [right; auto using ltb_leb|].
  destruct (get_sign a); [left|right]; auto using not_ltb_leb.
Qed.

Lemma Math_max_cases (a b : float) :
  is_nan a = false -> is_nan b = false ->
  (JS.Math_max a b = b /\ (a <=? b) = true) \/
  (JS.Math_max a b = a /\ (b <=? a) = true).
Proof.
  intros Na Nb. unfold JS.Math_max. rewrite Na, Nb. simpl.
  destruct (a <? b) eqn:Lab; [left; auto using ltb_leb|].
  destruct (b <? a) eqn:Lba; [right; auto using ltb_leb|].
  destruct (get_sign a); [left|right]; auto using not_ltb_leb.
Qed.

(** Clamping a number to an interval gives a point of the interval. *)
Lemma clamp_in_bounds (v lo hi : float) :
  is_nan v = false -> (lo <=? hi) = true ->
  (lo <=? clamp v lo hi) = true /\ (clamp v lo hi <=? hi) = true.
Proof.
  intros Nv Hle. destruct (leb_true_not_nan _ _ Hle) as [Nlo Nhi]. unfold clamp.
  assert (is_nan (JS.Math_min v hi) = false /\ (JS.Math_min v hi <=? hi) = true)
    as [Nm Hm].
  { destruct (Math_min_cases v hi Nv Nhi) as [[-> L]|[-> L]];
      auto using leb_refl. }
  destruct (Math_max_cases lo _ Nlo Nm) as [[-> L]|[-> L]];
    auto using leb_refl.
Qed.

(** Numbers that compare equal are the same up to the sign of zero. *)
Lemma SFcompare_Eq_abs (a b : spec_float) :
  SFcompare a b = Some Eq -> SFabs a = SFabs b.
Proof.
  destruct a as [[]|[]| |[] m1 e1], b as [[]|[]| |[] m2 e2]; simpl;
    try discriminate; try reflexivity.
  all: destruct (e1 ?= e2)%Z eqn:Ee; try discriminate;
    apply Z.compare_eq in Ee; subst e2;
    destruct (Pos.compare_cont Eq m1 m2) eqn:Em; try discriminate;
    apply Pos.compare_eq in Em; subst m2; reflexivity.
Qed.

(** A square is never [-0]. *)
Lemma SFmul_sq_sign (a : spec_float) : SF64mul a a <> S754_zero true.
Proof.
  destruct a as [[]|[]| |s m e]; simpl; try discriminate.
  unfold SF64mul, SFmul, binary_round_aux. rewrite xorb_nilpotent.
  destruct (shr_fexp _ _ _ _ _) as [mrs' e'].
  destruct (shr_fexp _ _ _ e' _) as [mrs'' e''].
  destruct (shr_m mrs''); try discriminate.
  destruct (e'' <=? emax - prec)%Z; discriminate.
Qed.

Lemma SFmul_zero_sq (a : spec_float) :
  SFcompare a (S754_zero false) = Some Eq -> SF64mul a a = S754_zero false.
Proof.
  destruct a as [[]|[]| |[] m e]; simpl; try discriminate; reflexivity.
Qed.

Lemma SFadd_zero_r (a : spec_float) :
  a <> S754_zero true -> SF64add a (S754_zero false) = a.
Proof. destruct a as [[]|[]| |s m e]; simpl; congruence. Qed.

Lemma SFadd_zero_l (a : spec_float) :
  a <> S754_zero true -> SF64add (S754_zero false) a = a.
Proof. destruct a as [[]|[]| |s m e]; simpl; congruence. Qed.

Lemma ltb_irrefl (a : float) : (a <? a) = false.
Proof.
  rewrite FloatAxioms.ltb_spec. unfold SFltb.
  destruct (Prim2SF a) as [[]|[]| |[] m e]; simpl; try reflexivity;
    rewrite Z.compare_refl, Pos.compare_cont_refl; reflexivity.
Qed.

(** A square plus the square of zero is the square. *)
Lemma sq_add_sq_zero (a z : float) : (z =? 0) = true -> a * a + z * z = a * a.
Proof.
  rewrite FloatAxioms.eqb_spec. unfold SFeqb.
  change (Prim2SF 0) with (S754_zero false).
  intros E. apply Prim2SF_inj. rewrite add_spec, !mul_spec.
  rewrite (SFmul_zero_sq (Prim2SF z))
    by (destruct (SFcompare _ _) as [[]|]; congruence).
  apply SFadd_zero_r, SFmul_sq_sign.
Qed.

Lemma sq_zero_add_sq (a z : float) : (z =? 0) = true -> z * z + a * a = a * a.
Proof.
  rewrite FloatAxioms.eqb_spec. unfold SFeqb.
  change (Prim2SF 0) with (S754_zero false).
  intros E. apply Prim2SF_inj. rewrite add_spec, !mul_spec.
  rewrite (SFmul_zero_sq (Prim2SF z))
    by (destruct (SFcompare _ _) as [[]|]; congruence).
  apply SFadd_zero_l, SFmul_sq_sign.
Qed.

(** A number equal to the magnitude of another has the same square. *)
Lemma eqb_abs_sq (r d : float) : (r =? abs d) = true -> r * r = d * d.
Proof.
  rewrite FloatAxioms.eqb_spec, abs_spec. unfold SFeqb. intros E.
  apply Prim2SF_inj. rewrite !mul_spec. apply SFmul_sq_abs.
  destruct (SFcompare _ _) as [[]|] eqn:Ec; try discriminate.
  apply SFcompare_Eq_abs in Ec. rewrite Ec.
  destruct (Prim2SF d) as [[]|[]| |[] m e]; reflexivity.
Qed.

(** A square root is never negative. *)
Lemma SFsqrt_not_negative (a : spec_float) : not_negative (SF64sqrt a).
Proof.
  destruct a as [[]|[]| |[] m e]; simpl; try exact I; try reflexivity.
  unfold SF64sqrt, SFsqrt.
  destruct (SFsqrt_core_binary prec emax (Z.pos m) e) as [[mz ez] lz].
  unfold binary_round_aux.
  destruct (shr_fexp _ _ _ _ _) as [mrs' e'].
  destruct (shr_fexp _ _ _ e' _) as [mrs'' e''].
  destruct (shr_m mrs''); simpl; try exact I.
  destruct (e'' <=? emax - prec)%Z; reflexivity.
Qed.

Lemma SFcompare_above_not_negative (d s : spec_float) :
  not_negative d -> SFcompare d s = Some Lt ->
  SFcompare (S754_zero false) s = Some Lt.
Proof.
  destruct d as [[]|[]| |[] m1 e1], s as [[]|[]| |[] m2 e2]; simpl;
    intros N E; try discriminate; try reflexivity.
Qed.

(** What lies above a square root is positive. *)
Lemma sqrt_ltb_pos (a s : float) : (sqrt a <? s) = true -> (0 <? s) = true.
Proof.
  rewrite !FloatAxioms.ltb_spec, sqrt_spec. unfold SFltb.
  change (Prim2SF 0) with (S754_zero false).
  destruct (SFcompare (SF64sqrt _) _) as [[]|] eqn:E; try discriminate.
  rewrite (SFcompare_above_not_negative _ _ (SFsqrt_not_negative _) E).
  reflexivity.
Qed.

End IEEE.

(** ** Whole numbers in binary64

    Sums, differences and squares of whole numbers are exact as long as
    they stay below [2^53], comparisons of whole numbers are those of
    the integers, and the rounded square root of a whole number compares
    with a whole number below [2^26] as the exact root does.  The proofs
    work on the bit-level specification of the operations. *)

Module Whole.

Import Exact.

Local Open Scope Z_scope.

(** A positive number of [d] binary digits lies from [2^(d-1)] up to
    [2^d], and that fixes [d]. *)
Lemma digits_bounds (m : positive) :
  2 ^ (Zpos (digits2_pos m) - 1) <= Zpos m < 2 ^ Zpos (digits2_pos m).
Proof.
  induction m as [m IH|m IH|]; simpl digits2_pos.
  - rewrite Pos2Z.inj_succ, (Pos2Z.inj_xI m), Z.pow_succ_r by lia.
    replace (Z.succ (Zpos (digits2_pos m)) - 1) with (Z.succ (Zpos (digits2_pos m) - 1)) by lia.
    rewrite Z.pow_succ_r by lia. lia.
  - rewrite Pos2Z.inj_succ, (Pos2Z.inj_xO m), Z.pow_succ_r by lia.
    replace (Z.succ (Zpos (digits2_pos m)) - 1) with (Z.succ (Zpos (digits2_pos m) - 1)) by lia.
    rewrite Z.pow_succ_r by lia. lia.
  - simpl. lia.
Qed.

Lemma digits_unique (m : positive) (k : Z) :
  2 ^ (k - 1) <= Zpos m < 2 ^ k -> Zpos (digits2_pos m) = k.
Proof.
  intros [Hl Hu]. pose proof (digits_bounds m) as [Dl Du].
  assert (0 < k) as Hk.
  { destruct (Z.lt_trichotomy k 0) as [Hn|[->|Hp]]; [|simpl in Hu; lia|exact Hp].
    rewrite Z.pow_neg_r in Hu by exact Hn. lia. }
  assert (Zpos (digits2_pos m) - 1 < k) by (apply (Z.pow_lt_mono_r_iff 2); lia).
  assert (k - 1 < Zpos (digits2_pos m)) by (apply (Z.pow_lt_mono_r_iff 2); lia).
  lia.
Qed.

(** Appending [k] zero bits multiplies by [2^k] and adds [k] digits. *)
Lemma iter_xO_val (m k : positive) : Zpos (Pos.iter xO m k) = Zpos m * 2 ^ Zpos k.
Proof.
  induction k as [|k IH] using Pos.peano_ind.
  - simpl. lia.
  - rewrite Pos.iter_succ, (Pos2Z.inj_xO (Pos.iter xO m k)), IH, Pos2Z.inj_succ,
      Z.pow_succ_r by lia. lia.
Qed.

Lemma iter_xO_digits (m k : positive) :
  Zpos (digits2_pos (Pos.iter xO m k)) = Zpos (digits2_pos m) + Zpos k.
Proof.
  induction k as [|k IH] using Pos.peano_ind.
  - simpl. lia.
  - rewrite Pos.iter_succ. simpl digits2_pos. rewrite Pos2Z.inj_succ, IH. lia.
Qed.

(** Shifting right by [k] takes [k] appended zero bits away again and
    finds nothing to round. *)
Lemma iter_pos_iter {A} (f : A -> A) (p : positive) (a : A) :
  SpecFloat.iter_pos f p a = Pos.iter f a p.
Proof.
  revert a. induction p as [p IH|p IH|]; intros a; simpl.
  - rewrite !IH, <- !Pos.iter_swap. reflexivity.
  - rewrite !IH. reflexivity.
  - reflexivity.
Qed.

Lemma shr_trailing_zeros (m k : positive) :
  SpecFloat.iter_pos shr_1 k (Build_shr_record (Zpos (Pos.iter xO m k)) false false) =
  Build_shr_record (Zpos m) false false.
Proof.
  rewrite iter_pos_iter.
  induction k as [|k IH] using Pos.peano_ind.
  - reflexivity.
  - rewrite Pos.iter_succ_r, Pos.iter_succ. simpl shr_1. exact IH.
Qed.

(** A number with a canonical form [(m, e)] rounds to it, however many
    zero bits follow [m] in the mantissa given. *)
Lemma round_aux_exact (s : bool) (M m : positive) (e k : Z) :
  bounded prec emax m e = true -> 0 <= k -> Zpos M = Zpos m * 2 ^ k ->
  binary_round_aux prec emax s (Zpos M) (e - k) loc_Exact = S754_finite s m e.
Proof.
  intros Hb Hk HM.
  apply andb_prop in Hb as [Hc He]. unfold canonical_mantissa in Hc.
  apply Z.eqb_eq in Hc.
  assert (shr_fexp prec emax (Zpos m) e loc_Exact =
          (Build_shr_record (Zpos m) false false, e)) as E2.
  { unfold shr_fexp. simpl Zdigits2. rewrite Hc, Z.sub_diag. reflexivity. }
  assert (shr_fexp prec emax (Zpos M) (e - k) loc_Exact =
          (Build_shr_record (Zpos m) false false, e)) as E1.
  { destruct k as [|p|p]; [| |lia].
    - rewrite Z.mul_1_r in HM. injection HM as ->. rewrite Z.sub_0_r. exact E2.
    - rewrite <- iter_xO_val in HM. injection HM as ->.
      unfold shr_fexp. simpl Zdigits2. rewrite iter_xO_digits.
      replace (Zpos (digits2_pos m) + Zpos p + (e - Zpos p))
        with (Zpos (digits2_pos m) + e) by lia.
      rewrite Hc. replace (e - (e - Zpos p)) with (Zpos p) by lia.
      simpl shr_record_of_loc. unfold shr. rewrite shr_trailing_zeros.
      f_equal. lia. }
  unfold binary_round_aux. rewrite E1. simpl shr_m. simpl loc_of_shr_record.
  simpl round_nearest_even. rewrite E2. simpl shr_m. rewrite He. reflexivity.
Qed.

(** Two forms of one value have the same number of digits above the
    binary point; [T] only makes the exponents non-negative. *)
Lemma scaled_bounds (m : positive) (t : Z) :
  0 <= t ->
  2 ^ (Zpos (digits2_pos m) - 1 + t) <= Zpos m * 2 ^ t < 2 ^ (Zpos (digits2_pos m) + t).
Proof.
  intros Ht. pose proof (digits_bounds m) as [Hl Hu].
  assert (0 < 2 ^ t) by (apply Z.pow_pos_nonneg; lia).
  rewrite !Z.pow_add_r by lia. nia.
Qed.

Lemma same_value_same_magnitude (M m : positive) (E e T : Z) :
  0 <= E + T -> 0 <= e + T ->
  Zpos M * 2 ^ (E + T) = Zpos m * 2 ^ (e + T) ->
  Zpos (digits2_pos M) + E = Zpos (digits2_pos m) + e.
Proof.
  intros HE He HV.
  pose proof (scaled_bounds M (E + T) HE) as [Ml Mu].
  pose proof (scaled_bounds m (e + T) He) as [ml mu].
  rewrite HV in Ml, Mu.
  assert (Zpos (digits2_pos M) - 1 + (E + T) < Zpos (digits2_pos m) + (e + T))
    by (apply (Z.pow_lt_mono_r_iff 2); lia).
  assert (Zpos (digits2_pos m) - 1 + (e + T) < Zpos (digits2_pos M) + (E + T))
    by (apply (Z.pow_lt_mono_r_iff 2); lia).
  lia.
Qed.

(** [binary_round] aligns the mantissa first: a value with a canonical
    form rounds to it from any form. *)
Lemma round_exact (s : bool) (M m : positive) (E e T : Z) :
  bounded prec emax m e = true -> 0 <= E + T -> 0 <= e + T ->
  Zpos M * 2 ^ (E + T) = Zpos m * 2 ^ (e + T) ->
  binary_round prec emax s M E = S754_finite s m e.
Proof.
  intros Hb HE He HV.
  pose proof (same_value_same_magnitude M m E e T HE He HV) as Hd.
  pose proof Hb as Hb'. apply andb_prop in Hb' as [Hc _].
  unfold canonical_mantissa in Hc. apply Z.eqb_eq in Hc.
  assert (0 < 2 ^ (E + T)) by (apply Z.pow_pos_nonneg; lia).
  assert (0 < 2 ^ (e + T)) by (apply Z.pow_pos_nonneg; lia).
  unfold binary_round. rewrite Hd, Hc. unfold shl_align.
  destruct (e - E) as [|d|d] eqn:Ed.
  - assert (E = e) as -> by lia.
    assert (M = m) as -> by (apply Pos2Z.inj; nia).
    rewrite <- (Z.sub_0_r e) at 1. apply round_aux_exact; [exact Hb|lia|lia].
  - replace E with (e - Zpos d) by lia. apply round_aux_exact; [exact Hb|lia|].
    replace (e + T) with (Zpos d + (E + T)) in HV by lia.
    rewrite (Z.pow_add_r 2 (Zpos d) (E + T)) in HV by lia. nia.
  - assert (Pos.iter xO M d = m) as ->.
    { apply Pos2Z.inj. rewrite iter_xO_val.
      replace (E + T) with (Zpos d + (e + T)) in HV by lia.
      rewrite (Z.pow_add_r 2 (Zpos d) (e + T)) in HV by lia. nia. }
    rewrite <- (Z.sub_0_r e) at 1. apply round_aux_exact; [exact Hb|lia|lia].
Qed.

(** The canonical form of a whole number below [2^53]: [mant] has 53
    digits and the value of the number. *)
Lemma small_digits (p : positive) : small (Zpos p) -> 1 <= Zpos (digits2_pos p) <= 53.
Proof.
  unfold small. simpl Z.abs. intros Hp. pose proof (digits_bounds p) as [Hl _].
  assert (Zpos (digits2_pos p) - 1 < 53) by (apply (Z.pow_lt_mono_r_iff 2); lia).
  lia.
Qed.

Lemma mant_val (p : positive) :
  small (Zpos p) -> Zpos (mant p) = Zpos p * 2 ^ (53 - Zpos (digits2_pos p)).
Proof.
  intros Hp%small_digits. unfold mant.
  destruct (53 - Zpos (digits2_pos p)) as [|k|k] eqn:E; [simpl; lia| |lia].
  apply iter_xO_val.
Qed.

Lemma mant_digits (p : positive) :
  small (Zpos p) -> Zpos (digits2_pos (mant p)) = 53.
Proof.
  intros Hp%small_digits. unfold mant.
  destruct (53 - Zpos (digits2_pos p)) as [|k|k] eqn:E; [lia| |lia].
  rewrite iter_xO_digits. lia.
Qed.

Lemma expo_range (p : positive) : small (Zpos p) -> -52 <= expo p <= 0.
Proof. intros Hp%small_digits. unfold expo. lia. Qed.

Lemma mant_bounded (p : positive) :
  small (Zpos p) -> bounded prec emax (mant p) (expo p) = true.
Proof.
  intros Hp. pose proof (expo_range p Hp). unfold bounded, canonical_mantissa.
  rewrite (mant_digits p Hp). unfold fexp, SpecFloat.emin, prec, emax.
  apply andb_true_intro. split; [apply Z.eqb_eq|apply Z.leb_le]; lia.
Qed.

(** The value of the canonical form, scaled by [2^53]. *)
Lemma mant_scaled (p : positive) :
  small (Zpos p) -> Zpos (mant p) * 2 ^ (expo p + 53) = Zpos p * 2 ^ 53.
Proof.
  intros Hp. pose proof (small_digits p Hp). rewrite (mant_val p Hp). unfold expo.
  rewrite <- Z.mul_assoc, <- Z.pow_add_r by lia. f_equal. f_equal. lia.
Qed.

(** Whole numbers below [2^53] are binary64 numbers. *)
Lemma round_whole (s : bool) (p : positive) :
  small (Zpos p) -> binary_round prec emax s p 0 = S754_finite s (mant p) (expo p).
Proof.
  intros Hp. pose proof (expo_range p Hp).
  apply (round_exact s p (mant p) 0 (expo p) 53); [apply mant_bounded, Hp|lia|lia|].
  symmetry. apply mant_scaled, Hp.
Qed.

Lemma F_pos (p : positive) :
  small (Zpos p) -> F (Zpos p) = S754_finite false (mant p) (expo p).
Proof. apply round_whole. Qed.

Lemma F_neg (p : positive) :
  small (Zpos p) -> F (Zneg p) = S754_finite true (mant p) (expo p).
Proof. apply round_whole. Qed.

Lemma F_valid (n : Z) : small n -> valid_binary (F n) = true.
Proof.
  destruct n as [|p|p]; intros Hn; [reflexivity| |].
  - rewrite (F_pos p Hn). apply mant_bounded, Hn.
  - rewrite (F_neg p Hn). apply mant_bounded, Hn.
Qed.

Lemma Prim2SF_of_Z (n : Z) : small n -> Prim2SF (of_Z n) = F n.
Proof. intros Hn. apply Prim2SF_SF2Prim, F_valid, Hn. Qed.

(** A sum or difference worked out at the exponent [ez] and normalised. *)
Lemma normalize_whole (sigma c ez : Z) :
  -52 <= ez <= 0 -> small c -> sigma = c * 2 ^ (- ez) ->
  binary_normalize prec emax sigma ez false = F c.
Proof.
  intros Hez Hc ->.
  assert (0 < 2 ^ (- ez)) by (apply Z.pow_pos_nonneg; lia).
  destruct c as [|c|c].
  - reflexivity.
  - destruct (Zpos c * 2 ^ (- ez)) as [|P|P] eqn:EP; [lia| |lia].
    rewrite (F_pos c Hc). simpl binary_normalize. pose proof (expo_range c Hc).
    apply (round_exact false P (mant c) ez (expo c) 53); [apply mant_bounded, Hc|lia|lia|].
    rewrite (mant_scaled c Hc), <- EP, <- Z.mul_assoc, <- Z.pow_add_r by lia.
    f_equal. f_equal. lia.
  - destruct (Zneg c * 2 ^ (- ez)) as [|P|P] eqn:EP; [lia|lia|].
    rewrite (F_neg c Hc). simpl binary_normalize. pose proof (expo_range c Hc).
    apply (round_exact true P (mant c) ez (expo c) 53); [apply mant_bounded, Hc|lia|lia|].
    assert (Zpos P = Zpos c * 2 ^ (- ez)) as -> by lia.
    rewrite (mant_scaled c Hc), <- Z.mul_assoc, <- Z.pow_add_r by lia.
    f_equal. f_equal. lia.
Qed.

(** Aligning a mantissa to a lower exponent keeps the value. *)
Lemma shl_align_val (mx : positive) (ex ez : Z) :
  ez <= ex -> Zpos (fst (shl_align mx ex ez)) = Zpos mx * 2 ^ (ex - ez).
Proof.
  intros Hez. unfold shl_align.
  destruct (ez - ex) as [|d|d] eqn:E; [|lia|].
  - replace (ex - ez) with 0 by lia. simpl. lia.
  - simpl fst. rewrite iter_xO_val. f_equal. f_equal. lia.
Qed.

(** A whole number's canonical mantissa, aligned to the exponent [ez]. *)
Lemma aligned_whole (p : positive) (ez : Z) :
  small (Zpos p) -> ez <= expo p ->
  Zpos (fst (shl_align (mant p) (expo p) ez)) = Zpos p * 2 ^ (- ez).
Proof.
  intros Hp Hez. pose proof (small_digits p Hp). pose proof (expo_range p Hp).
  rewrite shl_align_val by exact Hez. rewrite (mant_val p Hp).
  rewrite <- Z.mul_assoc, <- Z.pow_add_r by lia. f_equal. f_equal. unfold expo. lia.
Qed.


Ltac whole_forms :=
  repeat match goal with
  | H : small (Zneg ?p) |- _ => change (small (Zpos p)) in H
  end;
  repeat match goal with
  | H : small (Zpos ?p) |- context [F (Zpos ?p)] => rewrite (F_pos p H)
  | H : small (Zpos ?p) |- context [F (Zneg ?p)] => rewrite (F_neg p H)
  end;
  repeat match goal with
  | H : small (Zpos ?p) |- _ =>
      lazymatch goal with
      | _ : -52 <= expo p <= 0 |- _ => fail
      | _ => pose proof (expo_range p H)
      end
  end.

(** Sums and differences of whole numbers are exact while they stay
    below [2^53]. *)
Lemma SFadd_whole (a b : Z) :
  small a -> small b -> small (a + b) -> SF64add (F a) (F b) = F (a + b).
Proof.
  intros Ha Hb Hc. unfold SF64add.
  destruct a as [|a|a], b as [|b|b]; try reflexivity;
    try (rewrite ?Z.add_0_l, ?Z.add_0_r, ?Z.sub_0_l, ?Z.sub_0_r, ?Pos2Z.opp_pos,
           ?Pos2Z.opp_neg; whole_forms; reflexivity);
    whole_forms;
    unfold SFadd; apply normalize_whole; try exact Hc; try lia;
    rewrite !aligned_whole by (assumption || lia); simpl cond_Zopp; lia.
Qed.

Lemma SFsub_whole (a b : Z) :
  small a -> small b -> small (a - b) -> SF64sub (F a) (F b) = F (a - b).
Proof.
  intros Ha Hb Hc. unfold SF64sub.
  destruct a as [|a|a], b as [|b|b]; try reflexivity;
    try (rewrite ?Z.add_0_l, ?Z.add_0_r, ?Z.sub_0_l, ?Z.sub_0_r, ?Pos2Z.opp_pos,
           ?Pos2Z.opp_neg; whole_forms; reflexivity);
    whole_forms;
    unfold SFsub; apply normalize_whole; try exact Hc; try lia;
    rewrite !aligned_whole by (assumption || lia); simpl cond_Zopp; lia.
Qed.

(** So are squares. *)
Lemma small_square_digits (p : positive) :
  small (Zpos p * Zpos p) -> Zpos (digits2_pos p) <= 27.
Proof.
  unfold small. intros Hp. pose proof (digits_bounds p) as [Hl _].
  assert (2 ^ (Zpos (digits2_pos p) - 1 + (Zpos (digits2_pos p) - 1)) < 2 ^ 53) as Hlt.
  { rewrite Z.pow_add_r by lia. nia. }
  apply (Z.pow_lt_mono_r_iff 2) in Hlt; lia.
Qed.

Lemma small_square_small (p : positive) : small (Zpos p * Zpos p) -> small (Zpos p).
Proof. unfold small. intros Hp. nia. Qed.

Lemma round_aux_square (s : bool) (p : positive) :
  small (Zpos (p * p)) ->
  binary_round_aux prec emax s (Zpos (mant p * mant p)) (expo p + expo p) loc_Exact =
  S754_finite s (mant (p * p)) (expo (p * p)).
Proof.
  intros Hc. pose proof (small_square_small p Hc) as Hp.
  pose proof (small_square_digits p Hc) as Hd.
  pose proof (small_digits p Hp) as Hd1. pose proof (small_digits (p * p) Hc) as Hd2.
  replace (expo p + expo p) with (expo (p * p) - (expo (p * p) - 2 * expo p))
    by lia.
  apply round_aux_exact; [apply mant_bounded, Hc|unfold expo; lia|].
  rewrite Pos2Z.inj_mul, (mant_val p Hp), (mant_val (p * p) Hc), Pos2Z.inj_mul.
  rewrite <- (Z.mul_assoc (Zpos p * Zpos p)), <- Z.pow_add_r by (unfold expo; lia).
  replace (53 - Zpos (digits2_pos (p * p)) + (expo (p * p) - 2 * expo p))
    with ((53 - Zpos (digits2_pos p)) + (53 - Zpos (digits2_pos p)))
    by (unfold expo; lia).
  rewrite Z.pow_add_r by lia. ring.
Qed.

Lemma SFmul_whole_square (a : Z) :
  small (a * a) -> SF64mul (F a) (F a) = F (a * a).
Proof.
  intros Hc. unfold SF64mul. destruct a as [|p|p]; [reflexivity| |].
  - change (Zpos p * Zpos p) with (Zpos (p * p)) in *.
    rewrite (F_pos p (small_square_small p Hc)), (F_pos (p * p) Hc).
    apply round_aux_square, Hc.
  - change (Zneg p * Zneg p) with (Zpos (p * p)) in *.
    rewrite (F_neg p (small_square_small p Hc)), (F_pos (p * p) Hc).
    apply round_aux_square, Hc.
Qed.

(** Comparison looks at the exponents first and then at the mantissas;
    for mantissas of 53 digits that is the order of the values. *)
Lemma pow2_step (u v : Z) : 0 <= u < v -> 0 < 2 ^ u /\ 2 * 2 ^ u <= 2 ^ v.
Proof.
  intros H. split; [apply Z.pow_pos_nonneg; lia|].
  rewrite <- Z.pow_succ_r by lia. apply Z.pow_le_mono_r; lia.
Qed.

Lemma full_mantissa (m : positive) :
  Zpos (digits2_pos m) = 53 -> 2 ^ 52 <= Zpos m < 2 ^ 53.
Proof. intros E. pose proof (digits_bounds m) as H. rewrite E in H. exact H. Qed.

Lemma compare_normal (m1 m2 : positive) (e1 e2 T : Z) :
  Zpos (digits2_pos m1) = 53 -> Zpos (digits2_pos m2) = 53 ->
  0 <= e1 + T -> 0 <= e2 + T ->
  match (e1 ?= e2) with
  | Lt => Lt
  | Gt => Gt
  | Eq => Pos.compare_cont Eq m1 m2
  end = (Zpos m1 * 2 ^ (e1 + T) ?= Zpos m2 * 2 ^ (e2 + T)).
Proof.
  intros H1%full_mantissa H2%full_mantissa He1 He2. symmetry.
  destruct (Z.compare_spec e1 e2) as [->|Hlt|Hgt].
  - rewrite <- Zmult_compare_compat_r by (apply Z.lt_gt, Z.pow_pos_nonneg; lia).
    reflexivity.
  - apply Z.compare_lt_iff.
    pose proof (pow2_step (e1 + T) (e2 + T)). nia.
  - apply Z.compare_gt_iff.
    pose proof (pow2_step (e2 + T) (e1 + T)). nia.
Qed.

Lemma compare_normal_opp (m1 m2 : positive) (e1 e2 T : Z) :
  Zpos (digits2_pos m1) = 53 -> Zpos (digits2_pos m2) = 53 ->
  0 <= e1 + T -> 0 <= e2 + T ->
  match (e1 ?= e2) with
  | Lt => Gt
  | Gt => Lt
  | Eq => CompOpp (Pos.compare_cont Eq m1 m2)
  end = (Zpos m2 * 2 ^ (e2 + T) ?= Zpos m1 * 2 ^ (e1 + T)).
Proof.
  intros H1 H2 He1 He2.
  rewrite (Z.compare_antisym (Zpos m1 * 2 ^ (e1 + T))),
    <- (compare_normal m1 m2 e1 e2 T H1 H2 He1 He2).
  destruct (e1 ?= e2); reflexivity.
Qed.

(** Whole numbers compare as the integers do. *)
Lemma SFcompare_whole (a b : Z) :
  small a -> small b -> SFcompare (F a) (F b) = Some (a ?= b).
Proof.
  intros Ha Hb.
  destruct a as [|a|a], b as [|b|b]; try reflexivity; whole_forms; try reflexivity;
    unfold SFcompare; f_equal.
  - transitivity (Zpos (mant a) * 2 ^ (expo a + 53) ?= Zpos (mant b) * 2 ^ (expo b + 53)).
    + apply compare_normal; rewrite ?mant_digits by assumption; lia.
    + rewrite !mant_scaled by assumption.
      symmetry. apply Zmult_compare_compat_r. lia.
  - transitivity (Zpos (mant b) * 2 ^ (expo b + 53) ?= Zpos (mant a) * 2 ^ (expo a + 53)).
    + apply compare_normal_opp; rewrite ?mant_digits by assumption; lia.
    + rewrite !mant_scaled by assumption.
      rewrite <- Zmult_compare_compat_r by lia.
      rewrite <- Pos2Z.inj_compare.
      change (Zneg a ?= Zneg b) with (CompOpp (a ?= b)%positive).
      apply Pos.compare_antisym.
Qed.

(** The same facts on the primitive operations. *)
Lemma ltb_whole (a b : Z) :
  small a -> small b -> (of_Z a <? of_Z b)%float = (a <? b).
Proof.
  intros Ha Hb. rewrite FloatAxioms.ltb_spec, !Prim2SF_of_Z by assumption.
  unfold SFltb. rewrite (SFcompare_whole a b Ha Hb). reflexivity.
Qed.

Lemma leb_whole (a b : Z) :
  small a -> small b -> (of_Z a <=? of_Z b)%float = (a <=? b).
Proof.
  intros Ha Hb. rewrite FloatAxioms.leb_spec, !Prim2SF_of_Z by assumption.
  unfold SFleb. rewrite (SFcompare_whole a b Ha Hb). unfold Z.leb.
  destruct (a ?= b); reflexivity.
Qed.

Lemma eqb_whole (a b : Z) :
  small a -> small b -> (of_Z a =? of_Z b)%float = (a =? b).
Proof.
  intros Ha Hb. rewrite FloatAxioms.eqb_spec, !Prim2SF_of_Z by assumption.
  unfold SFeqb. rewrite (SFcompare_whole a b Ha Hb).
  destruct (Z.compare_spec a b) as [->|H|H]; symmetry;
    [apply Z.eqb_refl|apply Z.eqb_neq; lia|apply Z.eqb_neq; lia].
Qed.

Lemma add_whole (a b : Z) :
  small a -> small b -> small (a + b) -> (of_Z a + of_Z b)%float = of_Z (a + b).
Proof.
  intros Ha Hb Hc. apply Prim2SF_inj.
  rewrite add_spec, !Prim2SF_of_Z by assumption. apply SFadd_whole; assumption.
Qed.

Lemma sub_whole (a b : Z) :
  small a -> small b -> small (a - b) -> (of_Z a - of_Z b)%float = of_Z (a - b).
Proof.
  intros Ha Hb Hc. apply Prim2SF_inj.
  rewrite sub_spec, !Prim2SF_of_Z by assumption. apply SFsub_whole; assumption.
Qed.

Lemma small_of_square (a : Z) : small (a * a) -> small a.
Proof. unfold small. intros H. nia. Qed.

Lemma square_whole (a : Z) :
  small (a * a) -> (of_Z a * of_Z a)%float = of_Z (a * a).
Proof.
  intros Hc. pose proof (small_of_square a Hc). apply Prim2SF_inj.
  rewrite mul_spec, !Prim2SF_of_Z by assumption. apply SFmul_whole_square, Hc.
Qed.


(** Rounding a 53-digit mantissa to nearest leaves the exponent alone. *)
Lemma round_aux_full (s : bool) (q : positive) (e : Z) (l : location) :
  Zpos (digits2_pos q) = 53 -> -1074 <= e <= 971 ->
  l <> loc_Inexact Eq -> (l = loc_Inexact Gt -> Zpos q + 1 < 2 ^ 53) ->
  binary_round_aux prec emax s (Zpos q) e l =
  S754_finite s (Z.to_pos (round_nearest_even (Zpos q) l)) e.
Proof.
  intros Hd He Hl Hq.
  assert (forall q', Zpos (digits2_pos q') = 53 -> forall l',
            shr_fexp prec emax (Zpos q') e l' = (shr_record_of_loc (Zpos q') l', e)) as Hshr.
  { intros q' Hd' l'. unfold shr_fexp. simpl Zdigits2. rewrite Hd'.
    unfold fexp, SpecFloat.emin, prec, emax.
    replace (Z.max (53 + e - 53) (3 - 1024 - 53) - e) with 0 by lia. reflexivity. }
  assert (Z.leb e (emax - prec) = true) as Hle by (apply Z.leb_le; unfold emax, prec; lia).
  unfold binary_round_aux. rewrite (Hshr q Hd).
  assert (loc_of_shr_record (shr_record_of_loc (Zpos q) l) = l) as ->
    by (destruct l as [|[]]; reflexivity).
  assert (shr_m (shr_record_of_loc (Zpos q) l) = Zpos q) as ->
    by (destruct l as [|[]]; reflexivity).
  destruct l as [|[]]; [| congruence | |]; simpl round_nearest_even.
  - rewrite (Hshr q Hd). simpl. rewrite Hle. reflexivity.
  - rewrite (Hshr q Hd). simpl. rewrite Hle. reflexivity.
  - specialize (Hq eq_refl). change (Zpos q + 1) with (Zpos (q + 1)) in *.
    assert (Zpos (digits2_pos (q + 1)) = 53) as Hd'.
    { apply digits_unique. apply full_mantissa in Hd. lia. }
    rewrite (Hshr (q + 1)%positive Hd'). simpl. rewrite Hle. reflexivity.
Qed.

(** The square root of a positive whole number [p]: for some [K] from 26
    to 52 it is [q * 2^-K], where [q] is the integer square root [q0] of
    [p * 4^K], or [q0 + 1] when the remainder is above [q0]. *)
Lemma sqrt_whole_form (p : positive) :
  small (Zpos p) ->
  exists (q : positive) (K q0 r : Z),
    SF64sqrt (S754_finite false (mant p) (expo p)) = S754_finite false q (- K) /\
    Zpos (digits2_pos q) = 53 /\ 26 <= K <= 52 /\
    Zpos p * (2 ^ K * 2 ^ K) = q0 * q0 + r /\ 0 <= r <= 2 * q0 /\ 0 <= q0 /\
    Zpos q = (if r <=? q0 then q0 else q0 + 1).
Proof.
  intros Hp. pose proof (small_digits p Hp) as Hd.
  set (K := 53 - (Zpos (digits2_pos p) + 1) / 2).
  assert (26 <= K <= 52) as HK by (subst K; Z.div_mod_to_equations; lia).
  unfold SF64sqrt, SFsqrt, SFsqrt_core_binary. simpl Zdigits2.
  rewrite (mant_digits p Hp).
  assert (Z.min (fexp prec emax (Z.div2 (53 + expo p + 1))) (Z.div2 (expo p)) = - K) as ->.
  { rewrite !Z.div2_div. unfold fexp, SpecFloat.emin, prec, emax, expo. subst K.
    Z.div_mod_to_equations. lia. }
  assert (expo p - 2 * - K = 52 \/ expo p - 2 * - K = 53) as Hsh
    by (unfold expo; subst K; Z.div_mod_to_equations; lia).
  pose proof (full_mantissa (mant p) (mant_digits p Hp)) as Hm.
  set (m' := match expo p - 2 * - K with
             | 0 => Z.pos (mant p)
             | Z.pos _ => Z.shiftl (Z.pos (mant p)) (expo p - 2 * - K)
             | Z.neg _ => 0
             end).
  assert (m' = Zpos (mant p) * 2 ^ (expo p - 2 * - K)) as Hm'.
  { subst m'. destruct (expo p - 2 * - K) as [|sh|sh] eqn:E; [lia| |lia].
    apply Z.shiftl_mul_pow2. lia. }
  assert (m' = Zpos p * (2 ^ K * 2 ^ K)) as Hval.
  { rewrite Hm', (mant_val p Hp), <- Z.mul_assoc, <- !Z.pow_add_r by lia.
    f_equal. f_equal. unfold expo. lia. }
  assert (2 ^ 52 * 2 ^ 52 <= m' <= (2 ^ 53 - 1) * 2 ^ 53) as Hrange.
  { rewrite Hm'. destruct Hsh as [-> | ->]; nia. }
  clearbody m'.
  pose proof (Z.sqrtrem_spec m') as Hs.
  destruct (Z.sqrtrem m') as [q0 r]. specialize (Hs ltac:(lia)) as [Hs Hr].
  assert (2 ^ 52 <= q0 < 2 ^ 53) as Hq0 by nia.
  assert (q0 < r -> q0 + 1 < 2 ^ 53) as Hup by nia.
  destruct q0 as [|q|q]; [lia| |lia].
  rewrite round_aux_full; [| apply digits_unique; lia | lia | |].
  - eexists _, K, (Zpos q), r. split; [reflexivity|].
    assert (Zpos (Z.to_pos
              (round_nearest_even (Zpos q)
                 (if r =? 0 then loc_Exact
                  else loc_Inexact (if r <=? Zpos q then Lt else Gt)))) =
            (if r <=? Zpos q then Zpos q else Zpos q + 1)) as Hres.
    { destruct (Z.eqb_spec r 0) as [->|Hr0]; [reflexivity|].
      destruct (r <=? Zpos q); reflexivity. }
    split; [|split; [exact HK|split; [lia|split; [exact Hr|split; [lia|exact Hres]]]]].
    apply digits_unique. rewrite Hres. destruct (Z.leb_spec r (Zpos q)); lia.
  - destruct (r =? 0); [discriminate|]. destruct (r <=? Zpos q); discriminate.
  - destruct (r =? 0); [discriminate|].
    destruct (Z.leb_spec r (Zpos q)); [discriminate|]. intros _. apply Hup. lia.
Qed.


(** Rounding the root to 53 digits does not carry it across a whole
    number below [2^26]. *)
Lemma sqrt_round_compare (s R K q0 r q : Z) :
  0 < R < 2 ^ 26 -> 26 <= K ->
  s * (2 ^ K * 2 ^ K) = q0 * q0 + r -> 0 <= r <= 2 * q0 -> 0 <= q0 ->
  q = (if r <=? q0 then q0 else q0 + 1) ->
  q < R * 2 ^ K <-> s < R * R.
Proof.
  intros HR HK Hs Hr Hq0 ->.
  assert (2 ^ 26 <= 2 ^ K) as HP by (apply Z.pow_le_mono_r; lia).
  set (P := 2 ^ K) in *. clearbody P.
  assert (q0 < R * P <-> s < R * R) as Hiff.
  { split; intros H.
    - assert (s * (P * P) < (R * R) * (P * P)) by nia. nia.
    - assert (s + 1 <= R * R) by lia.
      assert (q0 * q0 < (R * P) * (R * P)) by nia. nia. }
  destruct (Z.leb_spec r q0) as [Hle|Hgt]; [exact Hiff|].
  split; intros H.
  - apply Hiff. lia.
  - apply Hiff in H as H'.
    assert (q0 + 1 <> R * P); [|lia].
    intros E. assert (s + 1 <= R * R) by lia.
    assert ((s + 1) * (P * P) <= (R * R) * (P * P)) by nia.
    nia.
Qed.

Lemma sqrt_ltb_whole (s R : Z) :
  0 <= s -> small s -> Z.abs R < 2 ^ 26 ->
  (sqrt (of_Z s) <? of_Z R)%float = (0 <? R) && (s <? R * R).
Proof.
  intros Hs0 Hs HR. assert (small R) as HR' by (unfold small; lia).
  rewrite FloatAxioms.ltb_spec, sqrt_spec, !Prim2SF_of_Z by assumption.
  destruct s as [|p|p]; [| |lia].
  - change (SF64sqrt (F 0)) with (F 0). unfold SFltb.
    rewrite (SFcompare_whole 0 R) by assumption.
    destruct R as [|R|R]; reflexivity.
  - rewrite (F_pos p Hs).
    destruct (sqrt_whole_form p Hs) as (q & K & q0 & r & -> & Hd & HK & Hv & Hr & Hq0 & Hq).
    destruct R as [|R|R]; [reflexivity| |whole_forms; reflexivity].
    pose proof (expo_range R HR'). rewrite (F_pos R HR').
    unfold SFltb, SFcompare.
    rewrite (compare_normal q (mant R) (- K) (expo R) 53)
      by (rewrite ?mant_digits by assumption; lia).
    rewrite (mant_scaled R HR').
    assert (2 ^ 53 = 2 ^ K * 2 ^ (- K + 53)) as ->
      by (rewrite <- Z.pow_add_r by lia; f_equal; lia).
    rewrite Z.mul_assoc, <- Zmult_compare_compat_r
      by (apply Z.lt_gt, Z.pow_pos_nonneg; lia).
    pose proof (sqrt_round_compare (Zpos p) (Zpos R) K q0 r (Zpos q)
                  ltac:(lia) ltac:(lia) Hv Hr Hq0 Hq) as Hiff.
    change (0 <? Zpos R) with true. rewrite andb_true_l.
    destruct (Z.compare_spec (Zpos q) (Zpos R * 2 ^ K)) as [E|E|E];
      destruct (Z.ltb_spec (Zpos p) (Zpos R * Zpos R)) as [L|L];
      try reflexivity; lia.
Qed.


(** A value has one canonical form. *)
Lemma bounded_unique (m1 m2 : positive) (e1 e2 T : Z) :
  bounded prec emax m1 e1 = true -> bounded prec emax m2 e2 = true ->
  0 <= e1 + T -> 0 <= e2 + T ->
  Zpos m1 * 2 ^ (e1 + T) = Zpos m2 * 2 ^ (e2 + T) ->
  m1 = m2 /\ e1 = e2.
Proof.
  intros [C1 _]%andb_prop [C2 _]%andb_prop H1 H2 HV.
  unfold canonical_mantissa in C1, C2. apply Z.eqb_eq in C1, C2.
  pose proof (same_value_same_magnitude m1 m2 e1 e2 T H1 H2 HV) as Hd.
  rewrite Hd, C2 in C1. subst e2. split; [|reflexivity].
  assert (0 < 2 ^ (e1 + T)) by (apply Z.pow_pos_nonneg; lia).
  apply Pos2Z.inj. nia.
Qed.

(** The value of the canonical form, in units of [2^-1074]. *)
Lemma mant_units (p : positive) :
  small (Zpos p) -> Zpos (mant p) * 2 ^ (expo p + 1074) = Zpos p * 2 ^ 1074.
Proof.
  intros Hp. pose proof (small_digits p Hp). rewrite (mant_val p Hp).
  rewrite <- Z.mul_assoc, <- Z.pow_add_r by (unfold expo; lia).
  f_equal. f_equal. unfold expo. lia.
Qed.

Lemma bounded_exponent (m : positive) (e : Z) :
  bounded prec emax m e = true -> -1074 <= e.
Proof.
  intros [C _]%andb_prop. unfold canonical_mantissa in C. apply Z.eqb_eq in C.
  unfold fexp, SpecFloat.emin, prec, emax in C. lia.
Qed.

(** A number whose value is a whole number below [2^53] is that whole
    number, or the negative zero; and back. *)
Lemma value_is_Z (f : float) (n : Z) : small n -> value_is f n -> is_Z f n.
Proof.
  intros Hn. unfold value_is, units, is_Z. pose proof (Prim2SF_valid f) as Hv.
  assert (0 < 2 ^ 1074) by (apply Z.pow_pos_nonneg; lia).
  destruct (Prim2SF f) as [s| | |s m e]; try discriminate.
  - intros [= E]. assert (n = 0) as -> by nia.
    destruct s; [right; split; reflexivity|left; reflexivity].
  - intros [= E]. left. simpl in Hv. pose proof (bounded_exponent m e Hv).
    assert (0 < 2 ^ (e + 1074)) by (apply Z.pow_pos_nonneg; lia).
    destruct n as [|p|p].
    + destruct s; simpl in E; nia.
    + destruct s; simpl in E; [nia|]. rewrite (F_pos p Hn).
      pose proof (expo_range p Hn).
      destruct (bounded_unique m (mant p) e (expo p) 1074) as [-> ->];
        [exact Hv|apply mant_bounded, Hn|lia|lia| |reflexivity].
      rewrite (mant_units p Hn). exact E.
    + change (small (Zneg p)) with (small (Zpos p)) in Hn.
      destruct s; simpl in E; [|nia]. rewrite (F_neg p Hn).
      pose proof (expo_range p Hn).
      destruct (bounded_unique m (mant p) e (expo p) 1074) as [-> ->];
        [exact Hv|apply mant_bounded, Hn|lia|lia| |reflexivity].
      rewrite (mant_units p Hn). lia.
Qed.

Lemma is_Z_value (f : float) (n : Z) : small n -> is_Z f n -> value_is f n.
Proof.
  intros Hn [E|[-> E]]; unfold value_is, units; rewrite E; [|reflexivity].
  destruct n as [|p|p]; [reflexivity| |].
  - rewrite (F_pos p Hn). simpl cond_Zopp. rewrite (mant_units p Hn). reflexivity.
  - change (small (Zneg p)) with (small (Zpos p)) in Hn.
    rewrite (F_neg p Hn). simpl cond_Zopp. rewrite (mant_units p Hn). f_equal.
Qed.

(** The sign of a zero does not show in a comparison. *)
Lemma SFcompare_zero_sign_l (s : bool) (Y : spec_float) :
  SFcompare (S754_zero s) Y = SFcompare (F 0) Y.
Proof. destruct Y as [| | |[] ? ?]; reflexivity. Qed.

Lemma SFcompare_zero_sign_r (s : bool) (X : spec_float) :
  SFcompare X (S754_zero s) = SFcompare X (F 0).
Proof. destruct X as [| | |[] ? ?]; reflexivity. Qed.

Lemma SFcompare_is_Z (a b : float) (x y : Z) :
  small x -> small y -> is_Z a x -> is_Z b y ->
  SFcompare (Prim2SF a) (Prim2SF b) = Some (x ?= y).
Proof.
  intros Hx Hy [Ea|[-> Ea]] [Eb|[-> Eb]]; rewrite Ea, Eb;
    rewrite ?SFcompare_zero_sign_l, ?SFcompare_zero_sign_r;
    apply SFcompare_whole; assumption.
Qed.

Lemma ltb_is_Z (a b : float) (x y : Z) :
  small x -> small y -> is_Z a x -> is_Z b y -> (a <? b)%float = (x <? y).
Proof.
  intros Hx Hy Ha Hb. rewrite FloatAxioms.ltb_spec. unfold SFltb.
  rewrite (SFcompare_is_Z a b x y Hx Hy Ha Hb). reflexivity.
Qed.

Lemma is_nan_is_Z (a : float) (x : Z) : small x -> is_Z a x -> is_nan a = false.
Proof.
  intros Hx Ha. unfold is_nan. rewrite FloatAxioms.eqb_spec. unfold SFeqb.
  rewrite (SFcompare_is_Z a a x x Hx Hx Ha Ha), Z.compare_refl. reflexivity.
Qed.

(** Arithmetic on numbers with whole values. *)
Lemma of_Z_is_Z (n : Z) : small n -> is_Z (of_Z n) n.
Proof. intros Hn. left. apply Prim2SF_of_Z, Hn. Qed.

Lemma sub_is_Z (a b : float) (x y : Z) :
  small x -> small y -> small (x - y) -> is_Z a x -> is_Z b y ->
  is_Z (a - b)%float (x - y).
Proof.
  intros Hx Hy Hxy [Ea|[-> Ea]] [Eb|[-> Eb]]; unfold is_Z;
    rewrite sub_spec, Ea, Eb.
  - left. apply SFsub_whole; assumption.
  - left. rewrite Z.sub_0_r. destruct x as [|p|p]; whole_forms; reflexivity.
  - rewrite Z.sub_0_l. destruct y as [|p|p].
    + right. split; reflexivity.
    + left. rewrite Pos2Z.opp_pos. whole_forms. reflexivity.
    + left. rewrite Pos2Z.opp_neg. whole_forms. reflexivity.
  - left. reflexivity.
Qed.

Lemma add_is_Z (a b : float) (x y : Z) :
  small x -> small y -> small (x + y) -> is_Z a x -> is_Z b y ->
  is_Z (a + b)%float (x + y).
Proof.
  intros Hx Hy Hxy [Ea|[-> Ea]] [Eb|[-> Eb]]; unfold is_Z;
    rewrite add_spec, Ea, Eb.
  - left. apply SFadd_whole; assumption.
  - left. rewrite Z.add_0_r. destruct x as [|p|p]; whole_forms; reflexivity.
  - left. rewrite Z.add_0_l. destruct y as [|p|p]; whole_forms; reflexivity.
  - right. split; reflexivity.
Qed.

Lemma square_is_Z (a : float) (x : Z) :
  small (x * x) -> is_Z a x -> (a * a)%float = of_Z (x * x).
Proof.
  intros Hxx [Ea|[-> Ea]]; apply Prim2SF_inj;
    rewrite mul_spec, Ea, Prim2SF_of_Z by assumption.
  - apply SFmul_whole_square, Hxx.
  - reflexivity.
Qed.

(** The rounded root of a whole number against a number with a whole
    value below [2^26]. *)
Lemma sqrt_ltb_is_Z (s R : Z) (r : float) :
  0 <= s -> small s -> Z.abs R < 2 ^ 26 -> is_Z r R ->
  (sqrt (of_Z s) <? r)%float = (0 <? R) && (s <? R * R).
Proof.
  intros Hs0 Hs HR [Er|[-> Er]].
  - assert (r = of_Z R) as ->.
    { apply Prim2SF_inj. rewrite Er, Prim2SF_of_Z; [reflexivity|unfold small; lia]. }
    apply sqrt_ltb_whole; assumption.
  - rewrite <- (sqrt_ltb_whole s 0 Hs0 Hs HR).
    rewrite !FloatAxioms.ltb_spec, Er. unfold SFltb.
    rewrite SFcompare_zero_sign_r, (Prim2SF_of_Z 0); [reflexivity|unfold small; lia].
Qed.

(** [Math.min], [Math.max] and the clamp of numbers with whole values. *)
Lemma Math_min_is_Z (a b : float) (x y : Z) :
  small x -> small y -> is_Z a x -> is_Z b y -> is_Z (JS.Math_min a b) (Z.min x y).
Proof.
  intros Hx Hy Ha Hb. unfold JS.Math_min.
  rewrite (is_nan_is_Z a x Hx Ha), (is_nan_is_Z b y Hy Hb),
    (ltb_is_Z a b x y Hx Hy Ha Hb), (ltb_is_Z b a y x Hy Hx Hb Ha). simpl.
  destruct (Z.ltb_spec x y); [rewrite Z.min_l by lia; exact Ha|].
  destruct (Z.ltb_spec y x); [rewrite Z.min_r by lia; exact Hb|].
  assert (x = y) as -> by lia. rewrite Z.min_id. destruct (get_sign a); assumption.
Qed.

Lemma Math_max_is_Z (a b : float) (x y : Z) :
  small x -> small y -> is_Z a x -> is_Z b y -> is_Z (JS.Math_max a b) (Z.max x y).
Proof.
  intros Hx Hy Ha Hb. unfold JS.Math_max.
  rewrite (is_nan_is_Z a x Hx Ha), (is_nan_is_Z b y Hy Hb),
    (ltb_is_Z a b x y Hx Hy Ha Hb), (ltb_is_Z b a y x Hy Hx Hb Ha). simpl.
  destruct (Z.ltb_spec x y); [rewrite Z.max_r by lia; exact Hb|].
  destruct (Z.ltb_spec y x); [rewrite Z.max_l by lia; exact Ha|].
  assert (x = y) as -> by lia. rewrite Z.max_id. destruct (get_sign a); assumption.
Qed.


(** The value of [of_Z n] is [n]. *)
Lemma value_of_Z (n : Z) : small n -> value_is (of_Z n) n.
Proof. intros Hn. apply is_Z_value, of_Z_is_Z; exact Hn. Qed.

Example of_Z_literals :
  of_Z 0 = 0%float /\ of_Z 3 = 3%float /\ of_Z (-10) = (-10)%float /\
  of_Z (2 ^ 24) = 16777216%float.
Proof. vm_compute. repeat split. Qed.

(** Bounds for the sums of squares in the two collision tests. *)
Lemma square_bound (a B : Z) : Z.abs a <= B -> 0 <= a * a <= B * B.
Proof. intros H. rewrite <- (Z.abs_square a). pose proof (Z.abs_nonneg a). nia. Qed.

Ltac small_whole :=
  unfold small;
  repeat match goal with
  | |- context [?a * ?a] =>
      lazymatch goal with
      | _ : 0 <= a * a <= _ |- _ => fail
      | _ => first [ pose proof (square_bound a (2 ^ 25) ltac:(lia))
                   | pose proof (square_bound a (3 * 2 ^ 24) ltac:(lia))
                   | pose proof (square_bound a (2 ^ 24) ltac:(lia)) ]
      end
  end;
  lia.

Lemma whole_bound (f : float) (n : Z) : whole f n -> Z.abs n <= 2 ^ 24.
Proof. intros [_ H]. exact H. Qed.

Lemma whole_is_Z (f : float) (n : Z) : whole f n -> is_Z f n.
Proof. intros [Hv Hn]. apply value_is_Z; [unfold small; lia|exact Hv]. Qed.

(** The circle test on numbers with whole values: differences, squares
    and their sum are exact, and so is the comparison with the rounded
    root. *)
Lemma circles_is_Z (fxa fya fra fxb fyb frb : float) (xa ya ra xb yb rb : Z) :
  Z.abs xa <= 2 ^ 24 -> Z.abs ya <= 2 ^ 24 -> Z.abs ra <= 2 ^ 24 ->
  Z.abs xb <= 2 ^ 24 -> Z.abs yb <= 2 ^ 24 -> Z.abs rb <= 2 ^ 24 ->
  is_Z fxa xa -> is_Z fya ya -> is_Z fra ra ->
  is_Z fxb xb -> is_Z fyb yb -> is_Z frb rb ->
  (JS.Math_sqrt ((fxa - fxb) * (fxa - fxb) + (fya - fyb) * (fya - fyb)) <?
   fra + frb)%float =
  (0 <? ra + rb) &&
  ((xa - xb) * (xa - xb) + (ya - yb) * (ya - yb) <? (ra + rb) * (ra + rb)).
Proof.
  intros Hxa Hya Hra Hxb Hyb Hrb Zxa Zya Zra Zxb Zyb Zrb. unfold JS.Math_sqrt.
  pose proof (sub_is_Z fxa fxb xa xb ltac:(small_whole) ltac:(small_whole)
                ltac:(small_whole) Zxa Zxb) as Zdx.
  pose proof (sub_is_Z fya fyb ya yb ltac:(small_whole) ltac:(small_whole)
                ltac:(small_whole) Zya Zyb) as Zdy.
  pose proof (add_is_Z fra frb ra rb ltac:(small_whole) ltac:(small_whole)
                ltac:(small_whole) Zra Zrb) as ZR.
  rewrite (square_is_Z _ (xa - xb) ltac:(small_whole) Zdx),
    (square_is_Z _ (ya - yb) ltac:(small_whole) Zdy).
  rewrite add_whole by small_whole.
  apply sqrt_ltb_is_Z; [small_whole|small_whole|small_whole|exact ZR].
Qed.

(** The rectangle and circle test on numbers with whole values. *)
Lemma clamp_is_Z (fv flo fsize : float) (v lo size : Z) :
  Z.abs v <= 2 ^ 24 -> Z.abs lo <= 2 ^ 24 -> Z.abs size <= 2 ^ 24 ->
  is_Z fv v -> is_Z flo lo -> is_Z fsize size ->
  is_Z (clamp fv flo (flo + fsize)%float) (Z.max lo (Z.min v (lo + size))).
Proof.
  intros Hv Hlo Hsize Zv Zlo Zsize. unfold clamp.
  apply Math_max_is_Z; [small_whole|small_whole|exact Zlo|].
  apply Math_min_is_Z; [small_whole|small_whole|exact Zv|].
  apply add_is_Z; [small_whole|small_whole|small_whole|exact Zlo|exact Zsize].
Qed.

Lemma sq_distance_is_Z (fcx fcy fpx fpy fr : float) (cx cy px py r : Z) :
  Z.abs (cx - px) <= 3 * 2 ^ 24 -> Z.abs (cy - py) <= 3 * 2 ^ 24 ->
  Z.abs cx <= 2 ^ 24 -> Z.abs cy <= 2 ^ 24 ->
  Z.abs px <= 2 ^ 25 -> Z.abs py <= 2 ^ 25 -> Z.abs r <= 2 ^ 24 ->
  is_Z fcx cx -> is_Z fcy cy -> is_Z fpx px -> is_Z fpy py -> is_Z fr r ->
  ((fcx - fpx) * (fcx - fpx) + (fcy - fpy) * (fcy - fpy) <? fr * fr)%float =
  ((cx - px) * (cx - px) + (cy - py) * (cy - py) <? r * r).
Proof.
  intros Hdx Hdy Hcx Hcy Hpx Hpy Hr Zcx Zcy Zpx Zpy Zr.
  pose proof (sub_is_Z fcx fpx cx px ltac:(small_whole) ltac:(small_whole)
                ltac:(small_whole) Zcx Zpx) as Zdx.
  pose proof (sub_is_Z fcy fpy cy py ltac:(small_whole) ltac:(small_whole)
                ltac:(small_whole) Zcy Zpy) as Zdy.
  rewrite (square_is_Z _ (cx - px) ltac:(small_whole) Zdx),
    (square_is_Z _ (cy - py) ltac:(small_whole) Zdy),
    (square_is_Z _ r ltac:(small_whole) Zr).
  rewrite add_whole by small_whole.
  apply ltb_whole; small_whole.
Qed.

End Whole.

(** ** The class hierarchy *)

Lemma instanceof_Rectangle (o : Obj) :
  instanceof o Rectangle =
  match class_of o with Rectangle | Button => true | _ => false end.
Proof. unfold instanceof. destruct (class_of o); reflexivity. Qed.

Lemma instanceof_Circle (o : Obj) :
  instanceof o Circle = match class_of o with Circle => true | _ => false end.
Proof. unfold instanceof. destruct (class_of o); reflexivity. Qed.

Lemma instanceof_Button (o : Obj) :
  instanceof o Button = match class_of o with Button => true | _ => false end.
Proof. unfold instanceof. destruct (class_of o); reflexivity. Qed.

Lemma shapeless_classes (o : Obj) :
  shapeless o = true <-> class_of o ∈ [GameObject; Sprite; Text].
Proof.
  unfold shapeless. rewrite instanceof_Rectangle, instanceof_Circle.
  destruct (class_of o); simpl; split; intros E; try discriminate;
    try reflexivity; try (repeat constructor; fail);
    repeat (apply elem_of_cons in E as [E|E]; [discriminate|]);
    apply elem_of_nil in E; contradiction.
Qed.

(** ** Collision predicates *)

Lemma rectRectCollision_sym (a b : Obj) :
  rectRectCollision a b = rectRectCollision b a.
Proof.
  unfold rectRectCollision, JS.gtb.
  destruct (x a <? x b + JS.ToNumber (width b)),
           (x b <? x a + JS.ToNumber (width a)),
           (y a <? y b + JS.ToNumber (height b)),
           (y b <? y a + JS.ToNumber (height a)); reflexivity.
Qed.

Lemma circleCircleCollision_sym (a b : Obj) :
  circleCircleCollision a b = circleCircleCollision b a.
Proof.
  unfold circleCircleCollision.
  rewrite (IEEE.sub_sq_swap (x a) (x b)), (IEEE.sub_sq_swap (y a) (y b)).
  rewrite (IEEE.add_comm (JS.ToNumber (radius a))). reflexivity.
Qed.

(** The dispatcher, by the classes of its arguments. *)
Lemma checkCollision_dispatch (a b : Obj) :
  checkCollision a b =
  match instanceof a Rectangle, instanceof a Circle,
        instanceof b Rectangle, instanceof b Circle with
  | true, _, true, _ => rectRectCollision a b
  | true, _, false, true => rectCircleCollision a b
  | false, true, _, true => circleCircleCollision a b
  | false, true, true, false => rectCircleCollision b a
  | _, _, _, _ => false
  end.
Proof.
  unfold checkCollision. rewrite !instanceof_Rectangle, !instanceof_Circle.
  destruct (class_of a), (class_of b); reflexivity.
Qed.

(** C9: two rectangles collide exactly when their boxes overlap strictly
    on both axes, each box reaching from [x] to [x + width] and from [y]
    to [y + height]; rectangles that only touch along an edge, on any of
    the four sides, do not collide. *)
Theorem C9_rectRect_strict_overlap (a b : Obj) :
  let right o := x o + JS.ToNumber (width o) in
  let bottom o := y o + JS.ToNumber (height o) in
  (rectRectCollision a b = true <->
     (x a <? right b) = true /\ (x b <? right a) = true /\
     (y a <? bottom b) = true /\ (y b <? bottom a) = true) /\
  ((right a =? x b) = true -> rectRectCollision a b = false) /\
  ((right b =? x a) = true -> rectRectCollision a b = false) /\
  ((bottom a =? y b) = true -> rectRectCollision a b = false) /\
  ((bottom b =? y a) = true -> rectRectCollision a b = false).
Proof.
  intros right bottom. unfold rectRectCollision, JS.gtb.
  fold (right a) (right b) (bottom a) (bottom b).
  split; [|repeat split].
  - rewrite !andb_true_iff. tauto.
  - intros E. apply IEEE.eqb_ltb_false in E as [_ E]. rewrite E.
    rewrite andb_false_r. reflexivity.
  - intros E. apply IEEE.eqb_ltb_false in E as [_ E]. rewrite E. reflexivity.
  - intros E. apply IEEE.eqb_ltb_false in E as [_ E]. rewrite E.
    rewrite andb_false_r. reflexivity.
  - intros E. apply IEEE.eqb_ltb_false in E as [_ E]. rewrite E.
    rewrite andb_false_r. reflexivity.
Qed.

(** Two 10 by 10 rectangles side by side, [A.x + A.width == B.x]. *)
Lemma C9_touching_edges_witness :
  rectRectCollision (new_Rectangle 0 0 10 10 "white")
                    (new_Rectangle 10 0 10 10 "white") = false.
Proof.
  refine (proj1 (proj2 (C9_rectRect_strict_overlap
                          (new_Rectangle 0 0 10 10 "white")
                          (new_Rectangle 10 0 10 10 "white"))) _).
  vm_compute. reflexivity.
Defined.

(** The claim of C7 as stated fails: the circle of radius [2a] at
    [(0, 0)] and the circle of radius [3a] at [(3a, 4a)], with
    [a = 0x1.736e1d95389b0p+0], have their centres exactly [5a] apart,
    which is exactly the sum of the radii ([2a], [3a], [4a] and [5a] are
    all binary64 numbers), and yet they collide: the squares and their sum
    are rounded, and the computed distance comes out below [5a], the
    computed sum of the radii. *)
Lemma C7_touching_circles_counterexample :
  let a := new_Circle 0 0 0x1.736e1d95389b0p+1 "white" in
  let b := new_Circle 0x1.1692962fea744p+2 0x1.736e1d95389b0p+2
             0x1.1692962fea744p+2 "white" in
  Exact.touching a b /\
  (centre_distance a b <? 0x1.d049a4fa86c1cp+2) = true /\
  JS.ToNumber (radius a) + JS.ToNumber (radius b) = 0x1.d049a4fa86c1cp+2 /\
  circleCircleCollision a b = true.
Proof.
  split; [|vm_compute; repeat split].
  eexists _, _, _, _, _, _.
  repeat (split; [vm_compute; reflexivity|]).
  vm_compute. split; [discriminate|reflexivity].
Qed.

(** C7, amended: two circles collide exactly when the distance between
    their centres as the source computes it, each operation rounded, is
    strictly below the rounded sum of the radii; when the two computed
    values are equal they do not collide, and since a distance is not
    negative, neither do circles whose radii do not add up to a positive
    number.  For circles whose coordinates and radii are whole numbers of
    magnitude at most [2^24] nothing is rounded away: they collide exactly
    when the true distance [sqrt (dx^2 + dy^2)] is below [r1 + r2], that
    is when [r1 + r2] is positive and [dx^2 + dy^2 < (r1 + r2)^2], and
    circles that touch, [dx^2 + dy^2 = (r1 + r2)^2], do not collide. *)
Theorem C7_circleCircle_strict_as_computed (a b : Obj) :
  let d := centre_distance a b in
  let r1 := JS.ToNumber (radius a) in
  let r2 := JS.ToNumber (radius b) in
  (circleCircleCollision a b = true <-> (d <? r1 + r2) = true) /\
  ((d =? r1 + r2) = true -> circleCircleCollision a b = false) /\
  ((0 <? r1 + r2) = false -> circleCircleCollision a b = false) /\
  (forall xa ya ra xb yb rb : Z,
     Exact.whole (x a) xa -> Exact.whole (y a) ya -> Exact.whole r1 ra ->
     Exact.whole (x b) xb -> Exact.whole (y b) yb -> Exact.whole r2 rb ->
     (circleCircleCollision a b = true <->
        0 < ra + rb /\ (xa - xb) ^ 2 + (ya - yb) ^ 2 < (ra + rb) ^ 2)%Z /\
     ((xa - xb) ^ 2 + (ya - yb) ^ 2 = (ra + rb) ^ 2 ->
        circleCircleCollision a b = false)%Z).
Proof.
  intros d r1 r2.
  change (circleCircleCollision a b) with (d <? r1 + r2).
  split; [reflexivity|split; [|split]].
  - intros E. apply IEEE.eqb_ltb_false in E as [E _]. exact E.
  - intros E. destruct (d <? r1 + r2) eqn:Ed; [|reflexivity].
    apply IEEE.sqrt_ltb_pos in Ed. congruence.
  - intros xa ya ra xb yb rb Wxa Wya Wra Wxb Wyb Wrb.
    subst d. unfold centre_distance.
    rewrite (Whole.circles_is_Z _ _ _ _ _ _ xa ya ra xb yb rb)
      by first [eapply Whole.whole_bound; eassumption
               |apply Whole.whole_is_Z; assumption].
    rewrite !Z.pow_2_r, andb_true_iff, Z.ltb_lt, Z.ltb_lt.
    split; [reflexivity|].
    intros E. apply andb_false_iff. right. apply Z.ltb_ge. lia.
Qed.

(** Centres 5 apart (a 3-4-5 triangle), radii 2 and 3: the circles touch
    and do not collide. *)
Lemma C7_boundary_witness :
  circleCircleCollision (new_Circle 0 0 2 "white") (new_Circle 3 4 3 "white") = false.
Proof.
  refine (proj2 (proj2 (proj2 (proj2 (C7_circleCircle_strict_as_computed
            (new_Circle 0 0 2 "white") (new_Circle 3 4 3 "white"))))
            0 0 2 3 4 3 _ _ _ _ _ _)%Z _);
    try (split; [vm_compute; reflexivity|simpl; lia]).
  reflexivity.
Defined.

(** The claim of C8 as stated fails: for the rectangle from [(-10, -10)]
    to [(0, 0)] and the circle of radius [5a] at [(3a, 4a)], with
    [a = 0x1.7ce418072e8c0p+0], the nearest point is the corner [(0, 0)],
    on the right and the bottom edge, and it is exactly [5a] from the
    centre ([3a], [4a] and [5a] are binary64 numbers), and yet they
    collide: the squares and their sum are rounded, and the computed
    squared distance comes out below the computed squared radius. *)
Lemma C8_radius_to_corner_counterexample :
  let rect := new_Rectangle (-10) (-10) 10 10 "white" in
  let circ := new_Circle 0x1.1dab120562e90p+2 0x1.7ce418072e8c0p+2
                0x1.dc1d1e08fa2f0p+2 "white" in
  nearest_point rect circ = (0, 0) /\
  x rect + JS.ToNumber (width rect) = 0 /\
  y rect + JS.ToNumber (height rect) = 0 /\
  Exact.at_radius circ (nearest_point rect circ) /\
  rectCircleCollision rect circ = true.
Proof.
  split; [vm_compute; reflexivity|].
  split; [vm_compute; reflexivity|].
  split; [vm_compute; reflexivity|].
  split; [|vm_compute; reflexivity].
  eexists _, _, _, _, _.
  repeat (split; [vm_compute; reflexivity|]).
  vm_compute. split; [discriminate|reflexivity].
Qed.

(** C8, amended: a rectangle and a circle collide exactly when the squared
    distance from the circle's centre to the nearest point of the
    rectangle, as the source computes it with each operation rounded, is
    strictly below the rounded square of the radius.  The nearest point
    is the centre clamped to the rectangle's bounds: for a rectangle whose
    width and height are not negative it lies between the left and right
    edges and between the top and bottom edges.  When the two computed
    squares are equal they do not collide; in particular, when the centre
    is straight across from the nearest point, horizontally or
    vertically, and the radius equals the computed distance to it, they
    do not collide.  For a rectangle and a circle whose coordinates and sizes are
    whole numbers of magnitude at most [2^24] nothing is rounded away: the
    nearest point is the exact clamp, they collide exactly when its true
    squared distance from the centre is below the square of the radius,
    and when the radius equals the distance to it they do not collide,
    at a corner as on an edge. *)
Theorem C8_rectCircle_clamped_strict_as_computed (rect circ : Obj) :
  let p := nearest_point rect circ in
  let r := JS.ToNumber (radius circ) in
  let right := x rect + JS.ToNumber (width rect) in
  let bottom := y rect + JS.ToNumber (height rect) in
  (rectCircleCollision rect circ = true <->
     (sq_distance_to circ p <? r * r) = true) /\
  (is_nan (x circ) = false -> (x rect <=? right) = true ->
     (x rect <=? fst p) = true /\ (fst p <=? right) = true) /\
  (is_nan (y circ) = false -> (y rect <=? bottom) = true ->
     (y rect <=? snd p) = true /\ (snd p <=? bottom) = true) /\
  ((sq_distance_to circ p =? r * r) = true ->
     rectCircleCollision rect circ = false) /\
  ((y circ - snd p =? 0) = true -> (r =? abs (x circ - fst p)) = true ->
     rectCircleCollision rect circ = false) /\
  ((x circ - fst p =? 0) = true -> (r =? abs (y circ - snd p)) = true ->
     rectCircleCollision rect circ = false) /\
  (forall rx ry rw rh cx cy cr : Z,
     Exact.whole (x rect) rx -> Exact.whole (y rect) ry ->
     Exact.whole (JS.ToNumber (width rect)) rw ->
     Exact.whole (JS.ToNumber (height rect)) rh ->
     Exact.whole (x circ) cx -> Exact.whole (y circ) cy -> Exact.whole r cr ->
     let px := Z.max rx (Z.min cx (rx + rw)) in
     let py := Z.max ry (Z.min cy (ry + rh)) in
     (Exact.value_is (fst p) px /\ Exact.value_is (snd p) py) /\
     (rectCircleCollision rect circ = true <->
        (cx - px) ^ 2 + (cy - py) ^ 2 < cr ^ 2)%Z /\
     ((cx - px) ^ 2 + (cy - py) ^ 2 = cr ^ 2 ->
        rectCircleCollision rect circ = false)%Z).
Proof.
  intros p r right bottom.
  change (rectCircleCollision rect circ)
    with (sq_distance_to circ p <? r * r).
  split; [reflexivity|].
  split; [apply IEEE.clamp_in_bounds|].
  split; [apply IEEE.clamp_in_bounds|].
  split; [|split; [|split]].
  - intros E. apply IEEE.eqb_ltb_false in E as [E _]. exact E.
  - intros Ey Er. unfold sq_distance_to.
    rewrite (IEEE.sq_add_sq_zero _ _ Ey), (IEEE.eqb_abs_sq _ _ Er).
    apply IEEE.ltb_irrefl.
  - intros Ex Er. unfold sq_distance_to.
    rewrite (IEEE.sq_zero_add_sq _ _ Ex), (IEEE.eqb_abs_sq _ _ Er).
    apply IEEE.ltb_irrefl.
  - intros rx ry rw rh cx cy cr Wrx Wry Wrw Wrh Wcx Wcy Wcr px py.
    apply Whole.whole_bound in Wrx as Hrx, Wry as Hry, Wrw as Hrw, Wrh as Hrh,
      Wcx as Hcx, Wcy as Hcy, Wcr as Hcr.
    apply Whole.whole_is_Z in Wrx, Wry, Wrw, Wrh, Wcx, Wcy, Wcr.
    pose proof (Whole.clamp_is_Z _ _ _ cx rx rw Hcx Hrx Hrw Wcx Wrx Wrw) as Zpx.
    pose proof (Whole.clamp_is_Z _ _ _ cy ry rh Hcy Hry Hrh Wcy Wry Wrh) as Zpy.
    fold px in Zpx. fold py in Zpy.
    split.
    { split; apply Whole.is_Z_value; [|exact Zpx| |exact Zpy];
        unfold Exact.small; subst px py; lia. }
    unfold sq_distance_to. subst p. unfold nearest_point, fst, snd.
    rewrite (Whole.sq_distance_is_Z _ _ _ _ _ cx cy px py cr)
      by first [assumption | subst px py; lia].
    rewrite !Z.pow_2_r, Z.ltb_lt. split; [reflexivity|].
    intros E. apply Z.ltb_ge. lia.
Qed.

(** A circle of radius 5 centred 5 to the right of a rectangle's right
    edge, whose nearest point [(10, 5)] is on that edge at distance 5,
    and one centred at [(13, 14)], whose nearest point is the corner
    [(10, 10)] at distance 5 (a 3-4-5 triangle): neither collides. *)
Lemma C8_edge_witness :
  nearest_point (new_Rectangle 0 0 10 10 "white") (new_Circle 15 5 5 "white") = (10, 5) /\
  rectCircleCollision (new_Rectangle 0 0 10 10 "white") (new_Circle 15 5 5 "white") = false /\
  nearest_point (new_Rectangle 0 0 10 10 "white") (new_Circle 13 14 5 "white") = (10, 10) /\
  rectCircleCollision (new_Rectangle 0 0 10 10 "white") (new_Circle 13 14 5 "white") = false.
Proof.
  split; [vm_compute; reflexivity|]. split.
  - refine (proj1 (proj2 (proj2 (proj2 (proj2 (C8_rectCircle_clamped_strict_as_computed
              (new_Rectangle 0 0 10 10 "white") (new_Circle 15 5 5 "white"))))))
              _ _); vm_compute; reflexivity.
  - split; [vm_compute; reflexivity|].
    refine (proj2 (proj2
              (proj2 (proj2 (proj2 (proj2 (proj2 (proj2
                 (C8_rectCircle_clamped_strict_as_computed
                    (new_Rectangle 0 0 10 10 "white") (new_Circle 13 14 5 "white")))))))
                 0 0 10 10 13 14 5 _ _ _ _ _ _ _)%Z) _);
      try (split; [vm_compute; reflexivity|simpl; lia]).
    reflexivity.
Defined.

(** C10: collision testing is symmetric: swapping two rectangles does not
    change [rectRectCollision], and swapping any two objects does not
    change [checkCollision]. *)
Theorem C10_collision_symmetric :
  (forall a b : Obj, rectRectCollision a b = rectRectCollision b a) /\
  (forall a b : Obj, checkCollision a b = checkCollision b a).
Proof.
  split; [exact rectRectCollision_sym|].
  intros a b. rewrite !checkCollision_dispatch.
  rewrite (rectRectCollision_sym b a), (circleCircleCollision_sym b a).
  rewrite !instanceof_Rectangle, !instanceof_Circle.
  destruct (class_of a), (class_of b); reflexivity.
Qed.

(** The claim of C1 as stated fails: a Button is an instance of Rectangle,
    so a Button overlapping a Rectangle collides with it. *)
Lemma C1_button_pair_counterexample :
  let a := new_Button 0 0 10 10 "ok" in
  let b := new_Rectangle 5 5 10 10 "white" in
  class_of a = Button /\ checkCollision a b = true.
Proof. vm_compute. split; reflexivity. Qed.

(** C1, amended: [checkCollision] is false for every pair in which one
    object is neither a Rectangle, a Button nor a Circle, that is a Text,
    a Sprite or a bare GameObject.  A Button is dispatched as the
    Rectangle it extends: against a Rectangle or a Button it is tested by
    [rectRectCollision], against a Circle by [rectCircleCollision]. *)
Theorem C1_unsupported_pairs_false (a b : Obj) :
  (class_of a ∈ [GameObject; Sprite; Text] \/
   class_of b ∈ [GameObject; Sprite; Text] -> checkCollision a b = false) /\
  (class_of a = Button -> class_of b ∈ [Rectangle; Button] ->
     checkCollision a b = rectRectCollision a b /\
     checkCollision b a = rectRectCollision b a) /\
  (class_of a = Button -> class_of b = Circle ->
     checkCollision a b = rectCircleCollision a b /\
     checkCollision b a = rectCircleCollision a b).
Proof.
  rewrite <- !shapeless_classes. unfold shapeless.
  rewrite !checkCollision_dispatch, !instanceof_Rectangle, !instanceof_Circle.
  split; [|split].
  - intros [E|E]; destruct (class_of a), (class_of b);
      solve [reflexivity | discriminate E].
  - intros -> E. destruct (class_of b); try (split; reflexivity);
      repeat (apply elem_of_cons in E as [E|E]; [discriminate|]);
      apply elem_of_nil in E; contradiction.
  - intros -> ->. split; reflexivity.
Qed.

(** A Text never collides, even when it sits on top of a rectangle. *)
Lemma C1_text_pair_witness :
  checkCollision (new_Text 5 5 "hi" "white") (new_Rectangle 0 0 10 10 "white") = false.
Proof.
  refine (proj1 (C1_unsupported_pairs_false (new_Text 5 5 "hi" "white")
                   (new_Rectangle 0 0 10 10 "white")) _).
  left. simpl. repeat constructor.
Defined.

(** The claim of C2 as stated fails: with the mouse exactly on a circle's
    [(x, y)], a circle, which has no [width] and no [height], is inside. *)
Lemma C2_mouse_on_anchor_counterexample :
  let obj := new_Circle 5 5 3 "white" in
  let s := Input.handle (Input.mousemove 5 5 0 0) Input.new in
  width obj = None /\ height obj = None /\ Input.isMouseInside s obj = true.
Proof. vm_compute. repeat split; reflexivity. Qed.

(** C2, amended: for an object without [width] and [height],
    [isMouseInside] is true exactly when the mouse position equals the
    object's [(x, y)], and false at every other position. *)
Theorem C2_sizeless_inside_iff_on_anchor (s : Input.state) (obj : Obj) :
  width obj = None -> height obj = None ->
  Input.isMouseInside s obj =
  (Input.mouse_x (Input.mouse s) =? x obj) &&
  (Input.mouse_y (Input.mouse s) =? y obj).
Proof.
  intros Hw Hh. unfold Input.isMouseInside, JS.geb. rewrite Hw, Hh.
  change (JS.or_default None 0) with 0%float.
  rewrite !IEEE.leb_add_zero, <- !IEEE.leb_antisym_eqb, andb_assoc.
  reflexivity.
Qed.

(** A Text at [(10, 20)]: inside with the mouse at [(10, 20)], outside one
    pixel to the right. *)
Lemma C2_text_witness :
  Input.isMouseInside (Input.handle (Input.mousemove 10 20 0 0) Input.new)
    (new_Text 10 20 "hi" "white") = true /\
  Input.isMouseInside (Input.handle (Input.mousemove 11 20 0 0) Input.new)
    (new_Text 10 20 "hi" "white") = false.
Proof.
  split.
  - rewrite (C2_sizeless_inside_iff_on_anchor _ (new_Text 10 20 "hi" "white"));
      reflexivity.
  - rewrite (C2_sizeless_inside_iff_on_anchor _ (new_Text 10 20 "hi" "white"));
      reflexivity.
Defined.

Close Scope float_scope.

(** ** The input tracker *)

Lemma handle_keeps_click (e : Input.event) (s : Input.state) :
  Input.wasMouseClicked s = true -> Input.wasMouseClicked (Input.handle e s) = true.
Proof. destruct e; simpl; auto. Qed.

(** Only [consumeClick] can clear a set flag. *)
Lemma step_keeps_click (o : Input.op) (s : Input.state) :
  o <> Input.Consume ->
  Input.wasMouseClicked s = true ->
  Input.wasMouseClicked (Input.step o s).1 = true.
Proof. destruct o; simpl; auto using handle_keeps_click; congruence. Qed.

Lemma run_without_consume (ops : list Input.op) (s : Input.state) :
  Input.Consume ∉ ops ->
  Input.wasMouseClicked s = true ->
  Input.wasMouseClicked (Input.run ops s).1 = true /\
  Forall (eq true) (Input.run ops s).2 /\
  length (Input.run ops s).2 = length (List.filter Input.asks_clicked ops).
Proof.
  revert s. induction ops as [|o ops IH]; intros s Hno Hs; simpl.
  - auto.
  - apply not_elem_of_cons in Hno as [Ho Hno].
    pose proof (step_keeps_click o s (not_eq_sym Ho) Hs) as Hs1.
    destruct (Input.step o s) as [s1 ans] eqn:Es. simpl in Hs1.
    specialize (IH s1 Hno Hs1).
    destruct (Input.run ops s1) as [s2 answers]. simpl in *.
    destruct IH as (IH1 & IH2 & IH3). split; [exact IH1|].
    destruct o; simpl; rewrite ?Hs; auto.
Qed.

(** C6: after a mouse press the clicked flag is set; every
    [wasMouseClicked()] query made before [consumeClick()] is called
    answers true, however many queries, events and other calls come in
    between; a query leaves the state as it is; and [consumeClick()]
    clears the flag. *)
Theorem C6_click_persists_until_consumed (s : Input.state) (ops : list Input.op) :
  let pressed := Input.handle Input.mousedown s in
  Input.Consume ∉ ops ->
  Input.wasMouseClicked pressed = true /\
  Forall (eq true) (Input.run ops pressed).2 /\
  length (Input.run ops pressed).2 = length (List.filter Input.asks_clicked ops) /\
  Input.wasMouseClicked (Input.run ops pressed).1 = true /\
  (forall t, (Input.step Input.AskClicked t).1 = t) /\
  Input.wasMouseClicked (Input.consumeClick (Input.run ops pressed).1) = false.
Proof.
  intros pressed Hno.
  destruct (run_without_consume ops pressed Hno eq_refl) as (H1 & H2 & H3).
  repeat split; auto.
Qed.

(** A press, then three queries with a mouse move and a release between
    them: the three answers are true. *)
Lemma C6_three_queries_witness :
  (Input.run [Input.AskClicked; Input.Deliver (Input.mousemove 3 4 0 0);
              Input.AskClicked; Input.Deliver Input.mouseup; Input.AskClicked]
     (Input.handle Input.mousedown Input.new)).2 = [true; true; true] /\
  Forall (eq true)
    (Input.run [Input.AskClicked; Input.Deliver (Input.mousemove 3 4 0 0);
                Input.AskClicked; Input.Deliver Input.mouseup; Input.AskClicked]
       (Input.handle Input.mousedown Input.new)).2.
Proof.
  split; [reflexivity|].
  refine (proj1 (proj2 (C6_click_persists_until_consumed Input.new
    [Input.AskClicked; Input.Deliver (Input.mousemove 3 4 0 0);
     Input.AskClicked; Input.Deliver Input.mouseup; Input.AskClicked] _))).
  intros E. repeat (apply elem_of_cons in E as [E|E]; [discriminate|]).
  apply elem_of_nil in E. exact E.
Defined.

(** ** The object list *)

Lemma indexOf_from_fresh (obj : nat) (l : list nat) (k : Z) :
  obj ∉ l -> indexOf_from obj (l ++ [obj]) k = (k + Z.of_nat (length l))%Z.
Proof.
  revert k. induction l as [|o l IH]; intros k Hno; simpl.
  - rewrite decide_True by reflexivity. lia.
  - apply not_elem_of_cons in Hno as [Hne Hno].
    rewrite decide_False by congruence. rewrite IH by assumption. lia.
Qed.

Lemma indexOf_from_absent (obj : nat) (l : list nat) (k : Z) :
  obj ∉ l -> indexOf_from obj l k = (-1)%Z.
Proof.
  revert k. induction l as [|o l IH]; intros k Hno; simpl; [reflexivity|].
  apply not_elem_of_cons in Hno as [Hne Hno].
  rewrite decide_False by congruence. auto.
Qed.

Lemma delete_last (l : list nat) (obj : nat) : delete (length l) (l ++ [obj]) = l.
Proof. induction l as [|o l IH]; simpl; [reflexivity|]. f_equal. exact IH. Qed.

(** [remove] of an object that is not in the list changes nothing. *)
Lemma Engine_remove_absent (obj : nat) (w : World) :
  obj ∉ objects w -> Engine_remove obj w = w.
Proof.
  intros Hno. unfold Engine_remove, indexOf.
  rewrite indexOf_from_absent by assumption. reflexivity.
Qed.

(** The claim of C4 as stated fails when the object is already in the
    list: [remove] takes out its first occurrence, not the one [add]
    appended, and the order changes. *)
Lemma C4_duplicate_counterexample :
  let w := mkWorld ∅ [1; 2] Input.new in
  objects (Engine_remove 1 (Engine_add 1 w)) = [2; 1] /\
  objects (Engine_remove 1 (Engine_add 1 w)) <> objects w /\
  Engine_draw (Engine_remove 1 (Engine_add 1 w)) <> Engine_draw w.
Proof. vm_compute. repeat split; discriminate. Qed.

(** C4, amended: for an object that is not yet in the list, [add]
    followed by [remove] of that object restores the engine, and with it
    the object list and the order in which objects are drawn. *)
Theorem C4_add_remove_restores (w : World) (obj : nat) :
  obj ∉ objects w ->
  Engine_remove obj (Engine_add obj w) = w /\
  objects (Engine_remove obj (Engine_add obj w)) = objects w /\
  Engine_draw (Engine_remove obj (Engine_add obj w)) = Engine_draw w.
Proof.
  intros Hno.
  assert (Engine_remove obj (Engine_add obj w) = w) as E.
  { unfold Engine_remove, Engine_add, indexOf. simpl.
    rewrite indexOf_from_fresh by assumption.
    replace (negb (0 + Z.of_nat (length (objects w)) =? -1)%Z) with true
      by (symmetry; apply negb_true_iff, Z.eqb_neq; lia).
    unfold splice1. rewrite length_app. simpl.
    replace (0 + Z.of_nat (length (objects w)) <? 0)%Z with false
      by (symmetry; apply Z.ltb_ge; lia).
    replace (Z.to_nat _) with (length (objects w)) by lia.
    rewrite delete_last. destruct w; reflexivity. }
  rewrite E. auto.
Qed.

(** Adding object 3 to the list [1; 2] and removing it again. *)
Lemma C4_fresh_object_witness :
  Engine_remove 3 (Engine_add 3 (mkWorld ∅ [1; 2] Input.new)) =
  mkWorld ∅ [1; 2] Input.new.
Proof.
  refine (proj1 (C4_add_remove_restores (mkWorld ∅ [1; 2] Input.new) 3 _)).
  simpl. intros E. repeat (apply elem_of_cons in E as [E|E]; [discriminate|]).
  apply elem_of_nil in E. exact E.
Defined.

(** ** Running a frame *)

Section Runs.

Context {A B : Type}.

Lemma runs_ret (a : A) (w : World) (Q : A -> World -> list Event -> Prop) :
  Q a w [] -> runs (mret a) w Q.
Proof. intros HQ. exists a, w, []. auto. Qed.

Lemma runs_bind (m : M A) (f : A -> M B) (w : World)
    (Q : B -> World -> list Event -> Prop) :
  runs m w (fun a w1 t1 => runs (f a) w1 (fun b w2 t2 => Q b w2 (t1 ++ t2))) ->
  runs (m ≫= f) w Q.
Proof.
  intros (a & w1 & t1 & E1 & b & w2 & t2 & E2 & HQ).
  exists b, w2, (t1 ++ t2). unfold mbind, M_bind. rewrite E1, E2. auto.
Qed.

Lemma runs_mono (m : M A) (w : World) (P Q : A -> World -> list Event -> Prop) :
  runs m w P -> (forall a w' tr, P a w' tr -> Q a w' tr) -> runs m w Q.
Proof. intros (a & w' & tr & E & HP) HPQ. exists a, w', tr. auto. Qed.

End Runs.

Lemma runs_get (w : World) (Q : World -> World -> list Event -> Prop) :
  Q w w [] -> runs get w Q.
Proof. intros HQ. exists w, w, []. auto. Qed.

Lemma runs_modify (f : Effect) (w : World) (Q : unit -> World -> list Event -> Prop) :
  Q tt (f w) [] -> runs (modify f) w Q.
Proof. intros HQ. exists tt, (f w), []. auto. Qed.

Lemma runs_emit (e : Event) (w : World) (Q : unit -> World -> list Event -> Prop) :
  Q tt w [e] -> runs (emit e) w Q.
Proof. intros HQ. exists tt, w, [e]. auto. Qed.

(** ** Buttons *)

Section Buttons.

Variable H : Hooks.

(** With no click pending, [Button.update] does nothing. *)
Lemma Button_update_no_click (b : nat) (dt : float) (w : World) :
  Input.wasMouseClicked (input w) = false ->
  Button_update H b dt w = Some (tt, w, []).
Proof.
  intros Hc. unfold Button_update, mbind, M_bind, get. rewrite Hc. reflexivity.
Qed.

Lemma Button_update_miss (b : nat) (dt : float) (w : World) :
  Input.wasMouseClicked (input w) && Input.isMouseInside (input w) (heap w !!! b)
    = false ->
  Button_update H b dt w = Some (tt, w, []).
Proof.
  intros Hc. unfold Button_update, mbind, M_bind, get. rewrite Hc. reflexivity.
Qed.

Lemma Button_update_hit (b : nat) (dt : float) (w : World) (f : Effect) :
  callback H b w = Some f ->
  Input.wasMouseClicked (input w) && Input.isMouseInside (input w) (heap w !!! b)
    = true ->
  Button_update H b dt w =
  Some (tt, consume_click (f w), [EvCallback b; EvConsume]).
Proof.
  intros Hf Hc. unfold Button_update, mbind, M_bind, get. rewrite Hc, Hf.
  reflexivity.
Qed.

(** With no click pending and no [update] attached to an instance, the
    update pass over the rest of the list does nothing. *)
Lemma update_loop_no_click (dt : float) (w : World) :
  Input.wasMouseClicked (input w) = false ->
  (forall o, own_update H o w = Unset) ->
  forall fuel i, length (objects w) - i < fuel ->
  update_loop H fuel dt i w = Some (tt, w, []).
Proof.
  intros Hc Hown fuel. induction fuel as [|fuel IH]; intros i Hlen; [lia|].
  simpl. unfold mbind at 1, M_bind at 1, get at 1.
  destruct (objects w !! i) as [obj|] eqn:E; [|reflexivity].
  apply lookup_lt_Some in E.
  unfold update_of. rewrite Hown. unfold mbind, M_bind.
  assert (update_loop H fuel dt (S i) w = Some (tt, w, [])) as E2
    by (apply IH; lia).
  destruct (instanceof (heap w !!! obj) Button).
  - rewrite (Button_update_no_click obj dt w Hc), E2. reflexivity.
  - unfold GameObject_update, mret, M_ret. rewrite E2. reflexivity.
Qed.

End Buttons.

(** C5: [Button.update] fires the button's callback and consumes the
    click exactly when a click is pending and the mouse is inside the
    button: then the callback is called once, [consumeClick] follows it
    and [wasMouseClicked()] is false afterwards; otherwise nothing is
    called and nothing changes.  Once the click is consumed, the [update]
    of any button does nothing, and neither does the rest of an update
    pass whose objects use the [update] of their class: no later button
    fires for the same click. *)
Theorem C5_button_fires_once_and_consumes
    (H : Hooks) (this : nat) (dt : float) (w : World) (f : Effect) :
  callback H this w = Some f ->
  let hit := Input.wasMouseClicked (input w) &&
             Input.isMouseInside (input w) (heap w !!! this) in
  exists w' tr,
    Button_update H this dt w = Some (tt, w', tr) /\
    ((EvCallback this ∈ tr /\ EvConsume ∈ tr) <-> hit = true) /\
    (hit = true ->
       tr = [EvCallback this; EvConsume] /\ w' = consume_click (f w) /\
       Input.wasMouseClicked (input w') = false) /\
    (hit = false -> tr = [] /\ w' = w) /\
    (Input.wasMouseClicked (input w') = false ->
       (forall b dt', Button_update H b dt' w' = Some (tt, w', [])) /\
       ((forall o, own_update H o w' = Unset) ->
        forall fuel dt' i, length (objects w') - i < fuel ->
          update_loop H fuel dt' i w' = Some (tt, w', []))).
Proof.
  intros Hf hit.
  assert (forall w', Input.wasMouseClicked (input w') = false ->
    (forall b dt', Button_update H b dt' w' = Some (tt, w', [])) /\
    ((forall o, own_update H o w' = Unset) ->
     forall fuel dt' i, length (objects w') - i < fuel ->
       update_loop H fuel dt' i w' = Some (tt, w', []))) as Hlater.
  { intros w' Hc. split.
    - intros b dt'. apply Button_update_no_click. exact Hc.
    - intros Hown fuel dt' i. apply update_loop_no_click; assumption. }
  destruct hit eqn:Ehit.
  - exists (consume_click (f w)), [EvCallback this; EvConsume].
    split; [apply Button_update_hit; assumption|].
    split; [split; [reflexivity|intros _; split; repeat constructor]|].
    split; [intros _; repeat split|].
    split; [discriminate|]. apply Hlater.
  - exists w, [].
    split; [apply Button_update_miss; assumption|].
    split; [split; [intros [E _]; inversion E|discriminate]|].
    split; [discriminate|].
    split; [intros _; split; reflexivity|]. apply Hlater.
Qed.

(** The scenario of the specification: a button at [(0, 0)] of size 10 by
    10 and a click at [(5, 5)].  One [update] fires the callback once and
    leaves [wasMouseClicked()] false; the second button at the same place
    then does not fire. *)
Lemma C5_scenario_witness :
  exists w',
    Button_update Scenario.hooks 0 0 Scenario.world =
      Some (tt, w', [EvCallback 0; EvConsume]) /\
    Input.wasMouseClicked (input w') = false /\
    Button_update Scenario.hooks 1 0 w' = Some (tt, w', []).
Proof.
  destruct (C5_button_fires_once_and_consumes Scenario.hooks 0 0 Scenario.world
              (Demo.assign 0 (Demo.set_color "pressed")) eq_refl)
    as (w' & tr & E & _ & Hhit & _ & Hlater).
  assert (Input.wasMouseClicked (input Scenario.world) &&
          Input.isMouseInside (input Scenario.world) (heap Scenario.world !!! 0)
          = true) as Ehit by (vm_compute; reflexivity).
  destruct (Hhit Ehit) as (Etr & _ & Hc). subst tr.
  exists w'. split; [exact E|]. split; [exact Hc|].
  apply (Hlater Hc).
Defined.

(** An update pass whose objects use the [update] of their class fires at
    most one callback, whatever the callbacks do. *)
Lemma update_loop_no_click_only (H : Hooks) (dt : float) (w : World) :
  Input.wasMouseClicked (input w) = false ->
  (forall o, own_update H o w = Unset) ->
  forall fuel i r, update_loop H fuel dt i w = Some r -> r = (tt, w, []).
Proof.
  intros Hc Hown fuel. induction fuel as [|fuel IH]; intros i r; [discriminate|].
  simpl. unfold mbind at 1, M_bind at 1, get at 1.
  destruct (objects w !! i) as [obj|] eqn:E; [|intros [= <-]; reflexivity].
  unfold update_of. rewrite Hown. unfold mbind, M_bind.
  destruct (instanceof (heap w !!! obj) Button).
  - rewrite (Button_update_no_click H obj dt w Hc).
    destruct (update_loop H fuel dt (S i) w) as [r2|] eqn:E2; [|discriminate].
    apply IH in E2. subst r2. intros [= <-]. reflexivity.
  - unfold GameObject_update, mret, M_ret.
    destruct (update_loop H fuel dt (S i) w) as [r2|] eqn:E2; [|discriminate].
    apply IH in E2. subst r2. intros [= <-]. reflexivity.
Qed.

Lemma update_pass_fires_at_most_once (H : Hooks) (dt : float) :
  (forall o w, own_update H o w = Unset) ->
  forall fuel i w w' tr,
    update_loop H fuel dt i w = Some (tt, w', tr) -> length (fired tr) <= 1.
Proof.
  intros Hown fuel. induction fuel as [|fuel IH]; intros i w w' tr; [discriminate|].
  simpl. unfold mbind at 1, M_bind at 1, get at 1.
  destruct (objects w !! i) as [obj|] eqn:E; [|intros [= <- <-]; simpl; lia].
  unfold update_of. rewrite Hown. unfold mbind at 1, M_bind at 1.
  destruct (instanceof (heap w !!! obj) Button).
  - destruct (Input.wasMouseClicked (input w) &&
              Input.isMouseInside (input w) (heap w !!! obj)) eqn:Ehit.
    + assert (exists w1 t1, Button_update H obj dt w = Some (tt, w1, t1) /\
                Input.wasMouseClicked (input w1) = false /\ length (fired t1) <= 1)
        as (w1 & t1 & -> & Hc & Hlen).
      { unfold Button_update, mbind, M_bind, get. rewrite Ehit.
        destruct (callback H obj w) as [f|]; simpl; eauto 6. }
      destruct (update_loop H fuel dt (S i) w1) as [r2|] eqn:E2; [|discriminate].
      apply (update_loop_no_click_only H dt w1 Hc (fun o => Hown o w1)) in E2.
      subst r2. intros [= <- <-]. rewrite app_nil_r. exact Hlen.
    + rewrite (Button_update_miss H obj dt w Ehit).
      destruct (update_loop H fuel dt (S i) w) as [[[[] w2] t2]|] eqn:E2;
        [|discriminate].
      intros [= <- <-]. simpl. eapply IH. exact E2.
  - unfold GameObject_update, mret, M_ret.
    destruct (update_loop H fuel dt (S i) w) as [[[[] w2] t2]|] eqn:E2;
      [|discriminate].
    intros [= <- <-]. simpl. eapply IH. exact E2.
Qed.

(** ** The collision pass *)

Lemma elem_of_pairs (n i j : nat) : (i, j) ∈ pairs n <-> i < j < n.
Proof.
  unfold pairs, pairs_from. rewrite list_elem_of_bind. split.
  - intros (k & Hin & Hk). apply list_elem_of_fmap in Hin as (j' & [= -> ->] & Hj).
    apply elem_of_seq in Hj. apply elem_of_seq in Hk. lia.
  - intros Hij. exists i. split.
    + apply list_elem_of_fmap. exists j. split; [reflexivity|].
      apply elem_of_seq. lia.
    + apply elem_of_seq. lia.
Qed.

Lemma NoDup_pairs (n : nat) : NoDup (pairs n).
Proof.
  unfold pairs, pairs_from. apply NoDup_bind.
  - intros i1 i2 [a b] _ _ H1 H2.
    apply list_elem_of_fmap in H1 as (? & [= -> _] & _).
    apply list_elem_of_fmap in H2 as (? & [= -> _] & _). reflexivity.
  - intros i _. apply NoDup_fmap_2; [intros ? ? [= ->]; reflexivity|].
    apply NoDup_seq.
  - apply NoDup_seq.
Qed.

(** In a list without repetition an element is counted once or not at all. *)
Lemma count_NoDup (ps : list (nat * nat)) (p : nat * nat) :
  NoDup ps ->
  length (filter (λ q, q = p) ps) = if decide (p ∈ ps) then 1 else 0.
Proof.
  induction 1 as [|q ps Hq Hnd IH]; [reflexivity|].
  destruct (decide (q = p)) as [->|Hne].
  - rewrite filter_cons_True by reflexivity. simpl. rewrite IH.
    rewrite decide_False by assumption.
    rewrite decide_True by left. reflexivity.
  - rewrite filter_cons_False by assumption. rewrite IH.
    destruct (decide (p ∈ ps)) as [Hin|Hin].
    + rewrite decide_True by (right; assumption). reflexivity.
    + rewrite decide_False; [reflexivity|].
      intros [->|?]%elem_of_cons; [congruence|contradiction].
Qed.

Lemma count_checks_twice (l : list nat) (ps : list (nat * nat)) (p : nat * nat) :
  length (filter (λ c : nat * nat * (nat * nat), c.1 = p) (ps ≫= checks_twice l)) =
  2 * length (filter (λ q, q = p) ps).
Proof.
  induction ps as [|q ps IH]; [reflexivity|].
  rewrite bind_cons, filter_app, length_app, IH. unfold checks_twice.
  destruct (decide (q = p)) as [->|Hne].
  - rewrite (filter_cons_True _ p ps) by reflexivity.
    rewrite !filter_cons_True by reflexivity. simpl. lia.
  - rewrite (filter_cons_False _ q ps) by assumption.
    rewrite !filter_cons_False by assumption. simpl. lia.
Qed.

(** Each pair of indices [i < j] is counted twice in [expected_checks],
    every other pair not at all. *)
Lemma count_expected_checks (l : list nat) (i j : nat) :
  length (filter (λ c : nat * nat * (nat * nat), c.1 = (i, j)) (expected_checks l)) =
  if decide (i < j < length l) then 2 else 0.
Proof.
  unfold expected_checks. rewrite count_checks_twice.
  rewrite count_NoDup by apply NoDup_pairs.
  destruct (decide (i < j < length l)) as [Hij|Hij].
  - rewrite decide_True by (apply elem_of_pairs; assumption). reflexivity.
  - rewrite decide_False by (rewrite elem_of_pairs; assumption). reflexivity.
Qed.

Lemma check_calls_app (t1 t2 : list Event) :
  check_calls (t1 ++ t2) = check_calls t1 ++ check_calls t2.
Proof. apply omap_app. Qed.

Section Collisions.

Variable H : Hooks.
Hypothesis Hkeep : hooks_keep_list H.

Lemma call_onCollision_quiet (self other : nat) (w : World) :
  runs (call_onCollision H self other) w (quiet (objects w)).
Proof.
  unfold call_onCollision. apply runs_bind, runs_get.
  destruct (onCollision H self w) as [f|] eqn:E.
  - apply runs_bind, runs_emit, runs_modify. split; [|reflexivity].
    apply (onCollision_keeps H Hkeep self w f other E).
  - apply runs_ret. split; reflexivity.
Qed.

Lemma call_checkCollision_runs (i j a b : nat) (w : World) :
  runs (call_checkCollision i j a b) w
    (fun _ w' tr => w' = w /\ check_calls tr = [(i, j, (a, b))]).
Proof.
  unfold call_checkCollision. apply runs_bind, runs_get.
  apply runs_bind, runs_emit, runs_ret. split; reflexivity.
Qed.

Lemma collide_pair_runs (i j a b : nat) (w : World) :
  objects w !! i = Some a -> objects w !! j = Some b ->
  runs (collide_pair H i j) w
    (fun _ w' tr => objects w' = objects w /\
                    check_calls tr = checks_twice (objects w) (i, j)).
Proof.
  intros Ea Eb. unfold collide_pair. apply runs_bind, runs_get.
  rewrite Ea, Eb. unfold checks_twice. simpl.
  rewrite (list_lookup_total_correct _ _ _ Ea), (list_lookup_total_correct _ _ _ Eb).
  apply runs_bind. eapply runs_mono; [apply call_checkCollision_runs|].
  intros c1 w1 t1 [-> Ht1]. cbv beta.
  apply runs_bind.
  eapply runs_mono with (P := quiet (objects w)).
  { destruct c1; [apply call_onCollision_quiet|apply runs_ret; split; reflexivity]. }
  intros [] w2 t2 [Hw2 Ht2]. cbv beta.
  apply runs_bind. eapply runs_mono; [apply call_checkCollision_runs|].
  intros c2 w3 t3 [-> Ht3]. cbv beta.
  eapply runs_mono with (P := quiet (objects w2)).
  { destruct c2; [apply call_onCollision_quiet|apply runs_ret; split; reflexivity]. }
  intros [] w4 t4 [Hw4 Ht4]. split; [congruence|].
  rewrite !check_calls_app, Ht1, Ht2, Ht3, Ht4. reflexivity.
Qed.

Lemma inner_loop_runs (l : list nat) (i : nat) :
  forall k fuel j w,
    objects w = l -> i < j -> j + k = length l -> k < fuel ->
    runs (inner_loop H fuel i j) w
      (fun _ w' tr => objects w' = l /\
         check_calls tr = (pair i <$> seq j k) ≫= checks_twice l).
Proof.
  induction k as [|k IH]; intros fuel j w Hl Hij Hjk Hfuel;
    (destruct fuel as [|fuel]; [lia|]); simpl; apply runs_bind, runs_get.
  - replace (j <? length (objects w)) with false
      by (symmetry; apply Nat.ltb_ge; rewrite Hl; lia).
    apply runs_ret. split; [assumption|reflexivity].
  - replace (j <? length (objects w)) with true
      by (symmetry; apply Nat.ltb_lt; rewrite Hl; lia).
    destruct (lookup_lt_is_Some_2 (objects w) i) as [a Ea]; [rewrite Hl; lia|].
    destruct (lookup_lt_is_Some_2 (objects w) j) as [b Eb]; [rewrite Hl; lia|].
    apply runs_bind. eapply runs_mono; [apply (collide_pair_runs i j a b w Ea Eb)|].
    intros [] w1 t1 [Hw1 Ht1]. cbv beta.
    eapply runs_mono; [apply (IH fuel (S j) w1); [congruence|lia|lia|lia]|].
    intros [] w2 t2 [Hw2 Ht2]. split; [assumption|].
    rewrite !check_calls_app, Ht1, Ht2, Hl. reflexivity.
Qed.

Lemma outer_loop_runs (l : list nat) :
  forall k fuel i w,
    objects w = l -> i + k = length l -> k < fuel ->
    runs (outer_loop H fuel i) w
      (fun _ w' tr => objects w' = l /\
         check_calls tr = (seq i k ≫= pairs_from (length l)) ≫= checks_twice l).
Proof.
  induction k as [|k IH]; intros fuel i w Hl Hik Hfuel;
    (destruct fuel as [|fuel]; [lia|]); simpl; apply runs_bind, runs_get.
  - replace (i <? length (objects w)) with false
      by (symmetry; apply Nat.ltb_ge; rewrite Hl; lia).
    apply runs_ret. split; [assumption|reflexivity].
  - replace (i <? length (objects w)) with true
      by (symmetry; apply Nat.ltb_lt; rewrite Hl; lia).
    apply runs_bind.
    eapply runs_mono;
      [apply (inner_loop_runs l i (length l - S i) fuel (S i) w); [assumption|lia|lia|lia]|].
    intros [] w1 t1 [Hw1 Ht1]. cbv beta.
    eapply runs_mono; [apply (IH fuel (S i) w1); [assumption|lia|lia]|].
    intros [] w2 t2 [Hw2 Ht2]. split; [assumption|].
    rewrite !check_calls_app, Ht1, Ht2. simpl. rewrite bind_app. reflexivity.
Qed.

Lemma Button_update_quiet (this : nat) (dt : float) (w : World) :
  runs (Button_update H this dt) w (quiet (objects w)).
Proof.
  unfold Button_update. apply runs_bind, runs_get.
  destruct (_ && _); [|apply runs_ret; split; reflexivity].
  apply runs_bind.
  eapply runs_mono with (P := quiet (objects w)).
  { destruct (callback H this w) as [f|] eqn:E.
    - apply runs_bind, runs_emit, runs_modify. split; [|reflexivity].
      apply (callback_keeps H Hkeep this w f E).
    - apply runs_ret. split; reflexivity. }
  intros [] w1 t1 [Hw1 Ht1]. cbv beta.
  apply runs_bind, runs_emit, runs_modify. split; [exact Hw1|].
  rewrite !check_calls_app, Ht1. reflexivity.
Qed.

Lemma update_of_quiet (obj : nat) (dt : float) (w : World) (g : float -> M unit) :
  update_of H obj w = Some g -> runs (g dt) w (quiet (objects w)).
Proof.
  unfold update_of. destruct (own_update H obj w) as [| |f] eqn:E.
  - destruct (instanceof _ _); intros [= <-].
    + apply Button_update_quiet.
    + apply runs_ret. split; reflexivity.
  - discriminate.
  - intros [= <-]. apply runs_modify. split; [|reflexivity].
    apply (update_keeps H Hkeep obj w f dt E).
Qed.

Lemma update_loop_quiet (dt : float) (l : list nat) :
  forall k fuel i w,
    objects w = l -> length l <= i + k -> k < fuel ->
    runs (update_loop H fuel dt i) w (quiet l).
Proof.
  induction k as [|k IH]; intros fuel i w Hl Hik Hfuel;
    (destruct fuel as [|fuel]; [lia|]); simpl; apply runs_bind, runs_get.
  - rewrite (lookup_ge_None_2 (objects w) i) by (rewrite Hl; lia).
    apply runs_ret. split; [assumption|reflexivity].
  - destruct (objects w !! i) as [obj|] eqn:E;
      [|apply runs_ret; split; [assumption|reflexivity]].
    apply runs_bind.
    eapply runs_mono with (P := quiet l).
    { destruct (update_of H obj w) as [g|] eqn:Eg.
      - rewrite <- Hl. apply (update_of_quiet obj dt w g Eg).
      - apply runs_ret. split; [assumption|reflexivity]. }
    intros [] w1 t1 [Hw1 Ht1]. cbv beta.
    eapply runs_mono; [apply (IH fuel (S i) w1); [assumption|lia|lia]|].
    intros [] w2 t2 [Hw2 Ht2]. split; [assumption|].
    rewrite !check_calls_app, Ht1, Ht2. reflexivity.
Qed.

Lemma Engine_update_runs (fuel : nat) (dt : float) (w : World) :
  length (objects w) < fuel ->
  runs (Engine_update H fuel dt) w
    (fun _ w' tr => objects w' = objects w /\
                    check_calls tr = expected_checks (objects w)).
Proof.
  intros Hfuel. unfold Engine_update. apply runs_bind.
  eapply runs_mono;
    [apply (update_loop_quiet dt (objects w) (length (objects w)) fuel 0 w);
       [reflexivity|lia|lia]|].
  intros [] w1 t1 [Hw1 Ht1]. cbv beta.
  eapply runs_mono;
    [apply (outer_loop_runs (objects w) (length (objects w)) fuel 0 w1);
       [assumption|lia|lia]|].
  intros [] w2 t2 [Hw2 Ht2]. split; [assumption|].
  rewrite !check_calls_app, Ht1, Ht2. reflexivity.
Qed.

End Collisions.

(** C3 does not hold of [Engine.update]: in one frame over the rectangle
    and the circle of the specification's scenario, with no function
    attached, [checkCollision] is called two times for the one pair of
    indices [(0, 1)], not once.  The collision loops of the example's
    replacement of [update], run on the same world, call it once.  The
    second call of [Engine.update] sees what the first handler did: when
    the rectangle's handler moves it away, the second call answers false
    and the circle is not told of a collision that the first call found,
    where the replacement tells both. *)
Theorem C3_update_checks_pair_twice :
  (exists w' tr,
     Engine_update no_hooks 3 0 Scenario.overlap = Some (tt, w', tr) /\
     tr = [EvCheck 0 1 0 1 true; EvCheck 0 1 0 1 true] /\
     count_checks 0 1 tr = 2) /\
  (exists w' tr,
     DemoFrame.outer_loop_once no_hooks 3 0 Scenario.overlap = Some (tt, w', tr) /\
     tr = [EvCheck 0 1 0 1 true] /\
     count_checks 0 1 tr = 1) /\
  (exists w',
     Engine_update Scenario.evasive 3 0 Scenario.overlap =
     Some (tt, w', [EvCheck 0 1 0 1 true; EvOnCollision 0 1; EvCheck 0 1 0 1 false])) /\
  (exists w',
     DemoFrame.outer_loop_once Scenario.evasive 3 0 Scenario.overlap =
     Some (tt, w', [EvCheck 0 1 0 1 true; EvOnCollision 0 1; EvOnCollision 1 0])).
Proof.
  split; [|split; [|split]].
  - eexists _, _. vm_compute. repeat split.
  - eexists _, _. vm_compute. repeat split.
  - eexists. vm_compute. reflexivity.
  - eexists. vm_compute. reflexivity.
Qed.

(** X17: when the attached functions leave the list as it is, a call of
    [Engine.update] returns and has called [checkCollision] exactly twice
    for each pair of indices [i < j] of the list, in loop order and both
    times on the objects at [i] and [j], and for no other arguments. *)
Theorem X17_each_pair_checked_twice
    (H : Hooks) (fuel : nat) (dt : float) (w : World) :
  hooks_keep_list H ->
  length (objects w) < fuel ->
  exists w' tr,
    Engine_update H fuel dt w = Some (tt, w', tr) /\
    objects w' = objects w /\
    check_calls tr = expected_checks (objects w) /\
    (forall i j, count_checks i j tr =
                 if decide (i < j < length (objects w)) then 2 else 0) /\
    (forall i j a b, (i, j, (a, b)) ∈ check_calls tr ->
       i < j < length (objects w) /\
       objects w !! i = Some a /\ objects w !! j = Some b).
Proof.
  intros Hkeep Hfuel.
  destruct (Engine_update_runs H Hkeep fuel dt w Hfuel)
    as ([] & w' & tr & E & Hw' & Htr).
  exists w', tr. split; [exact E|]. split; [exact Hw'|]. split; [exact Htr|].
  split.
  - intros i j. unfold count_checks. rewrite Htr. apply count_expected_checks.
  - intros i j a b. rewrite Htr. unfold expected_checks.
    intros ([i' j'] & Hc & Hp)%list_elem_of_bind.
    apply elem_of_pairs in Hp. unfold checks_twice in Hc. simpl in Hc.
    assert ((i, j, (a, b)) = (i', j', (objects w !!! i', objects w !!! j'))) as [= -> -> -> ->].
    { repeat (apply elem_of_cons in Hc as [Hc|Hc]; [exact Hc|]).
      apply elem_of_nil in Hc. contradiction. }
    split; [exact Hp|].
    split; apply list_lookup_lookup_total_lt; lia.
Qed.

Lemma Demo_hooks_keep_list : hooks_keep_list Demo.hooks.
Proof.
  split.
  - intros o w f dt. simpl. destruct (decide (o = Demo.rect)); [|discriminate].
    intros [= <-] w0. unfold Demo.rect_update.
    repeat (destruct (Input.isKeyDown _ _)); reflexivity.
  - intros o w f. simpl. destruct (decide (o = Demo.button)); [|discriminate].
    intros [= <-] w0. reflexivity.
  - intros o w f other. simpl. destruct (decide (o = Demo.rect)); [|discriminate].
    intros [= <-] w0. unfold Demo.rect_onCollision.
    destruct (decide (other = Demo.circle)); reflexivity.
Qed.

(** A frame of the example of the source, with the rectangle moved onto
    the circle: the pair rectangle, circle is checked twice, and the pair
    in the other order never. *)
Lemma X17_demo_frame_witness :
  exists w' tr,
    Engine_update Demo.hooks 5 0 (Demo.world 180 130 Input.new) = Some (tt, w', tr) /\
    count_checks Demo.rect Demo.circle tr = 2 /\
    count_checks Demo.circle Demo.rect tr = 0.
Proof.
  destruct (X17_each_pair_checked_twice Demo.hooks 5 0 (Demo.world 180 130 Input.new)
              Demo_hooks_keep_list)
    as (w' & tr & E & _ & _ & Hcount & _).
  - simpl. lia.
  - exists w', tr. split; [exact E|]. rewrite !Hcount. split; reflexivity.
Defined.

(** * Further properties *)

(** ** Event sequences *)

(** X1: after any sequence of events, [isKeyDown(k)] is decided by the
    last [keydown] or [keyup] of [k] in it, and is what it was before when
    the sequence has none: repeated [keydown]s, events of other keys and
    mouse events make no difference. *)
Theorem X1_key_state_is_last_key_event
    (evs : list Input.event) (s : Input.state) (k : string) :
  Input.isKeyDown (deliver evs s) k = key_after k evs (Input.isKeyDown s k).
Proof.
  revert s. induction evs as [|e evs IH]; intros s; [reflexivity|].
  simpl. fold (deliver evs (Input.handle e s)). rewrite IH.
  destruct e as [k'|k'| | |]; simpl; try reflexivity; f_equal;
    unfold Input.isKeyDown; simpl.
  - destruct (decide (k' = k)) as [->|Hne].
    + apply bool_decide_eq_true, elem_of_union. left.
      apply elem_of_singleton. reflexivity.
    + apply bool_decide_ext. rewrite elem_of_union, elem_of_singleton.
      split; [intros [E|E]; [congruence|exact E]|auto].
  - destruct (decide (k' = k)) as [->|Hne].
    + apply bool_decide_eq_false. rewrite elem_of_difference, elem_of_singleton.
      intros [_ E]. apply E. reflexivity.
    + apply bool_decide_ext. rewrite elem_of_difference, elem_of_singleton.
      split; [intros [E _]; exact E|intros E; split; [exact E|congruence]].
Qed.

(** X2: after any sequence of events, [isMouseDown()] is decided by the
    last [mousedown] or [mouseup]; [wasMouseClicked()] is true when it was
    true before or the sequence has a [mousedown], so a release does not
    take the click back; and the position is that of the last
    [mousemove]. *)
Theorem X2_mouse_state_after_events (evs : list Input.event) (s : Input.state) :
  Input.isMouseDown (deliver evs s) = button_after evs (Input.isMouseDown s) /\
  Input.wasMouseClicked (deliver evs s) =
    Input.wasMouseClicked s || existsb is_mousedown evs /\
  (Input.mouse_x (Input.mouse (deliver evs s)),
   Input.mouse_y (Input.mouse (deliver evs s))) =
    position_after evs (Input.mouse_x (Input.mouse s), Input.mouse_y (Input.mouse s)).
Proof.
  revert s. induction evs as [|e evs IH]; intros s.
  - simpl. rewrite orb_false_r. auto.
  - simpl. fold (deliver evs (Input.handle e s)).
    destruct (IH (Input.handle e s)) as (-> & -> & ->).
    destruct e; simpl; repeat split; try reflexivity.
    + rewrite orb_true_r. reflexivity.
Qed.

(** ** Degenerate sizes *)

(** X3: [isMouseInside] reads a [width] that is absent, zero or NaN as 0:
    the mouse is then inside only when [mouse.x] equals [obj.x], and the
    vertical test is unaffected.  The same holds for [height]. *)
Theorem X3_falsy_size_is_zero (s : Input.state) (obj : Obj) :
  let mx := Input.mouse_x (Input.mouse s) in
  let my := Input.mouse_y (Input.mouse s) in
  (JS.truthy (width obj) = false ->
     Input.isMouseInside s obj =
     (mx =? x obj)%float && JS.geb my (y obj) &&
     (my <=? y obj + JS.or_default (height obj) 0)%float) /\
  (JS.truthy (height obj) = false ->
     Input.isMouseInside s obj =
     JS.geb mx (x obj) && (mx <=? x obj + JS.or_default (width obj) 0)%float &&
     (my =? y obj)%float).
Proof.
  intros mx my. unfold Input.isMouseInside, JS.or_default, JS.geb.
  fold mx my. split; intros ->.
  - rewrite IEEE.leb_add_zero, IEEE.leb_antisym_eqb. reflexivity.
  - rewrite IEEE.leb_add_zero, <- IEEE.leb_antisym_eqb, !andb_assoc. reflexivity.
Qed.

(** A rectangle of width 0: inside on its left edge, outside beside it. *)
Lemma X3_zero_width_witness :
  Input.isMouseInside (Input.handle (Input.mousemove 10 15 0 0) Input.new)
    (new_Rectangle 10 10 0 20 "white") = true /\
  Input.isMouseInside (Input.handle (Input.mousemove 11 15 0 0) Input.new)
    (new_Rectangle 10 10 0 20 "white") = false.
Proof.
  split.
  - rewrite (proj1 (X3_falsy_size_is_zero _ (new_Rectangle 10 10 0 20 "white")));
      reflexivity.
  - rewrite (proj1 (X3_falsy_size_is_zero _ (new_Rectangle 10 10 0 20 "white")));
      reflexivity.
Defined.

(** ** Removing objects *)

Lemma indexOf_from_first (obj : nat) (l1 l2 : list nat) (k : Z) :
  obj ∉ l1 ->
  indexOf_from obj (l1 ++ obj :: l2) k = (k + Z.of_nat (length l1))%Z.
Proof.
  revert k. induction l1 as [|o l1 IH]; intros k Hno; simpl.
  - rewrite decide_True by reflexivity. lia.
  - apply not_elem_of_cons in Hno as [Hne Hno].
    rewrite decide_False by congruence. rewrite IH by assumption. lia.
Qed.

Lemma delete_middle (l1 l2 : list nat) (obj : nat) :
  delete (length l1) (l1 ++ obj :: l2) = l1 ++ l2.
Proof. induction l1 as [|o l1 IH]; simpl; [reflexivity|]. f_equal. exact IH. Qed.

(** X4: [remove] takes out the first occurrence of the object and nothing
    else: the objects before and after it keep their order, later
    occurrences of the same object stay, and the heap and the input are
    untouched.  When the object is not in the list, [remove] changes
    nothing. *)
Theorem X4_remove_first_occurrence (w : World) (obj : nat) :
  (forall l1 l2, objects w = l1 ++ obj :: l2 -> obj ∉ l1 ->
     Engine_remove obj w = mkWorld (heap w) (l1 ++ l2) (input w)) /\
  (obj ∉ objects w -> Engine_remove obj w = w).
Proof.
  split; [|apply Engine_remove_absent].
  intros l1 l2 El Hno. unfold Engine_remove, indexOf. rewrite El.
  rewrite indexOf_from_first by assumption.
  replace (negb (0 + Z.of_nat (length l1) =? -1)%Z) with true
    by (symmetry; apply negb_true_iff, Z.eqb_neq; lia).
  unfold splice1. rewrite length_app. simpl.
  replace (0 + Z.of_nat (length l1) <? 0)%Z with false
    by (symmetry; apply Z.ltb_ge; lia).
  replace (Z.to_nat _) with (length l1) by lia.
  rewrite delete_middle. reflexivity.
Qed.

(** Object 2 occurs twice: the first occurrence goes, the second stays. *)
Lemma X4_remove_witness :
  Engine_remove 2 (mkWorld ∅ [1; 2; 3; 2] Input.new) = mkWorld ∅ [1; 3; 2] Input.new /\
  Engine_remove 7 (mkWorld ∅ [1; 2; 3; 2] Input.new) = mkWorld ∅ [1; 2; 3; 2] Input.new.
Proof.
  split.
  - refine (proj1 (X4_remove_first_occurrence (mkWorld ∅ [1; 2; 3; 2] Input.new) 2)
              [1] [3; 2] eq_refl _).
    intros E. apply elem_of_cons in E as [E|E]; [discriminate|].
    apply elem_of_nil in E. exact E.
  - refine (proj2 (X4_remove_first_occurrence (mkWorld ∅ [1; 2; 3; 2] Input.new) 7) _).
    simpl. intros E. repeat (apply elem_of_cons in E as [E|E]; [discriminate|]).
    apply elem_of_nil in E. exact E.
Defined.

(** ** The update pass and clicks *)

Section UpdatePass.

Variable H : Hooks.

Lemma Button_update_click (b : nat) (dt : float) (w : World) :
  Input.wasMouseClicked (input w) = true ->
  Input.isMouseInside (input w) (heap w !!! b) = true ->
  Button_update H b dt w =
  Some (tt, (click_outcome H b w).1, (click_outcome H b w).2).
Proof.
  intros Hc Hin. unfold Button_update, click_outcome, mbind, M_bind, get.
  rewrite Hc, Hin. destruct (callback H b w); reflexivity.
Qed.

Lemma click_outcome_consumed (b : nat) (w : World) :
  Input.wasMouseClicked (input (click_outcome H b w).1) = false.
Proof. unfold click_outcome. destruct (callback H b w); reflexivity. Qed.

(** An object that is not a button under the mouse is passed over. *)
Lemma update_loop_pass_over (fuel : nat) (dt : float) (i o : nat) (w : World) :
  own_update H o w = Unset ->
  objects w !! i = Some o ->
  button_under_mouse w o = false ->
  update_loop H (S fuel) dt i w = update_loop H fuel dt (S i) w.
Proof.
  intros Hown Ho Hmiss. simpl. unfold mbind at 1, M_bind at 1, get at 1.
  rewrite Ho. unfold update_of. rewrite Hown. unfold mbind, M_bind.
  unfold button_under_mouse in Hmiss.
  destruct (instanceof (heap w !!! o) Button).
  - rewrite Button_update_miss
      by (simpl in Hmiss; rewrite Hmiss; apply andb_false_r).
    destruct (update_loop H fuel dt (S i) w) as [[[[] w2] t2]|]; reflexivity.
  - unfold GameObject_update, mret, M_ret.
    destruct (update_loop H fuel dt (S i) w) as [[[[] w2] t2]|]; reflexivity.
Qed.

Lemma update_loop_no_hit (dt : float) (w : World) :
  (forall o, own_update H o w = Unset) ->
  forall n fuel i,
    length (objects w) <= i + n -> n < fuel ->
    (forall k o, i <= k -> objects w !! k = Some o -> button_under_mouse w o = false) ->
    update_loop H fuel dt i w = Some (tt, w, []).
Proof.
  intros Hown. induction n as [|n IH]; intros fuel i Hlen Hfuel Hmiss;
    (destruct fuel as [|fuel]; [lia|]).
  - simpl. unfold mbind, M_bind, get.
    rewrite (lookup_ge_None_2 (objects w) i) by lia. reflexivity.
  - destruct (objects w !! i) as [o|] eqn:Ho.
    + rewrite (update_loop_pass_over fuel dt i o w (Hown o) Ho) by eauto.
      apply IH; [lia|lia|]. intros k o' Hk. apply Hmiss. lia.
    + simpl. unfold mbind, M_bind, get. rewrite Ho. reflexivity.
Qed.

Lemma update_loop_first_hit (dt : float) (w : World) (b : nat) :
  (forall o, own_update H o w = Unset) ->
  (forall o, own_update H o (click_outcome H b w).1 = Unset) ->
  Input.wasMouseClicked (input w) = true ->
  button_under_mouse w b = true ->
  forall n fuel i,
    objects w !! (i + n) = Some b ->
    (forall k o, i <= k < i + n -> objects w !! k = Some o ->
                 button_under_mouse w o = false) ->
    n + 1 < fuel ->
    length (objects (click_outcome H b w).1) < fuel + i ->
    update_loop H fuel dt i w =
    Some (tt, (click_outcome H b w).1, (click_outcome H b w).2).
Proof.
  intros Hown Hown1 Hc Hb.
  induction n as [|n IH]; intros fuel i Hat Hmiss Hfuel Hlen1;
    (destruct fuel as [|fuel]; [lia|]).
  - rewrite Nat.add_0_r in Hat. simpl.
    unfold mbind at 1, M_bind at 1, get at 1. rewrite Hat.
    unfold update_of. rewrite Hown. unfold mbind, M_bind.
    unfold button_under_mouse in Hb. apply andb_true_iff in Hb as [Hcls Hin].
    rewrite Hcls, (Button_update_click b dt w Hc Hin).
    rewrite (update_loop_no_click H dt _ (click_outcome_consumed b w) Hown1)
      by lia.
    rewrite app_nil_r. reflexivity.
  - destruct (objects w !! i) as [o|] eqn:Ho.
    + rewrite (update_loop_pass_over fuel dt i o w (Hown o) Ho)
        by (apply (Hmiss i o); [lia|exact Ho]).
      apply IH; [rewrite <- Hat; f_equal; lia| |lia|lia].
      intros k o' Hk. apply Hmiss. lia.
    + apply lookup_ge_None_1 in Ho. apply lookup_lt_Some in Hat. lia.
Qed.

End UpdatePass.

(** X5: in an update pass whose objects use the [update] of their class,
    the first button in list order that is under the mouse takes a
    pending click: its callback, if it has one, is the only one called,
    the click is consumed, and every button after it in the list is left
    alone, also those under the mouse. *)
Theorem X5_first_button_under_mouse_wins
    (H : Hooks) (fuel : nat) (dt : float) (w : World) (n b : nat) :
  (forall o, own_update H o w = Unset) ->
  (forall o, own_update H o (click_outcome H b w).1 = Unset) ->
  Input.wasMouseClicked (input w) = true ->
  objects w !! n = Some b ->
  button_under_mouse w b = true ->
  (forall k o, k < n -> objects w !! k = Some o -> button_under_mouse w o = false) ->
  length (objects w) < fuel ->
  length (objects (click_outcome H b w).1) < fuel ->
  update_loop H fuel dt 0 w =
    Some (tt, (click_outcome H b w).1, (click_outcome H b w).2) /\
  Input.wasMouseClicked (input (click_outcome H b w).1) = false.
Proof.
  intros Hown Hown1 Hc Hat Hb Hmiss Hfuel Hfuel1.
  split; [|apply click_outcome_consumed].
  apply (update_loop_first_hit H dt w b Hown Hown1 Hc Hb n fuel 0);
    [exact Hat| |apply lookup_lt_Some in Hat; lia|lia].
  intros k o [_ Hk]. apply Hmiss. exact Hk.
Qed.

(** The click at [(50, 45)] is on the second and the third button of the
    menu: the second one fires, the third does not. *)
Lemma X5_menu_witness :
  update_loop Scenario.hooks 4 0 0 Menu.world =
  Some (tt, (click_outcome Scenario.hooks 1 Menu.world).1, [EvCallback 1; EvConsume]).
Proof.
  refine (proj1 (X5_first_button_under_mouse_wins Scenario.hooks 4 0 Menu.world 1 1
                   (fun _ => eq_refl) (fun _ => eq_refl) eq_refl eq_refl _ _ _ _)).
  - vm_compute. reflexivity.
  - intros [|k] o Hk; [intros [= <-]; vm_compute; reflexivity|lia].
  - simpl. lia.
  - simpl. lia.
Defined.

(** X6: a click that is on no button is not consumed: an update pass
    whose objects use the [update] of their class returns with the world
    unchanged and the click still pending, so the click stays pending from
    frame to frame until the mouse is over a button. *)
Theorem X6_missed_click_stays_pending
    (H : Hooks) (fuel : nat) (dt : float) (w : World) :
  (forall o, own_update H o w = Unset) ->
  (forall o, o ∈ objects w -> button_under_mouse w o = false) ->
  length (objects w) < fuel ->
  update_loop H fuel dt 0 w = Some (tt, w, []).
Proof.
  intros Hown Hmiss Hfuel.
  apply (update_loop_no_hit H dt w Hown (length (objects w))); [lia|lia|].
  intros k o _ Ho. apply Hmiss. apply list_elem_of_lookup. eauto.
Qed.

(** The click at [(50, 25)] falls between the buttons of the menu. *)
Lemma X6_menu_witness :
  update_loop Scenario.hooks 4 0 0 Menu.world_missed = Some (tt, Menu.world_missed, []) /\
  Input.wasMouseClicked (input Menu.world_missed) = true.
Proof.
  split; [|reflexivity].
  apply (X6_missed_click_stays_pending Scenario.hooks 4 0 Menu.world_missed
           (fun _ => eq_refl)).
  - intros o Ho. simpl in Ho.
    repeat (apply elem_of_cons in Ho as [->|Ho]; [vm_compute; reflexivity|]).
    apply elem_of_nil in Ho. contradiction.
  - simpl. lia.
Defined.

(** X7: an update pass whose objects use the [update] of their class
    calls at most one callback, whatever the callbacks do to the world
    and to the list. *)
Theorem X7_one_callback_per_update_pass
    (H : Hooks) (fuel : nat) (dt : float) (i : nat) (w w' : World) (tr : list Event) :
  (forall o w0, own_update H o w0 = Unset) ->
  update_loop H fuel dt i w = Some (tt, w', tr) ->
  length (fired tr) <= 1.
Proof.
  intros Hown E. exact (update_pass_fires_at_most_once H dt Hown fuel i w w' tr E).
Qed.

(** Both buttons of the scenario are under the click; one callback runs. *)
Lemma X7_scenario_witness :
  exists w' tr,
    update_loop Scenario.hooks 3 0 0 Scenario.world = Some (tt, w', tr) /\
    length (fired tr) <= 1.
Proof.
  eexists _, _. split; [vm_compute; reflexivity|].
  refine (X7_one_callback_per_update_pass Scenario.hooks 3 0 0 Scenario.world _ _
            (fun _ _ => eq_refl) _).
  vm_compute. reflexivity.
Defined.

(** ** Collision notifications *)

Lemma bind_Some {A B} (m : M A) (f : A -> M B) (w : World) (r : B * World * list Event) :
  (m ≫= f) w = Some r ->
  exists a w1 t1 b w2 t2,
    m w = Some (a, w1, t1) /\ f a w1 = Some (b, w2, t2) /\ r = (b, w2, t1 ++ t2).
Proof.
  unfold mbind, M_bind. destruct (m w) as [[[a w1] t1]|]; [|discriminate].
  destruct (f a w1) as [[[b w2] t2]|] eqn:E; [|discriminate].
  intros [= <-]. exists a, w1, t1, b, w2, t2. repeat split. exact E.
Qed.

Lemma justified_app (t1 t2 : list Event) (prev : option Event) :
  justified prev t1 = true -> self_justified t2 -> justified prev (t1 ++ t2) = true.
Proof.
  revert prev. induction t1 as [|e t1 IH]; intros prev H1 H2; simpl.
  - apply H2.
  - simpl in H1. apply andb_true_iff in H1 as [-> H1]. simpl. auto.
Qed.

Lemma self_justified_app (t1 t2 : list Event) :
  self_justified t1 -> self_justified t2 -> self_justified (t1 ++ t2).
Proof. intros H1 H2 prev. apply justified_app; auto. Qed.

Lemma self_justified_nil : self_justified [].
Proof. intros prev. reflexivity. Qed.

Lemma self_justified_calm (tr : list Event) :
  notifications tr = [] -> self_justified tr.
Proof.
  induction tr as [|e tr IH]; intros Hn prev; [reflexivity|].
  destruct e; try discriminate Hn; simpl; apply IH; exact Hn.
Qed.

Lemma notifications_app (t1 t2 : list Event) :
  notifications (t1 ++ t2) = notifications t1 ++ notifications t2.
Proof. apply omap_app. Qed.

Section Notifications.

Variable H : Hooks.

Lemma collide_pair_justified (i j : nat) (w w' : World) (tr : list Event) :
  collide_pair H i j w = Some (tt, w', tr) -> self_justified tr.
Proof.
  unfold collide_pair, call_checkCollision, call_onCollision.
  unfold mbind, M_bind, get, emit, modify, mret, M_ret.
  destruct (objects w !! i) as [a|]; [|intros [= <- <-]; apply self_justified_nil].
  destruct (objects w !! j) as [b|]; [|intros [= <- <-]; apply self_justified_nil].
  destruct (checkCollision (heap w !!! a) (heap w !!! b)) eqn:C1.
  - destruct (onCollision H a w) as [f|].
    + destruct (checkCollision (heap (f b w) !!! a) (heap (f b w) !!! b)).
      * destruct (onCollision H b (f b w)); intros [= <- <-] prev; simpl;
          rewrite !Nat.eqb_refl; simpl; rewrite ?orb_true_r; reflexivity.
      * intros [= <- <-] prev; simpl; rewrite !Nat.eqb_refl; reflexivity.
    + rewrite C1.
      destruct (onCollision H b w); intros [= <- <-] prev; simpl;
        rewrite ?Nat.eqb_refl; simpl; rewrite ?orb_true_r; reflexivity.
  - rewrite C1. intros [= <- <-] prev. reflexivity.
Qed.

Lemma inner_loop_justified (fuel i j : nat) (w w' : World) (tr : list Event) :
  inner_loop H fuel i j w = Some (tt, w', tr) -> self_justified tr.
Proof.
  revert j w w' tr. induction fuel as [|fuel IH]; intros j w w' tr; [discriminate|].
  simpl. unfold mbind at 1, M_bind at 1, get at 1.
  destruct (j <? length (objects w)).
  - destruct (_ ≫= _) as [[[[] w2] t2]|] eqn:E; [|discriminate].
    intros [= <- <-]. simpl.
    apply bind_Some in E as ([] & w1 & t1 & [] & w3 & t3 & E1 & E3 & [= <- ->]).
    apply self_justified_app; [apply (collide_pair_justified _ _ _ _ _ E1)|].
    apply (IH _ _ _ _ E3).
  - intros [= <- <-]. apply self_justified_nil.
Qed.

Lemma outer_loop_justified (fuel i : nat) (w w' : World) (tr : list Event) :
  outer_loop H fuel i w = Some (tt, w', tr) -> self_justified tr.
Proof.
  revert i w w' tr. induction fuel as [|fuel IH]; intros i w w' tr; [discriminate|].
  simpl. unfold mbind at 1, M_bind at 1, get at 1.
  destruct (i <? length (objects w)).
  - destruct (_ ≫= _) as [[[[] w2] t2]|] eqn:E; [|discriminate].
    intros [= <- <-]. simpl.
    apply bind_Some in E as ([] & w1 & t1 & [] & w3 & t3 & E1 & E3 & [= <- ->]).
    apply self_justified_app; [apply (inner_loop_justified _ _ _ _ _ _ E1)|].
    apply (IH _ _ _ _ E3).
  - intros [= <- <-]. apply self_justified_nil.
Qed.

Lemma Button_update_calm (this : nat) (dt : float) (w w' : World) (tr : list Event) :
  Button_update H this dt w = Some (tt, w', tr) -> notifications tr = [].
Proof.
  unfold Button_update, mbind, M_bind, get, emit, modify, mret, M_ret.
  destruct (_ && _); [|intros [= <- <-]; reflexivity].
  destruct (callback H this w); intros [= <- <-]; reflexivity.
Qed.

Lemma update_loop_calm (fuel : nat) (dt : float) (i : nat) (w w' : World)
    (tr : list Event) :
  update_loop H fuel dt i w = Some (tt, w', tr) -> notifications tr = [].
Proof.
  revert i w w' tr. induction fuel as [|fuel IH]; intros i w w' tr; [discriminate|].
  simpl. unfold mbind at 1, M_bind at 1, get at 1.
  destruct (objects w !! i) as [obj|]; [|intros [= <- <-]; reflexivity].
  destruct (_ ≫= _) as [[[[] w2] t2]|] eqn:E; [|discriminate].
  intros [= <- <-]. simpl.
  apply bind_Some in E as ([] & w1 & t1 & [] & w3 & t3 & E1 & E3 & [= <- ->]).
  rewrite notifications_app, (IH _ _ _ _ E3), app_nil_r.
  unfold update_of in E1. destruct (own_update H obj w).
  - destruct (instanceof _ _).
    + apply (Button_update_calm _ _ _ _ _ E1).
    + injection E1 as <- <-. reflexivity.
  - injection E1 as <- <-. reflexivity.
  - injection E1 as <- <-. reflexivity.
Qed.

End Notifications.

(** X8: [Engine.update] never calls an [onCollision] without cause: in
    the calls of a frame, every [onCollision(other)] on an object comes
    directly after a [checkCollision] call on that object and [other]
    that answered true, whatever the attached functions do. *)
Theorem X8_notified_only_after_true_check
    (H : Hooks) (fuel : nat) (dt : float) (w w' : World) (tr : list Event) :
  Engine_update H fuel dt w = Some (tt, w', tr) ->
  justified None tr = true.
Proof.
  unfold Engine_update. intros E.
  apply bind_Some in E as ([] & w1 & t1 & [] & w2 & t2 & E1 & E2 & [= <- ->]).
  apply self_justified_app.
  - apply self_justified_calm, (update_loop_calm H _ _ _ _ _ _ E1).
  - apply (outer_loop_justified H _ _ _ _ _ E2).
Qed.

(** The frame in which the rectangle jumps away from the circle: the one
    notification follows a true check. *)
Lemma X8_evasive_witness :
  justified None
    [EvCheck 0 1 0 1 true; EvOnCollision 0 1; EvCheck 0 1 0 1 false] = true.
Proof.
  refine (X8_notified_only_after_true_check Scenario.evasive 3 0 Scenario.overlap
            (Demo.assign 0 (Demo.set_x 1000) Scenario.overlap) _ _).
  vm_compute. reflexivity.
Defined.

(** ** NaN and signs in binary64 *)

Module NaN.

Local Open Scope float_scope.

Lemma is_nan_true (a : float) : is_nan a = true -> a = nan.
Proof.
  intros E. destruct (is_nan a) eqn:En; [|discriminate].
  assert (Prim2SF a = S754_nan) as Ea.
  { destruct (Prim2SF a) eqn:Ep; try reflexivity;
      assert (is_nan a = false) as En'
        by (apply IEEE.is_nan_false; rewrite Ep; discriminate);
      congruence. }
  apply Prim2SF_inj. rewrite Ea. reflexivity.
Qed.

Lemma add_l (b : float) : nan + b = nan.
Proof. apply Prim2SF_inj. rewrite add_spec. reflexivity. Qed.

Lemma add_r (a : float) : a + nan = nan.
Proof.
  apply Prim2SF_inj. rewrite add_spec.
  change (Prim2SF nan) with S754_nan. destruct (Prim2SF a) as [[]|[]| |[] m e]; reflexivity.
Qed.

Lemma sub_l (b : float) : nan - b = nan.
Proof. apply Prim2SF_inj. rewrite sub_spec. reflexivity. Qed.

Lemma sub_r (a : float) : a - nan = nan.
Proof.
  apply Prim2SF_inj. rewrite sub_spec.
  change (Prim2SF nan) with S754_nan. destruct (Prim2SF a) as [[]|[]| |[] m e]; reflexivity.
Qed.

Lemma mul_sq : nan * nan = nan.
Proof. reflexivity. Qed.

Lemma sqrt_nan : sqrt nan = nan.
Proof. reflexivity. Qed.

Lemma ltb_l (b : float) : (nan <? b) = false.
Proof. rewrite FloatAxioms.ltb_spec. reflexivity. Qed.

Lemma ltb_r (a : float) : (a <? nan) = false.
Proof.
  rewrite FloatAxioms.ltb_spec. change (Prim2SF nan) with S754_nan.
  unfold SFltb. destruct (Prim2SF a) as [[]|[]| |[] m e]; reflexivity.
Qed.

Lemma Math_min_l (b : float) : JS.Math_min nan b = nan.
Proof. reflexivity. Qed.

Lemma Math_min_r (a : float) : JS.Math_min a nan = nan.
Proof. unfold JS.Math_min. change (is_nan nan) with true. rewrite orb_true_r. reflexivity. Qed.

Lemma Math_max_l (b : float) : JS.Math_max nan b = nan.
Proof. reflexivity. Qed.

Lemma Math_max_r (a : float) : JS.Math_max a nan = nan.
Proof. unfold JS.Math_max. change (is_nan nan) with true. rewrite orb_true_r. reflexivity. Qed.

(** Negating a number does not change its square. *)
Lemma opp_sq (a : float) : (- a) * (- a) = a * a.
Proof.
  apply Prim2SF_inj. rewrite !mul_spec, opp_spec. apply IEEE.SFmul_sq_abs.
  destruct (Prim2SF a) as [[]|[]| |[] m e]; reflexivity.
Qed.

End NaN.

(** ** Malformed shapes *)

Ltac nan_crunch :=
  unfold JS.gtb, JS.Math_sqrt;
  repeat first
    [ rewrite NaN.add_l | rewrite NaN.add_r | rewrite NaN.sub_l | rewrite NaN.sub_r
    | rewrite NaN.mul_sq | rewrite NaN.sqrt_nan
    | rewrite NaN.Math_min_l | rewrite NaN.Math_min_r
    | rewrite NaN.Math_max_l | rewrite NaN.Math_max_r
    | rewrite NaN.ltb_l | rewrite NaN.ltb_r
    | rewrite andb_false_r | rewrite andb_false_l ];
  try reflexivity.

Ltac nan_cases E :=
  repeat (apply orb_true_iff in E as [E|E]);
  apply NaN.is_nan_true in E.

Local Open Scope float_scope.

Lemma rectRectCollision_nan (a b : Obj) :
  is_nan (x a) || is_nan (y a) || is_nan (x b) || is_nan (y b) ||
  is_nan (JS.ToNumber (width a)) || is_nan (JS.ToNumber (height a)) ||
  is_nan (JS.ToNumber (width b)) || is_nan (JS.ToNumber (height b)) = true ->
  rectRectCollision a b = false.
Proof. intros E. nan_cases E; unfold rectRectCollision; rewrite !E; nan_crunch. Qed.

Lemma circleCircleCollision_nan (a b : Obj) :
  is_nan (x a) || is_nan (y a) || is_nan (x b) || is_nan (y b) ||
  is_nan (JS.ToNumber (radius a)) || is_nan (JS.ToNumber (radius b)) = true ->
  circleCircleCollision a b = false.
Proof. intros E. nan_cases E; unfold circleCircleCollision; rewrite !E; nan_crunch. Qed.

Lemma rectCircleCollision_nan (rect circ : Obj) :
  is_nan (x rect) || is_nan (y rect) || is_nan (x circ) || is_nan (y circ) ||
  is_nan (JS.ToNumber (width rect)) || is_nan (JS.ToNumber (height rect)) ||
  is_nan (JS.ToNumber (radius circ)) = true ->
  rectCircleCollision rect circ = false.
Proof. intros E. nan_cases E; unfold rectCircleCollision; rewrite !E; nan_crunch. Qed.

(** X9: shapes with NaN in them never collide.  [checkCollision] is false
    whenever the [x] or [y] of either object is NaN; and each predicate is
    false whenever a size it reads is NaN or missing: a [width] or
    [height] for rectangles, a [radius] for circles. *)
Theorem X9_NaN_never_collides (a b : Obj) :
  let off o := is_nan (x o) || is_nan (y o) in
  let unsized o :=
    is_nan (JS.ToNumber (width o)) || is_nan (JS.ToNumber (height o)) in
  let no_radius o := is_nan (JS.ToNumber (radius o)) in
  (off a || off b = true -> checkCollision a b = false) /\
  (unsized a || unsized b = true -> rectRectCollision a b = false) /\
  (no_radius a || no_radius b = true -> circleCircleCollision a b = false) /\
  (unsized a || no_radius b = true -> rectCircleCollision a b = false).
Proof.
  intros off unsized no_radius. unfold off, unsized, no_radius.
  split; [|split; [|split]]; intros E.
  - assert (rectRectCollision a b = false /\ circleCircleCollision a b = false /\
            rectCircleCollision a b = false /\ rectCircleCollision b a = false)
      as (E1 & E2 & E3 & E4).
    { repeat split;
        [apply rectRectCollision_nan|apply circleCircleCollision_nan
        |apply rectCircleCollision_nan|apply rectCircleCollision_nan];
        repeat (apply orb_true_iff in E as [E|E]); rewrite E;
        rewrite ?orb_true_r; reflexivity. }
    rewrite checkCollision_dispatch, E1, E2, E3, E4.
    destruct (instanceof a Rectangle), (instanceof a Circle),
             (instanceof b Rectangle), (instanceof b Circle); reflexivity.
  - apply rectRectCollision_nan.
    repeat (apply orb_true_iff in E as [E|E]); rewrite E;
      rewrite ?orb_true_r; reflexivity.
  - apply circleCircleCollision_nan.
    repeat (apply orb_true_iff in E as [E|E]); rewrite E;
      rewrite ?orb_true_r; reflexivity.
  - apply rectCircleCollision_nan.
    repeat (apply orb_true_iff in E as [E|E]); rewrite E;
      rewrite ?orb_true_r; reflexivity.
Qed.

(** A rectangle placed at [x = 0/0] over another one, and a rectangle
    built without a width. *)
Lemma X9_witness :
  checkCollision (new_Rectangle nan 0 10 10 "white") (new_Rectangle 0 0 10 10 "white") = false /\
  rectRectCollision (mkObj Rectangle 0 0 0 0 None (Some 10) None None None None None)
                    (new_Rectangle 0 0 10 10 "white") = false.
Proof.
  split.
  - refine (proj1 (X9_NaN_never_collides _ _) _). reflexivity.
  - refine (proj1 (proj2 (X9_NaN_never_collides _ _)) _). reflexivity.
Defined.

Close Scope float_scope.

(** ** A circle centred inside a rectangle *)

Module Inside.

Local Open Scope float_scope.

(** Numbers that compare equal compare alike with any third. *)
Lemma SFcompare_Eq_subst (a b c : spec_float) :
  SFcompare a b = Some Eq -> SFcompare a c = SFcompare b c.
Proof.
  destruct a as [[]|[]| |[] m1 e1], b as [[]|[]| |[] m2 e2]; simpl;
    try discriminate; try reflexivity;
    try (destruct c as [[]|[]| |[] m3 e3]; reflexivity).
  all: destruct (e1 ?= e2)%Z eqn:Ee; try discriminate;
    apply Z.compare_eq in Ee; subst e2;
    destruct (Pos.compare_cont Eq m1 m2) eqn:Em; try discriminate;
    apply Pos.compare_eq in Em; subst m2; reflexivity.
Qed.

Lemma eqb_leb_subst (a b c : float) :
  (a =? b) = true -> (a <=? c) = (b <=? c).
Proof.
  rewrite FloatAxioms.eqb_spec, !FloatAxioms.leb_spec. unfold SFeqb, SFleb.
  destruct (SFcompare (Prim2SF a) (Prim2SF b)) as [[]|] eqn:E; try discriminate.
  intros _. rewrite (SFcompare_Eq_subst _ _ (Prim2SF c) E). reflexivity.
Qed.

Lemma eqb_refl (a : float) : is_nan a = false -> (a =? a) = true.
Proof. unfold is_nan. intros E. apply negb_false_iff in E. exact E. Qed.

(** Clamping a number that is in the interval gives a number equal to it. *)
Lemma clamp_inside (v lo hi : float) :
  (lo <=? v) = true -> (v <=? hi) = true -> (clamp v lo hi =? v) = true.
Proof.
  intros Hlo Hhi.
  destruct (IEEE.leb_true_not_nan _ _ Hlo) as [Nlo Nv].
  destruct (IEEE.leb_true_not_nan _ _ Hhi) as [_ Nhi].
  unfold clamp.
  assert (is_nan (JS.Math_min v hi) = false /\ (JS.Math_min v hi =? v) = true)
    as [Nm Em].
  { destruct (IEEE.Math_min_cases v hi Nv Nhi) as [[-> L]|[-> L]].
    - auto using eqb_refl.
    - split; [assumption|]. rewrite <- IEEE.leb_antisym_eqb, Hhi, L. reflexivity. }
  destruct (IEEE.Math_max_cases lo _ Nlo Nm) as [[-> L]|[-> L]]; [exact Em|].
  rewrite (eqb_leb_subst _ _ _ Em) in L.
  rewrite <- IEEE.leb_antisym_eqb, L, Hlo. reflexivity.
Qed.

Lemma not_infinity (v : float) (s : bool) :
  is_infinity v = false -> Prim2SF v <> S754_infinity s.
Proof.
  unfold is_infinity. rewrite FloatAxioms.eqb_spec, abs_spec. intros E Ev.
  rewrite Ev in E. discriminate.
Qed.

(** A number that is not infinite, minus a number equal to it, is zero. *)
Lemma sub_equal (v p : float) :
  (p =? v) = true -> is_infinity v = false -> (v - p =? 0) = true.
Proof.
  rewrite !FloatAxioms.eqb_spec, sub_spec. unfold SFeqb.
  change (Prim2SF 0) with (S754_zero false). intros E Hinf.
  assert (forall s, Prim2SF v <> S754_infinity s) as Hv
    by (intros s; apply not_infinity; exact Hinf).
  destruct (Prim2SF p) as [[]|[]| |[] m1 e1], (Prim2SF v) as [[]|[]| |[] m2 e2];
    simpl in E; try discriminate; try reflexivity;
    try (exfalso; eapply Hv; reflexivity).
  all: destruct (e1 ?= e2)%Z eqn:Ee; try discriminate;
    apply Z.compare_eq in Ee; subst e2;
    destruct (Pos.compare_cont Eq m1 m2) eqn:Em; try discriminate;
    apply Pos.compare_eq in Em; subst m2;
    cbv beta iota zeta delta [SF64sub SFsub]; rewrite Z.sub_diag; reflexivity.
Qed.

Lemma sq_zero (z : float) : (z =? 0) = true -> z * z = 0.
Proof.
  rewrite FloatAxioms.eqb_spec. unfold SFeqb.
  change (Prim2SF 0) with (S754_zero false). intros E.
  apply Prim2SF_inj. rewrite mul_spec.
  rewrite (IEEE.SFmul_zero_sq (Prim2SF z))
    by (destruct (SFcompare _ _) as [[]|]; congruence).
  reflexivity.
Qed.

End Inside.

Local Open Scope float_scope.

(** X10: a circle whose centre is inside a rectangle or on its edge
    collides with it exactly when the square of its radius is positive:
    the nearest point is then the centre itself.  The centre has to be a
    point at a finite position. *)
Theorem X10_centre_inside_collides (rect circ : Obj) :
  let right := x rect + JS.ToNumber (width rect) in
  let bottom := y rect + JS.ToNumber (height rect) in
  let r := JS.ToNumber (radius circ) in
  (x rect <=? x circ) = true -> (x circ <=? right) = true ->
  (y rect <=? y circ) = true -> (y circ <=? bottom) = true ->
  is_infinity (x circ) = false -> is_infinity (y circ) = false ->
  (fst (nearest_point rect circ) =? x circ) = true /\
  (snd (nearest_point rect circ) =? y circ) = true /\
  rectCircleCollision rect circ = (0 <? r * r).
Proof.
  intros right bottom r Hx1 Hx2 Hy1 Hy2 Fx Fy. subst right bottom.
  pose proof (Inside.clamp_inside _ _ _ Hx1 Hx2) as Ex.
  pose proof (Inside.clamp_inside _ _ _ Hy1 Hy2) as Ey.
  split; [exact Ex|]. split; [exact Ey|].
  change (rectCircleCollision rect circ)
    with (sq_distance_to circ (nearest_point rect circ) <? r * r).
  unfold sq_distance_to, nearest_point, fst, snd.
  rewrite (IEEE.sq_add_sq_zero _ _ (Inside.sub_equal _ _ Ey Fy)).
  rewrite (Inside.sq_zero _ (Inside.sub_equal _ _ Ex Fx)). reflexivity.
Qed.

(** The scenario of the specification, and the same circle with radius 0. *)
Lemma X10_witness :
  rectCircleCollision (new_Rectangle 10 10 20 20 "white") (new_Circle 15 15 5 "white") = true /\
  rectCircleCollision (new_Rectangle 10 10 20 20 "white") (new_Circle 15 15 0 "white") = false.
Proof.
  split.
  - rewrite (proj2 (proj2 (X10_centre_inside_collides
               (new_Rectangle 10 10 20 20 "white") (new_Circle 15 15 5 "white")
               eq_refl eq_refl eq_refl eq_refl eq_refl eq_refl))).
    reflexivity.
  - rewrite (proj2 (proj2 (X10_centre_inside_collides
               (new_Rectangle 10 10 20 20 "white") (new_Circle 15 15 0 "white")
               eq_refl eq_refl eq_refl eq_refl eq_refl eq_refl))).
    reflexivity.
Defined.

(** X11: [rectCircleCollision] does not look at the sign of the radius: a
    circle with a negative radius collides with a rectangle exactly as the
    circle with the positive one does. *)
Theorem X11_rectCircle_ignores_radius_sign (rect circ : Obj) :
  rectCircleCollision rect (flip_radius circ) = rectCircleCollision rect circ.
Proof.
  unfold rectCircleCollision, flip_radius. simpl. rewrite NaN.opp_sq. reflexivity.
Qed.

Close Scope float_scope.

(** ** Frames with steady handlers *)

Lemma same_scene_refl (H : Hooks) (w : World) : same_scene H w w.
Proof. repeat split; reflexivity. Qed.

Lemma same_scene_trans (H : Hooks) (w0 w1 w2 : World) :
  same_scene H w0 w1 -> same_scene H w1 w2 -> same_scene H w0 w2.
Proof.
  intros (L1 & C1 & P1) (L2 & C2 & P2). split; [congruence|]. split.
  - intros a b. rewrite C2. apply C1.
  - intros o. rewrite P2. apply P1.
Qed.

Section Steady.

Variable H : Hooks.
Hypothesis Hsteady : steady H.

Lemma call_onCollision_steady (self other : nat) (w0 w : World) :
  same_scene H w0 w ->
  runs (call_onCollision H self other) w
    (fun _ w' tr => same_scene H w0 w' /\
       notifications tr = if listens H w0 self then [(self, other)] else []).
Proof.
  intros Hs. unfold call_onCollision. apply runs_bind, runs_get.
  rewrite <- (proj2 (proj2 Hs) self). unfold listens.
  destruct (onCollision H self w) as [f|] eqn:Ef.
  - apply runs_bind, runs_emit, runs_modify. split; [|reflexivity].
    eapply same_scene_trans; [exact Hs|].
    apply (Hsteady self w f other Ef).
  - apply runs_ret. split; [exact Hs|reflexivity].
Qed.

Lemma call_checkCollision_steady (i j a b : nat) (w0 w : World) :
  same_scene H w0 w ->
  runs (call_checkCollision i j a b) w
    (fun c w' tr => w' = w /\ c = collides w0 a b /\ notifications tr = []).
Proof.
  intros (_ & Hc & _). unfold call_checkCollision. apply runs_bind, runs_get.
  apply runs_bind, runs_emit, runs_ret. repeat split. apply Hc.
Qed.

Lemma collide_pair_steady (i j a b : nat) (w0 w : World) :
  same_scene H w0 w ->
  objects w0 !! i = Some a -> objects w0 !! j = Some b ->
  runs (collide_pair H i j) w
    (fun _ w' tr => same_scene H w0 w' /\
       notifications tr = notify (listens H w0) w0 (objects w0) (i, j)).
Proof.
  intros Hs Ea Eb. unfold collide_pair. apply runs_bind, runs_get.
  rewrite (proj1 Hs), Ea, Eb. unfold notify. simpl.
  rewrite (list_lookup_total_correct _ _ _ Ea), (list_lookup_total_correct _ _ _ Eb).
  apply runs_bind. eapply runs_mono; [apply (call_checkCollision_steady i j a b w0 w Hs)|].
  intros c1 w1 t1 (-> & -> & Ht1). cbv beta.
  apply runs_bind.
  eapply runs_mono with
    (P := fun _ w' tr => same_scene H w0 w' /\
            notifications tr =
            if collides w0 a b then (if listens H w0 a then [(a, b)] else []) else []).
  { destruct (collides w0 a b).
    - apply call_onCollision_steady. exact Hs.
    - apply runs_ret. split; [exact Hs|reflexivity]. }
  intros [] w2 t2 [Hs2 Ht2]. cbv beta.
  apply runs_bind.
  eapply runs_mono; [apply (call_checkCollision_steady i j a b w0 w2 Hs2)|].
  intros c2 w3 t3 (-> & -> & Ht3). cbv beta.
  eapply runs_mono with
    (P := fun _ w' tr => same_scene H w0 w' /\
            notifications tr =
            if collides w0 a b then (if listens H w0 b then [(b, a)] else []) else []).
  { destruct (collides w0 a b).
    - apply call_onCollision_steady. exact Hs2.
    - apply runs_ret. split; [exact Hs2|reflexivity]. }
  intros [] w4 t4 [Hs4 Ht4]. split; [exact Hs4|].
  rewrite !notifications_app, Ht1, Ht2, Ht3, Ht4.
  destruct (collides w0 a b); reflexivity.
Qed.

Lemma inner_loop_steady (w0 : World) (i : nat) :
  forall k fuel j w,
    same_scene H w0 w -> i < j -> j + k = length (objects w0) -> k < fuel ->
    runs (inner_loop H fuel i j) w
      (fun _ w' tr => same_scene H w0 w' /\
         notifications tr =
         (pair i <$> seq j k) ≫= notify (listens H w0) w0 (objects w0)).
Proof.
  induction k as [|k IH]; intros fuel j w Hs Hij Hjk Hfuel;
    (destruct fuel as [|fuel]; [lia|]); simpl; apply runs_bind, runs_get.
  - replace (j <? length (objects w)) with false
      by (symmetry; apply Nat.ltb_ge; rewrite (proj1 Hs); lia).
    apply runs_ret. split; [assumption|reflexivity].
  - replace (j <? length (objects w)) with true
      by (symmetry; apply Nat.ltb_lt; rewrite (proj1 Hs); lia).
    destruct (lookup_lt_is_Some_2 (objects w0) i) as [a Ea]; [lia|].
    destruct (lookup_lt_is_Some_2 (objects w0) j) as [b Eb]; [lia|].
    apply runs_bind.
    eapply runs_mono; [apply (collide_pair_steady i j a b w0 w Hs Ea Eb)|].
    intros [] w1 t1 [Hs1 Ht1]. cbv beta.
    eapply runs_mono; [apply (IH fuel (S j) w1); [assumption|lia|lia|lia]|].
    intros [] w2 t2 [Hs2 Ht2]. split; [assumption|].
    rewrite !notifications_app, Ht1, Ht2. reflexivity.
Qed.

Lemma outer_loop_steady (w0 : World) :
  forall k fuel i w,
    same_scene H w0 w -> i + k = length (objects w0) -> k < fuel ->
    runs (outer_loop H fuel i) w
      (fun _ w' tr => same_scene H w0 w' /\
         notifications tr =
         (seq i k ≫= pairs_from (length (objects w0))) ≫=
           notify (listens H w0) w0 (objects w0)).
Proof.
  induction k as [|k IH]; intros fuel i w Hs Hik Hfuel;
    (destruct fuel as [|fuel]; [lia|]); simpl; apply runs_bind, runs_get.
  - replace (i <? length (objects w)) with false
      by (symmetry; apply Nat.ltb_ge; rewrite (proj1 Hs); lia).
    apply runs_ret. split; [assumption|reflexivity].
  - replace (i <? length (objects w)) with true
      by (symmetry; apply Nat.ltb_lt; rewrite (proj1 Hs); lia).
    apply runs_bind.
    eapply runs_mono;
      [apply (inner_loop_steady w0 i (length (objects w0) - S i) fuel (S i) w);
         [assumption|lia|lia|lia]|].
    intros [] w1 t1 [Hs1 Ht1]. cbv beta.
    eapply runs_mono; [apply (IH fuel (S i) w1); [assumption|lia|lia]|].
    intros [] w2 t2 [Hs2 Ht2]. split; [assumption|].
    rewrite !notifications_app, Ht1, Ht2. simpl. rewrite bind_app. reflexivity.
Qed.

End Steady.

(** X12: when the attached functions leave the list as it is and the
    collision handlers leave the scene as it is, a frame returns and tells
    every colliding pair exactly once: going through the pairs [i < j] in
    loop order, for each pair that collides after the update pass the
    object at [i] is told of the one at [j] and then the one at [j] of the
    one at [i], each if it has an [onCollision] after the update pass;
    nothing else is told.  The [update] functions and the callbacks may
    move objects and attach or detach handlers. *)
Theorem X12_colliding_pairs_are_notified
    (H : Hooks) (fuel : nat) (dt : float) (w : World) :
  hooks_keep_list H ->
  steady H ->
  length (objects w) < fuel ->
  exists w1 t1 w' t2,
    update_loop H fuel dt 0 w = Some (tt, w1, t1) /\
    Engine_update H fuel dt w = Some (tt, w', t1 ++ t2) /\
    same_scene H w1 w' /\
    notifications (t1 ++ t2) = expected_notifications (listens H w1) w1.
Proof.
  intros Hkeep Hsteady Hfuel.
  destruct (update_loop_quiet H Hkeep dt (objects w) (length (objects w)) fuel 0 w)
    as ([] & w1 & t1 & E1 & Hw1 & _); [reflexivity|lia|lia|].
  destruct (outer_loop_steady H Hsteady w1 (length (objects w1)) fuel 0 w1)
    as ([] & w' & t2 & E2 & Hs & Ht2); [apply same_scene_refl|lia|rewrite Hw1; lia|].
  exists w1, t1, w', t2. split; [exact E1|].
  split; [unfold Engine_update, mbind, M_bind; rewrite E1, E2; reflexivity|].
  split; [exact Hs|].
  rewrite notifications_app, (update_loop_calm H _ _ _ _ _ _ E1), Ht2. reflexivity.
Qed.

Lemma recolour_keeps_scene (o : nat) (c : string) (w : World) :
  same_scene Demo.hooks w (Demo.assign o (Demo.set_color c) w).
Proof.
  split; [reflexivity|]. split; [|reflexivity]. intros a b. unfold collides, Demo.assign. simpl.
  rewrite !lookup_total_alter, !lookup_total_alt.
  destruct (decide (o = a)) as [<-|], (decide (o = b)) as [<-|];
    destruct (heap w !! o); reflexivity.
Qed.

Lemma Demo_hooks_steady : steady Demo.hooks.
Proof.
  intros o w f other. simpl. destruct (decide (o = Demo.rect)); [|discriminate].
  intros [= <-]. unfold Demo.rect_onCollision.
  destruct (decide (other = Demo.circle)).
  - apply recolour_keeps_scene.
  - apply same_scene_refl.
Qed.

(** A frame of the example with the rectangle on the circle: the
    rectangle is told of the circle, and that is all. *)
Lemma X12_demo_witness :
  exists w' tr,
    Engine_update Demo.hooks 5 0 (Demo.world 180 130 Input.new) = Some (tt, w', tr) /\
    notifications tr = [(Demo.rect, Demo.circle)].
Proof.
  destruct (X12_colliding_pairs_are_notified Demo.hooks 5 0
              (Demo.world 180 130 Input.new) Demo_hooks_keep_list Demo_hooks_steady)
    as (w1 & t1 & w' & t2 & E1 & E & _ & Hn); [simpl; lia|].
  exists w', (t1 ++ t2). split; [exact E|]. rewrite Hn.
  vm_compute in E1. injection E1 as <- _. vm_compute. reflexivity.
Defined.

(** ** Drawing *)

Lemma class_draw_rendering (o : Obj) (cv : Canvas.state) :
  Canvas.textAlign cv = "start"%string ->
  Canvas.textBaseline cv = "alphabetic"%string ->
  class_draw o cv =
  Canvas.mk (Canvas.canvas_width cv) (Canvas.canvas_height cv) "start" "alphabetic"
    (Canvas.log cv ++ rendering o).
Proof.
  destruct cv as [cw ch al bl lg]. simpl. intros -> ->.
  unfold class_draw, rendering.
  destruct (class_of o); unfold GameObject_draw, Rectangle_draw, Circle_draw,
    Sprite_draw, Text_draw, Button_draw, Canvas.do_fillText, Canvas.emit,
    Canvas.set_textAlign, Canvas.set_textBaseline; simpl;
    rewrite <- ?app_assoc, ?app_nil_r; reflexivity.
Qed.

Lemma draw_objects_rendering
    (own_draw : nat -> World -> Slot (Canvas.state -> Canvas.state))
    (w : World) (l : list nat) (cv : Canvas.state) :
  (forall o, own_draw o w = Unset) ->
  Canvas.textAlign cv = "start"%string ->
  Canvas.textBaseline cv = "alphabetic"%string ->
  fold_left (fun cv obj => draw_object own_draw w obj cv) l cv =
  Canvas.mk (Canvas.canvas_width cv) (Canvas.canvas_height cv) "start" "alphabetic"
    (Canvas.log cv ++ (l ≫= fun o => rendering (heap w !!! o))).
Proof.
  intros Hown. revert cv. induction l as [|o l IH]; intros cv Ha Hb.
  - simpl. rewrite app_nil_r. destruct cv; simpl in *; subst; reflexivity.
  - simpl. unfold draw_object at 2. rewrite Hown.
    rewrite (class_draw_rendering _ cv Ha Hb), IH by reflexivity.
    simpl. rewrite <- app_assoc. reflexivity.
Qed.

(** X13: on a context whose text alignment is the default one, and with
    no [draw] assigned to an instance, [Engine.draw] clears the whole
    canvas and then draws the objects in list order, each one by the
    calls of its own [rendering], whatever was drawn before it: the text
    of a Text is never centred by a Button drawn earlier, and the
    alignment is the default one again after the frame. *)
Theorem X13_draw_in_list_order_with_own_alignment
    (own_draw : nat -> World -> Slot (Canvas.state -> Canvas.state))
    (w : World) (cv : Canvas.state) :
  (forall o, own_draw o w = Unset) ->
  Canvas.textAlign cv = "start"%string ->
  Canvas.textBaseline cv = "alphabetic"%string ->
  Engine_draw_on own_draw w cv =
  Canvas.mk (Canvas.canvas_width cv) (Canvas.canvas_height cv) "start" "alphabetic"
    (Canvas.log cv ++
     Canvas.clearRect 0 0 (Canvas.canvas_width cv) (Canvas.canvas_height cv) ::
     (objects w ≫= fun o => rendering (heap w !!! o))).
Proof.
  intros Hown Ha Hb. unfold Engine_draw_on.
  rewrite (draw_objects_rendering own_draw w (objects w) (Engine_clear cv) Hown Ha Hb).
  simpl. rewrite <- app_assoc. reflexivity.
Qed.

(** The menu drawn with a Text added after its buttons: the text comes
    last and is left-aligned on its baseline. *)
Lemma X13_witness :
  last (Canvas.log
          (Engine_draw_on no_own_draw
             (mkWorld (<[3 := new_Text 5 90 "pick one" "white"]> (heap Menu.world))
                [0; 1; 2; 3] Input.new)
             (Canvas.mk 800 600 "start" "alphabetic" []))) =
  Some (Canvas.fillText (Some "pick one"%string) 5 90 "start" "alphabetic").
Proof.
  rewrite (X13_draw_in_list_order_with_own_alignment no_own_draw _
             (Canvas.mk 800 600 "start" "alphabetic" []) (fun _ => eq_refl)
             eq_refl eq_refl).
  vm_compute. reflexivity.
Defined.

(** ** The two collision loops compared *)

Lemma agree_bind (m1 m2 k1 k2 : M unit) (w : World) :
  agree (m1 w) (m2 w) ->
  (forall w', agree (k1 w') (k2 w')) ->
  agree ((m1 ≫= fun _ => k1) w) ((m2 ≫= fun _ => k2) w).
Proof.
  unfold mbind, M_bind, agree. intros Hm Hk.
  destruct (m1 w) as [[[[] w1] t1]|], (m2 w) as [[[[] w2] t2]|];
    try contradiction; [|exact I].
  destruct Hm as [<- Hn]. specialize (Hk w1).
  destruct (k1 w1) as [[[[] w3] t3]|], (k2 w1) as [[[[] w4] t4]|];
    try contradiction; [|exact I].
  destruct Hk as [<- Hn']. split; [reflexivity|].
  rewrite !notifications_app, Hn, Hn'. reflexivity.
Qed.

Lemma agree_refl (r : option (unit * World * list Event)) : agree r r.
Proof. destruct r as [[[[] w] t]|]; simpl; auto. Qed.

Section TwoLoops.

Variable H : Hooks.
Hypothesis Hkept : collisions_kept H.

Lemma collide_pair_agree (i j : nat) (w : World) :
  agree (collide_pair H i j w) (DemoFrame.collide_pair_once H i j w).
Proof.
  unfold collide_pair, DemoFrame.collide_pair_once, call_checkCollision,
    call_onCollision.
  unfold mbind, M_bind, get, emit, modify, mret, M_ret.
  destruct (objects w !! i) as [a|]; [|simpl; auto].
  destruct (objects w !! j) as [b|]; [|simpl; auto].
  fold (collides w a b).
  destruct (collides w a b) eqn:C1.
  - destruct (onCollision H a w) as [f|] eqn:Ef.
    + fold (collides (f b w) a b). rewrite (Hkept a w f b a b Ef), C1.
      destruct (onCollision H b (f b w)); simpl; auto.
    + fold (collides w a b). rewrite C1.
      destruct (onCollision H b w); simpl; auto.
  - fold (collides w a b). rewrite C1. simpl. auto.
Qed.

Lemma inner_loop_agree (fuel i j : nat) (w : World) :
  agree (inner_loop H fuel i j w) (DemoFrame.inner_loop_once H fuel i j w).
Proof.
  revert j w. induction fuel as [|fuel IH]; intros j w; [exact I|].
  simpl. unfold mbind at 1 3, M_bind at 1 3, get.
  assert (forall (m1 m2 : M unit),
            agree (m1 w) (m2 w) ->
            agree match m1 w with
                  | Some (b, w2, t2) => Some (b, w2, [] ++ t2)
                  | None => None
                  end
                  match m2 w with
                  | Some (b, w2, t2) => Some (b, w2, [] ++ t2)
                  | None => None
                  end) as Hwrap.
  { intros m1 m2. unfold agree.
    destruct (m1 w) as [[[[] w1] t1]|], (m2 w) as [[[[] w2] t2]|]; auto. }
  apply Hwrap. destruct (j <? length (objects w)); [|apply agree_refl].
  apply agree_bind; [apply collide_pair_agree|]. intros w'. apply IH.
Qed.

Lemma outer_loop_agree (fuel i : nat) (w : World) :
  agree (outer_loop H fuel i w) (DemoFrame.outer_loop_once H fuel i w).
Proof.
  revert i w. induction fuel as [|fuel IH]; intros i w; [exact I|].
  simpl. unfold mbind at 1 3, M_bind at 1 3, get.
  assert (forall (m1 m2 : M unit),
            agree (m1 w) (m2 w) ->
            agree match m1 w with
                  | Some (b, w2, t2) => Some (b, w2, [] ++ t2)
                  | None => None
                  end
                  match m2 w with
                  | Some (b, w2, t2) => Some (b, w2, [] ++ t2)
                  | None => None
                  end) as Hwrap.
  { intros m1 m2. unfold agree.
    destruct (m1 w) as [[[[] w1] t1]|], (m2 w) as [[[[] w2] t2]|]; auto. }
  apply Hwrap. destruct (i <? length (objects w)); [|apply agree_refl].
  apply agree_bind; [apply inner_loop_agree|]. intros w'. apply IH.
Qed.

End TwoLoops.

(** X14: when no collision handler changes whether two objects collide,
    the collision loops of [Engine.update], which check each pair twice,
    and those of the example's replacement, which check it once, do the
    same: from any world and with any fuel they both run out or both
    return, in the same world and after the same [onCollision] calls in
    the same order. *)
Theorem X14_double_check_is_unobservable
    (H : Hooks) (fuel i : nat) (w : World) :
  collisions_kept H ->
  agree (outer_loop H fuel i w) (DemoFrame.outer_loop_once H fuel i w).
Proof. intros Hkept. apply outer_loop_agree. exact Hkept. Qed.

Lemma Demo_collisions_kept : collisions_kept Demo.hooks.
Proof.
  intros o w f other a b Ef.
  apply (Demo_hooks_steady o w f other Ef).
Qed.

(** The two loops on the example with the rectangle on the circle. *)
Lemma X14_demo_witness :
  agree (outer_loop Demo.hooks 5 0 (Demo.world 180 130 Input.new))
        (DemoFrame.outer_loop_once Demo.hooks 5 0 (Demo.world 180 130 Input.new)) /\
  is_Some (outer_loop Demo.hooks 5 0 (Demo.world 180 130 Input.new)).
Proof.
  split.
  - apply (X14_double_check_is_unobservable Demo.hooks 5 0 _ Demo_collisions_kept).
  - vm_compute. eauto.
Defined.

(** ** The frame of the example *)

Lemma lands_ret {A} (a : A) (w : World) : lands (mret a) w w.
Proof. exists a, []. reflexivity. Qed.

Lemma lands_modify (f : Effect) (w : World) : lands (modify f) w (f w).
Proof. exists tt, []. reflexivity. Qed.

Lemma lands_bind {A B} (m : M A) (f : A -> M B) (w w1 w2 : World) (a : A) (t : list Event) :
  m w = Some (a, w1, t) -> lands (f a) w1 w2 -> lands (m ≫= f) w w2.
Proof.
  intros E (b & t2 & E2). exists b, (t ++ t2). unfold mbind, M_bind.
  rewrite E, E2. reflexivity.
Qed.

Lemma lands_seq {A B} (m : M A) (k : M B) (w w1 w2 : World) :
  lands m w w1 -> lands k w1 w2 -> lands (m ≫= fun _ => k) w w2.
Proof. intros (a & t & E) Hk. exact (lands_bind m _ w w1 w2 a t E Hk). Qed.

Lemma lands_get {B} (f : World -> M B) (w w' : World) :
  lands (f w) w w' -> lands (get ≫= f) w w'.
Proof. apply (lands_bind get f w w w' w []). reflexivity. Qed.

Section Stepping.

Variable H : Hooks.

Lemma update_loop_step (fuel : nat) (dt : float) (i o : nat) (w w1 w2 : World)
    (g : float -> M unit) :
  objects w !! i = Some o ->
  update_of H o w = Some g ->
  lands (g dt) w w1 ->
  lands (update_loop H fuel dt (S i)) w1 w2 ->
  lands (update_loop H (S fuel) dt i) w w2.
Proof.
  intros Ho Hg H1 H2. simpl. apply lands_get. rewrite Ho, Hg.
  apply (lands_seq _ _ w w1 w2 H1 H2).
Qed.

Lemma update_loop_done (fuel : nat) (dt : float) (i : nat) (w : World) :
  objects w !! i = None -> lands (update_loop H (S fuel) dt i) w w.
Proof. intros Ho. simpl. apply lands_get. rewrite Ho. apply lands_ret. Qed.

Lemma inner_once_step (fuel i j : nat) (w w1 w2 : World) :
  j < length (objects w) ->
  lands (DemoFrame.collide_pair_once H i j) w w1 ->
  lands (DemoFrame.inner_loop_once H fuel i (S j)) w1 w2 ->
  lands (DemoFrame.inner_loop_once H (S fuel) i j) w w2.
Proof.
  intros Hj H1 H2. simpl. apply lands_get.
  apply Nat.ltb_lt in Hj. rewrite Hj. apply (lands_seq _ _ w w1 w2 H1 H2).
Qed.

Lemma inner_once_done (fuel i j : nat) (w : World) :
  length (objects w) <= j -> lands (DemoFrame.inner_loop_once H (S fuel) i j) w w.
Proof.
  intros Hj. simpl. apply lands_get.
  apply Nat.ltb_ge in Hj. rewrite Hj. apply lands_ret.
Qed.

Lemma outer_once_step (fuel i : nat) (w w1 w2 : World) :
  i < length (objects w) ->
  lands (DemoFrame.inner_loop_once H fuel i (S i)) w w1 ->
  lands (DemoFrame.outer_loop_once H fuel (S i)) w1 w2 ->
  lands (DemoFrame.outer_loop_once H (S fuel) i) w w2.
Proof.
  intros Hi H1 H2. simpl. apply lands_get.
  apply Nat.ltb_lt in Hi. rewrite Hi. apply (lands_seq _ _ w w1 w2 H1 H2).
Qed.

Lemma outer_once_done (fuel i : nat) (w : World) :
  length (objects w) <= i -> lands (DemoFrame.outer_loop_once H (S fuel) i) w w.
Proof.
  intros Hi. simpl. apply lands_get.
  apply Nat.ltb_ge in Hi. rewrite Hi. apply lands_ret.
Qed.

End Stepping.

Lemma lands_eq {A} (m : M A) (w w1 w2 : World) :
  lands m w w1 -> w1 = w2 -> lands m w w2.
Proof. intros Hl <-. exact Hl. Qed.

Lemma demo_call_onCollision (self other : nat) (w : World) :
  lands (call_onCollision Demo.hooks self other) w
    (if Nat.eqb self Demo.rect && Nat.eqb other Demo.circle
     then Demo.assign Demo.rect (Demo.set_color "blue") w else w).
Proof.
  unfold call_onCollision. apply lands_get. simpl.
  destruct (Nat.eqb_spec self Demo.rect) as [->|Hs].
  - rewrite decide_True by reflexivity.
    eapply lands_bind; [reflexivity|]. eapply lands_eq; [apply lands_modify|].
    unfold Demo.rect_onCollision. simpl.
    destruct (Nat.eqb_spec other Demo.circle) as [->|Ho].
    + rewrite decide_True by reflexivity. reflexivity.
    + rewrite decide_False by assumption. reflexivity.
  - rewrite decide_False by assumption. apply lands_ret.
Qed.

(** A pair of the list under the handlers of the example. *)
Lemma demo_pair_once (i j a b : nat) (w : World) :
  objects w !! i = Some a -> objects w !! j = Some b ->
  lands (DemoFrame.collide_pair_once Demo.hooks i j) w (DemoFrame.pair_effect a b w).
Proof.
  intros Ea Eb. unfold DemoFrame.collide_pair_once. apply lands_get.
  rewrite Ea, Eb.
  eapply lands_bind; [reflexivity|]. fold (collides w a b).
  unfold DemoFrame.pair_effect.
  destruct (collides w a b); [|rewrite andb_false_r; apply lands_ret].
  rewrite andb_true_r.
  eapply lands_eq.
  - eapply lands_seq; [apply demo_call_onCollision|apply demo_call_onCollision].
  - unfold Demo.rect, Demo.circle.
    destruct (Nat.eqb_spec a 0), (Nat.eqb_spec b 1), (Nat.eqb_spec b 0),
             (Nat.eqb_spec a 1); subst; try discriminate; reflexivity.
Qed.

Lemma lands_of_Some {A} (m : M A) (w w' : World) (a : A) (t : list Event) :
  m w = Some (a, w', t) -> lands m w w'.
Proof. intros E. exists a, t. exact E. Qed.

Lemma demo_rect_update (px py : float) (col : string) (loaded : bool)
    (iw ih : float) (i : Input.state) (dt : float) :
  Demo.rect_update dt (DemoFrame.world px py col loaded iw ih i) =
  DemoFrame.world (DemoFrame.moved i dt (px, py)).1 (DemoFrame.moved i dt (px, py)).2
    col loaded iw ih i.
Proof.
  unfold Demo.rect_update, DemoFrame.moved.
  change (input (DemoFrame.world px py col loaded iw ih i)) with i.
  destruct loaded;
    destruct (Input.isKeyDown i "ArrowRight"); cbv zeta;
    match goal with |- context [input ?w] => change (input w) with i end;
    destruct (Input.isKeyDown i "ArrowLeft"); cbv zeta;
    match goal with |- context [input ?w] => change (input w) with i end;
    destruct (Input.isKeyDown i "ArrowDown"); cbv zeta;
    match goal with |- context [input ?w] => change (input w) with i end;
    destruct (Input.isKeyDown i "ArrowUp"); reflexivity.
Qed.

Lemma demo_button_update (px py : float) (col : string) (loaded : bool)
    (iw ih : float) (i : Input.state) (dt : float) :
  lands (Button_update Demo.hooks Demo.button dt)
    (DemoFrame.world px py col loaded iw ih i)
    (if DemoFrame.reset_pressed i
     then DemoFrame.world 100 100 "red" loaded iw ih (Input.consumeClick i)
     else DemoFrame.world px py col loaded iw ih i).
Proof.
  unfold DemoFrame.reset_pressed.
  destruct (Input.wasMouseClicked i) eqn:C;
    [destruct (Input.isMouseInside i (new_Button 650 550 120 30 "Reset")) eqn:I|].
  - eapply lands_eq.
    + eapply lands_of_Some. apply Button_update_click; [exact C|].
      destruct loaded; exact I.
    + destruct loaded; reflexivity.
  - eapply lands_of_Some. apply Button_update_miss.
    transitivity (Input.wasMouseClicked i &&
                  Input.isMouseInside i (new_Button 650 550 120 30 "Reset")).
    + destruct loaded; reflexivity.
    + rewrite C, I. reflexivity.
  - eapply lands_of_Some. apply Button_update_no_click. exact C.
Qed.

Lemma demo_update_pass (px py : float) (col : string) (loaded : bool)
    (iw ih : float) (i : Input.state) (dt : float) (fuel : nat) :
  5 < fuel ->
  lands (update_loop Demo.hooks fuel dt 0)
    (DemoFrame.world px py col loaded iw ih i)
    (if DemoFrame.reset_pressed i
     then DemoFrame.world 100 100 "red" loaded iw ih (Input.consumeClick i)
     else DemoFrame.world (DemoFrame.moved i dt (px, py)).1
            (DemoFrame.moved i dt (px, py)).2 col loaded iw ih i).
Proof.
  intros Hfuel.
  destruct fuel as [|[|[|[|[|[|fuel]]]]]]; try lia.
  set (p := DemoFrame.moved i dt (px, py)).
  eapply update_loop_step;
    [destruct loaded; reflexivity|reflexivity| |].
  { eapply lands_eq; [apply lands_modify|apply demo_rect_update]. }
  fold p.
  eapply update_loop_step;
    [destruct loaded; reflexivity|destruct loaded; reflexivity|apply lands_ret|].
  eapply update_loop_step;
    [destruct loaded; reflexivity|destruct loaded; reflexivity|apply lands_ret|].
  eapply update_loop_step;
    [destruct loaded; reflexivity|destruct loaded; reflexivity
    |apply demo_button_update|].
  destruct loaded.
  - eapply update_loop_step;
      [destruct (DemoFrame.reset_pressed i); reflexivity
      |destruct (DemoFrame.reset_pressed i); reflexivity|apply lands_ret|].
    apply update_loop_done. destruct (DemoFrame.reset_pressed i); reflexivity.
  - apply update_loop_done. destruct (DemoFrame.reset_pressed i); reflexivity.
Qed.

Lemma demo_collision_pass (px py : float) (col : string) (loaded : bool)
    (iw ih : float) (i : Input.state) (fuel : nat) :
  5 < fuel ->
  lands (DemoFrame.outer_loop_once Demo.hooks fuel 0)
    (DemoFrame.world px py col loaded iw ih i)
    (DemoFrame.world px py (if DemoFrame.touches px py then "blue" else col)
       loaded iw ih i).
Proof.
  intros Hfuel.
  destruct fuel as [|[|[|[|[|[|fuel]]]]]]; try lia.
  assert (DemoFrame.pair_effect 0 1 (DemoFrame.world px py col loaded iw ih i) =
          DemoFrame.world px py (if DemoFrame.touches px py then "blue" else col)
            loaded iw ih i) as E01.
  { unfold DemoFrame.pair_effect.
    replace (collides (DemoFrame.world px py col loaded iw ih i) 0 1)
      with (DemoFrame.touches px py) by (destruct loaded; reflexivity).
    destruct (DemoFrame.touches px py), loaded; reflexivity. }
  destruct loaded.
  - eapply outer_once_step; [simpl; lia| |].
    { eapply inner_once_step; [simpl; lia| |].
      { eapply lands_eq; [apply (demo_pair_once 0 1 0 1); reflexivity|exact E01]. }
      repeat (eapply inner_once_step;
              [simpl; lia
              |eapply lands_eq; [eapply demo_pair_once; reflexivity|reflexivity]|]).
      apply inner_once_done. simpl. lia. }
    repeat (eapply outer_once_step;
            [simpl; lia
            |repeat (eapply inner_once_step;
                     [simpl; lia
                     |eapply lands_eq; [eapply demo_pair_once; reflexivity|reflexivity]|]);
             apply inner_once_done; simpl; lia|]).
    apply outer_once_done. simpl. lia.
  - eapply outer_once_step; [simpl; lia| |].
    { eapply inner_once_step; [simpl; lia| |].
      { eapply lands_eq; [apply (demo_pair_once 0 1 0 1); reflexivity|exact E01]. }
      repeat (eapply inner_once_step;
              [simpl; lia
              |eapply lands_eq; [eapply demo_pair_once; reflexivity|reflexivity]|]).
      apply inner_once_done. simpl. lia. }
    repeat (eapply outer_once_step;
            [simpl; lia
            |repeat (eapply inner_once_step;
                     [simpl; lia
                     |eapply lands_eq; [eapply demo_pair_once; reflexivity|reflexivity]|]);
             apply inner_once_done; simpl; lia|]).
    apply outer_once_done. simpl. lia.
Qed.

(** One frame of the example, from any position and colour of the
    rectangle and any input. *)
Lemma demo_frame (px py : float) (col : string) (loaded : bool)
    (iw ih : float) (i : Input.state) (dt : float) (fuel : nat) :
  5 < fuel ->
  lands (DemoFrame.update Demo.hooks fuel dt)
    (DemoFrame.world px py col loaded iw ih i)
    (let p := if DemoFrame.reset_pressed i then (100%float, 100%float)
              else DemoFrame.moved i dt (px, py) in
     DemoFrame.world p.1 p.2
       (if DemoFrame.touches p.1 p.2 then "blue" else "red") loaded iw ih
       (if DemoFrame.reset_pressed i then Input.consumeClick i else i)).
Proof.
  intros Hfuel. unfold DemoFrame.update.
  eapply lands_seq; [apply (demo_update_pass _ _ _ _ _ _ _ _ _ Hfuel)|].
  set (p := if DemoFrame.reset_pressed i then (100%float, 100%float)
            else DemoFrame.moved i dt (px, py)).
  set (c := if DemoFrame.reset_pressed i then "red"%string else col).
  set (i' := if DemoFrame.reset_pressed i then Input.consumeClick i else i).
  replace (if DemoFrame.reset_pressed i
           then DemoFrame.world 100 100 "red" loaded iw ih (Input.consumeClick i)
           else DemoFrame.world (DemoFrame.moved i dt (px, py)).1
                  (DemoFrame.moved i dt (px, py)).2 col loaded iw ih i)
    with (DemoFrame.world p.1 p.2 c loaded iw ih i')
    by (unfold p, c, i'; destruct (DemoFrame.reset_pressed i); reflexivity).
  eapply lands_seq; [apply (demo_collision_pass _ _ _ _ _ _ _ _ Hfuel)|].
  apply lands_get.
  replace (checkCollision _ _) with (DemoFrame.touches p.1 p.2)
    by (destruct loaded; reflexivity).
  cbv zeta. destruct (DemoFrame.touches p.1 p.2); simpl.
  - apply lands_ret.
  - eapply lands_eq; [apply lands_modify|]. destruct loaded; reflexivity.
Qed.

(** X15: in the example, after every frame the rectangle is blue when it
    touches the circle and red when it does not, whatever its colour was.
    It is then where the arrow keys held took it, or back at
    [(100, 100)] with the click consumed when the Reset button was
    clicked; nothing else in the world changes.  This holds before and
    after the sprite has joined the list. *)
Theorem X15_demo_rectangle_blue_iff_touching
    (px py : float) (col : string) (loaded : bool) (iw ih : float)
    (i : Input.state) (dt : float) (fuel : nat) :
  5 < fuel ->
  let p := if DemoFrame.reset_pressed i then (100%float, 100%float)
           else DemoFrame.moved i dt (px, py) in
  exists tr,
    DemoFrame.update Demo.hooks fuel dt (DemoFrame.world px py col loaded iw ih i) =
    Some (tt,
          DemoFrame.world p.1 p.2
            (if DemoFrame.touches p.1 p.2 then "blue" else "red") loaded iw ih
            (if DemoFrame.reset_pressed i then Input.consumeClick i else i),
          tr).
Proof.
  intros Hfuel p.
  destruct (demo_frame px py col loaded iw ih i dt fuel Hfuel) as ([] & tr & E).
  exists tr. exact E.
Qed.

(** The rectangle, blue from an earlier frame, stands clear of the circle
    with no key held: it turns red. *)
Lemma X15_witness :
  exists tr,
    DemoFrame.update Demo.hooks 6 0 (DemoFrame.world 100 100 "blue" true 48 48 Input.new) =
    Some (tt, DemoFrame.world 100 100 "red" true 48 48 Input.new, tr).
Proof.
  destruct (X15_demo_rectangle_blue_iff_touching 100 100 "blue" true 48 48 Input.new 0 6)
    as (tr & E); [lia|].
  exists tr. exact E.
Defined.

(** X16: in the example, a frame with a click pending on the Reset button
    puts the rectangle back at [(100, 100)], red, and consumes the click,
    wherever the rectangle was, whatever its colour and whichever keys are
    held. *)
Theorem X16_demo_reset
    (px py : float) (col : string) (loaded : bool) (iw ih : float)
    (i : Input.state) (dt : float) (fuel : nat) :
  5 < fuel ->
  DemoFrame.reset_pressed i = true ->
  exists tr,
    DemoFrame.update Demo.hooks fuel dt (DemoFrame.world px py col loaded iw ih i) =
    Some (tt, DemoFrame.world 100 100 "red" loaded iw ih (Input.consumeClick i), tr).
Proof.
  intros Hfuel Hp.
  destruct (demo_frame px py col loaded iw ih i dt fuel Hfuel) as ([] & tr & E).
  exists tr. rewrite E, Hp. reflexivity.
Qed.

(** The rectangle is on the circle, the right arrow is held and the
    button is clicked at [(700, 560)]. *)
Lemma X16_witness :
  exists tr,
    DemoFrame.update Demo.hooks 6 1
      (DemoFrame.world 180 130 "blue" false 48 48
         (deliver [Input.keydown "ArrowRight"; Input.mousemove 700 560 0 0;
                   Input.mousedown] Input.new)) =
    Some (tt,
          DemoFrame.world 100 100 "red" false 48 48
            (Input.consumeClick
               (deliver [Input.keydown "ArrowRight"; Input.mousemove 700 560 0 0;
                         Input.mousedown] Input.new)),
          tr).
Proof.
  apply (X16_demo_reset 180 130 "blue" false 48 48 _ 1 6); [lia|].
  vm_compute. reflexivity.
Defined.
